(** * gatsby-typegen-remark: the Markdown field resolvers and their caches

    A shallow embedding of [packages/gatsby-typegen-remark/src/gatsby-node.js].

    The file has three layers:
    - the pure bodies of the field resolvers ([excerpt], [headings],
      [timeToRead]) over unist syntax trees and strings;
    - a small promise machine (promise cells, reactions, a job queue) in which
      [getAST], [getHeadings], [getHTML] and the resolvers are written in a
      state monad, one primitive per source construct;
    - invariants of the machine over every interleaving of host calls,
      plugin settlements and queued callbacks.

    Libraries the source only calls ([remark], [mdast-util-to-hast],
    [hast-util-to-html], [sanitize-html], [lodash.words]) are an interface,
    class [Libraries]; the plugins are data of the host configuration. *)

From Stdlib Require Import ZArith Lia Ascii String.
From stdpp Require Import base option list gmap strings.

#[local] Set Warnings "-register-all".
#[local] Open Scope string_scope.
#[local] Open Scope nat_scope.
#[local] Open Scope list_scope.
#[local] Open Scope stdpp_scope.

(** ** Syntax trees

    A unist node as remark produces it: a type tag, an optional [value]
    (text, code, html nodes), an optional [depth] (headings) and children. *)

Inductive tree : Type :=
  Node (type : string) (value : option string) (depth : option Z)
       (children : list tree).

Definition tree_type (t : tree) : string := let 'Node ty _ _ _ := t in ty.
Definition tree_value (t : tree) : option string := let 'Node _ v _ _ := t in v.
Definition tree_depth (t : tree) : option Z := let 'Node _ _ d _ := t in d.
Definition tree_children (t : tree) : list tree := let 'Node _ _ _ cs := t in cs.

(** [select(tree, `type`)] of unist-util-select with a bare type selector and
    the traversal of [visit(tree, `type`, visitor)] of unist-util-visit: the
    nodes of that type, parents before children, siblings left to right.
    The visitors of this file never return [false], so [visit] never stops
    early. *)

Fixpoint select (t : tree) (ty : string) : list tree :=
  match t with
  | Node ty' _ _ cs =>
      let below := flat_map (λ c, select c ty) cs in
      if decide (ty' = ty) then t :: below else below
  end.

Definition visit {A} (t : tree) (ty : string) (visitor : tree → A) : list A :=
  visitor <$> select t ty.

(** ** Records of the content graph *)

Record heading := Heading { h_value : option string; h_depth : option Z }.

Abbreviation pid := nat (only parsing).   (* a promise *)
Abbreviation ref := nat (only parsing).   (* a markdownNode object *)
Abbreviation aref := nat (only parsing).  (* a syntax tree object *)

Record mnode := MNode {
  node_id : string;
  node_type : string;
  node_src : string;
  node_ast : option aref;
  node_html : option string;
  node_headings : option (list heading);
}.

(** ** Plugins

    [require(plugin.resolve)] yields a module that may carry a
    [mutateSource] function and may itself be a function (the annotation
    capability).  A call does its synchronous part at once ([_now]) and
    returns a promise; when that promise is fulfilled the rest of its work
    ([_later]) has been done.  Whether and when it is fulfilled or rejected
    is up to the plugin. *)

Record mutator := Mutator {
  mut_now : string → string;
  mut_later : string → string;
}.

Record annotator := Annotator {
  ann_now : tree → tree;
  ann_later : tree → tree;
}.

Record plugin := Plugin {
  mutateSource : option mutator;
  annotate : option annotator;
}.

(** ** Promises *)

Inductive value :=
| VUndefined
| VNode (r : ref)
| VString (s : string)
| VInt (z : Z)
| VHeadings (hs : list heading).

Inductive pstate := Pending | Fulfilled (v : value) | Rejected.

(** The callbacks the source passes to [.then] (and the continuation of the
    one [await]), with the variables each closes over. *)
Inductive kont :=
| KParse (i : nat) (r : ref) (p : pid)        (* line 73 *)
| KFinish (r : ref) (t : aref) (p : pid)      (* line 122 *)
| KSetHeadings (r : ref) (q : pid)            (* lines 137-143 *)
| KRender (q : pid)                           (* line 153 *)
| KHtmlField (d : pid)                        (* line 199 *)
| KExcerpt (pruneLength : Z) (d : pid)        (* line 214 *)
| KHeadingsField (depth : option Z) (d : pid) (* line 229 *)
| KTimeToRead (d : pid).                      (* line 241 *)

Inductive reaction :=
| RThen (k : kont)
| RAll (a : pid).

(** What a plugin's pending promise still has to do to the shared objects. *)
Inductive effect :=
| OnSource (r : ref) (f : string → string)
| OnTree (t : aref) (f : tree → tree).

Inductive origin :=
| Executor                       (* [new Promise(executor)] *)
| AsyncFn                        (* the promise of an [async function] call *)
| Derived                        (* the promise [.then] returns *)
| Resolved                       (* [Promise.resolve()] *)
| External (eff : effect)        (* returned by a plugin *)
| AllOf (elems waiting : list pid). (* [Promise.all(elems)] *)

Record promise := Promise {
  p_state : pstate;
  p_reactions : list reaction;
  p_origin : origin;
}.

Inductive job :=
| JThen (k : kont) (o : option value)   (* run a callback; [None]: rejected *)
| JAll (a e : pid) (ok : bool).         (* tell [a] that its element [e] settled *)

(** ** The state of the process *)

Inductive event :=
| EStart (p : pid) (id : string)
| EMutate (p : pid) (k : nat) (e : pid)
| EParse (p : pid) (src : string) (t : aref)
| EAnnotate (p : pid) (k : nat) (e : pid)
| EResolve (p : pid)
| EFulfilled (e : pid)
| ERejected (e : pid).

(** One call of [extendNodeType] that got past the type check: the closure
    over [pluginOptions] and its own [htmlPromisesCache] (line 147). *)
Record instance := Instance {
  inst_plugins : list plugin;
  htmlPromisesCache : gmap string pid;
}.

Record state := State {
  astPromiseCache : gmap string pid;  (* line 25, module level *)
  instances : list instance;
  promises : list promise;
  objects : list mnode;
  trees : list tree;
  jobs : list job;
  trace : list event;
}.

Definition init : state := State ∅ [] [] [] [] [] [].

Definition set_cache (f : gmap string pid → gmap string pid) (s : state) : state :=
  State (f (astPromiseCache s)) (instances s) (promises s) (objects s)
        (trees s) (jobs s) (trace s).
Definition set_instances (f : list instance → list instance) (s : state) : state :=
  State (astPromiseCache s) (f (instances s)) (promises s) (objects s)
        (trees s) (jobs s) (trace s).
Definition set_promises (f : list promise → list promise) (s : state) : state :=
  State (astPromiseCache s) (instances s) (f (promises s)) (objects s)
        (trees s) (jobs s) (trace s).
Definition set_objects (f : list mnode → list mnode) (s : state) : state :=
  State (astPromiseCache s) (instances s) (promises s) (f (objects s))
        (trees s) (jobs s) (trace s).
Definition set_trees (f : list tree → list tree) (s : state) : state :=
  State (astPromiseCache s) (instances s) (promises s) (objects s)
        (f (trees s)) (jobs s) (trace s).
Definition set_jobs (f : list job → list job) (s : state) : state :=
  State (astPromiseCache s) (instances s) (promises s) (objects s)
        (trees s) (f (jobs s)) (trace s).
Definition set_trace (f : list event → list event) (s : state) : state :=
  State (astPromiseCache s) (instances s) (promises s) (objects s)
        (trees s) (jobs s) (f (trace s)).

(** ** The state monad *)

Definition M (A : Type) : Type := state → A * state.

Definition ret {A} (a : A) : M A := λ s, (a, s).
Definition bind {A B} (m : M A) (f : A → M B) : M B :=
  λ s, let '(a, s') := m s in f a s'.
Definition get : M state := λ s, (s, s).
Definition modify (f : state → state) : M unit := λ s, (tt, f s).

Notation "'let*' x ':=' m 'in' k" := (bind m (λ x, k))
  (at level 10, x pattern, m at level 100, k at level 200).
Notation "m ;; k" := (bind m (λ _, k))
  (at level 100, k at level 200, right associativity).

(** [xs.map(f)] where [f] has effects and sees the index. *)
Fixpoint mapM_from {A B} (f : nat → A → M B) (k : nat) (xs : list A) : M (list B) :=
  match xs with
  | [] => ret []
  | x :: xs' =>
      let* y := f k x in
      let* ys := mapM_from f (S k) xs' in
      ret (y :: ys)
  end.

Fixpoint forM_ {A} (f : A → M unit) (xs : list A) : M unit :=
  match xs with
  | [] => ret tt
  | x :: xs' => f x ;; forM_ f xs'
  end.

(** ** Promise primitives *)

Definition log (e : event) : M unit := modify (set_trace (λ t, t ++ [e])).

Definition enqueue (j : job) : M unit := modify (set_jobs (λ q, q ++ [j])).

Definition new_promise (c : promise) : M pid :=
  λ s, (length (promises s), set_promises (λ h, h ++ [c]) s).

Definition job_of (p : pid) (o : option value) (rx : reaction) : job :=
  match rx with
  | RThen k => JThen k o
  | RAll a => JAll a p (bool_decide (is_Some o))
  end.

Definition settled_state (o : option value) : pstate :=
  match o with Some v => Fulfilled v | None => Rejected end.

(** Settle a pending promise and schedule its reactions; a settled promise
    ignores further [resolve]/[reject] calls. *)
Definition settle (p : pid) (o : option value) : M unit :=
  modify (λ s,
    match promises s !! p with
    | Some (Promise Pending rxs org) =>
        set_jobs (λ q, q ++ (job_of p o <$> rxs))
          (set_promises <[p := Promise (settled_state o) [] org]> s)
    | _ => s
    end).

Definition outcome (st : pstate) : option (option value) :=
  match st with
  | Pending => None
  | Fulfilled v => Some (Some v)
  | Rejected => Some None
  end.

Definition subscribe (p : pid) (rx : reaction) : M unit :=
  modify (λ s,
    match promises s !! p with
    | Some (Promise st rxs org) =>
        match outcome st with
        | None => set_promises <[p := Promise st (rxs ++ [rx]) org]> s
        | Some o => set_jobs (λ q, q ++ [job_of p o rx]) s
        end
    | None => s
    end).

(** [p.then(k)] where the promise it returns is dropped (lines 73, 122, 153). *)
Definition then_ (p : pid) (k : kont) : M unit := subscribe p (RThen k).

(** [p.then(k)] where the caller keeps the returned promise. *)
Definition then_derive (p : pid) (k : pid → kont) : M pid :=
  let* d := new_promise (Promise Pending [] Derived) in
  subscribe p (RThen (k d)) ;;
  ret d.

Definition promise_resolve : M pid :=
  new_promise (Promise (Fulfilled VUndefined) [] Resolved).

Definition promise_all (es : list pid) : M pid :=
  let* a := new_promise (Promise Pending [] (AllOf es es)) in
  match es with
  | [] => settle a (Some VUndefined)
  | _ => forM_ (λ e, subscribe e (RAll a)) es
  end ;;
  ret a.

(** ** Object access *)

Definition the_node (s : state) (r : ref) : mnode :=
  default (MNode "" "" "" None None None) (objects s !! r).

Definition the_plugins (s : state) (i : nat) : list plugin :=
  default [] (inst_plugins <$> instances s !! i).

Definition the_html_cache (s : state) (i : nat) : gmap string pid :=
  default ∅ (htmlPromisesCache <$> instances s !! i).

Definition update_node (r : ref) (f : mnode → mnode) : M unit :=
  modify (set_objects (alter f r)).

Definition with_src (f : string → string) (n : mnode) : mnode :=
  MNode (node_id n) (node_type n) (f (node_src n)) (node_ast n) (node_html n)
        (node_headings n).
Definition with_ast (t : aref) (n : mnode) : mnode :=
  MNode (node_id n) (node_type n) (node_src n) (Some t) (node_html n)
        (node_headings n).
Definition with_html (h : string) (n : mnode) : mnode :=
  MNode (node_id n) (node_type n) (node_src n) (node_ast n) (Some h)
        (node_headings n).
Definition with_headings (hs : list heading) (n : mnode) : mnode :=
  MNode (node_id n) (node_type n) (node_src n) (node_ast n) (node_html n)
        (Some hs).

Definition new_tree (t : tree) : M aref :=
  λ s, (length (trees s), set_trees (λ h, h ++ [t]) s).

Definition apply_effect (eff : effect) : M unit :=
  match eff with
  | OnSource r f => update_node r (with_src f)
  | OnTree t f => modify (set_trees (alter f t))
  end.

(** ** Strings as the resolvers use them

    A string is the list of its code units; the classes below are those of
    ECMAScript regular expressions and [toUpperCase]/[toLowerCase] on the
    code units 0..255. *)

Definition in_range (lo hi : nat) (c : ascii) : bool :=
  (lo <=? nat_of_ascii c) && (nat_of_ascii c <=? hi).

(** [\w] *)
Definition is_word (c : ascii) : bool :=
  in_range 48 57 c || in_range 65 90 c || in_range 95 95 c || in_range 97 122 c.

(** [\s] *)
Definition is_space (c : ascii) : bool :=
  in_range 9 13 c || in_range 32 32 c || in_range 160 160 c.

(** what [.] does not match *)
Definition is_line_terminator (c : ascii) : bool :=
  in_range 10 10 c || in_range 13 13 c.

(** [c.toUpperCase() !== c.toLowerCase()] *)
Definition has_case (c : ascii) : bool :=
  in_range 65 90 c || in_range 97 122 c || in_range 181 181 c
  || in_range 192 214 c || in_range 216 246 c || in_range 248 255 c.

Fixpoint drop_while {A} (f : A → bool) (l : list A) : list A :=
  match l with
  | [] => []
  | x :: l' => if f x then drop_while f l' else l
  end.

(** [Array.prototype.join]: [undefined] elements print as the empty string. *)
Fixpoint join (sep : string) (xs : list (option string)) : string :=
  match xs with
  | [] => ""
  | [x] => default "" x
  | x :: xs' => default "" x +:+ sep +:+ join sep xs'
  end.

(** *** underscore.string [prune(str, length)]

    {[
      length = ~~length; pruneStr = '...';
      if (str.length <= length) return str;
      var tmpl = function(c) { return c.toUpperCase() !== c.toLowerCase() ? 'A' : ' '; },
        template = str.slice(0, length + 1).replace(/.(?=\W*\w*$)/g, tmpl);
      if (template.slice(template.length - 2).match(/\w\w/))
        template = template.replace(/\s*\S+$/, '');
      else
        template = rtrim(template.slice(0, template.length - 1));
      return (template + pruneStr).length > str.length
        ? str : str.slice(0, template.length) + pruneStr;
    ]} *)

(** [~~n]: to a signed 32 bit integer *)
Definition to_int32 (n : Z) : Z := ((n + 2 ^ 31) mod 2 ^ 32 - 2 ^ 31)%Z.

(** [l.slice(0, e)] *)
Definition slice0 {A} (l : list A) (e : Z) : list A :=
  if (e <? 0)%Z then take (Z.to_nat (Z.of_nat (length l) + e)) l
  else take (Z.to_nat e) l.

Definition tmpl (c : ascii) : ascii :=
  if has_case c then "A"%char else " "%char.

(** the lookahead [(?=\W*\w*$)] on what follows a character *)
Definition lookahead (rest : list ascii) : bool :=
  forallb is_word (drop_while (λ c, negb (is_word c)) rest).

Fixpoint template_of (l : list ascii) : list ascii :=
  match l with
  | [] => []
  | c :: rest =>
      (if negb (is_line_terminator c) && lookahead rest then tmpl c else c)
        :: template_of rest
  end.

(** [t.slice(t.length - 2).match(/\w\w/)] *)
Definition ends_in_word_pair (t : list ascii) : bool :=
  match drop (length t - 2) t with
  | [a; b] => is_word a && is_word b
  | _ => false
  end.

(** [t.replace(/\s*\S+$/, '')] *)
Definition drop_last_token (t : list ascii) : list ascii :=
  match rev t with
  | [] => t
  | c :: _ =>
      if is_space c then t
      else rev (drop_while is_space (drop_while (λ c, negb (is_space c)) (rev t)))
  end.

Definition rtrim (t : list ascii) : list ascii :=
  rev (drop_while is_space (rev t)).

Definition pruneStr : list ascii := list_ascii_of_string "...".

(** the template once it is cut back: its length is where [str] is cut *)
Definition prune_template (str : list ascii) (n : Z) : list ascii :=
  let template := template_of (slice0 str (n + 1)) in
  if ends_in_word_pair template then drop_last_token template
  else rtrim (take (length template - 1) template).

Definition prune_chars (str : list ascii) (len : Z) : list ascii :=
  let n := to_int32 len in
  if (Z.of_nat (length str) <=? n)%Z then str
  else
    let template := prune_template str n in
    if length str <? length (template ++ pruneStr) then str
    else take (length template) str ++ pruneStr.

Definition prune (str : string) (len : Z) : string :=
  string_of_list_ascii (prune_chars (list_ascii_of_string str) len).

(** [Math.round(n / d)] for integers [n >= 0], [d > 0]: the quotient is
    never exactly half way when [d] is odd, and [Math.round] is
    [floor(x + 1/2)]. *)
Definition Math_round_div (n d : Z) : Z := ((2 * n + d) / (2 * d))%Z.

(** ** The libraries the source calls *)

Class Libraries := {
  (** [remark.parse] with the options of line 47 *)
  remark_parse : string → tree;
  (** [hastToHTML(toHAST(ast, {allowDangerousHTML: true}), {allowDangerousHTML: true})] *)
  to_html : tree → string;
  (** [sanitizeHTML(html, options)], the options object as its entries *)
  sanitizeHTML : string → list (string * list string) → string;
  (** [_.words] *)
  words : string → list string;
}.

(** ** The bodies of the resolvers *)

(** lines 138-141 *)
Definition heading_of (h : tree) : heading :=
  Heading (mjoin (head (tree_value <$> select h "text"))) (tree_depth h).

Definition headings_of (ast : tree) : list heading :=
  heading_of <$> select ast "heading".

(** lines 230-234; [depth] is [None] when the argument is not given *)
Definition filter_headings (depth : option Z) (hs : list heading) : list heading :=
  match depth with
  | Some d => filter (λ h, h_depth h = Some d) hs
  | None => hs
  end.

(** lines 215-217 *)
Definition excerpt (ast : tree) (pruneLength : Z) : string :=
  let textNodes := visit ast "text" tree_value in
  prune (join " " textNodes) pruneLength.

Definition avgWPM : Z := 265.

(** the options object of line 243 *)
Definition sanitize_options : list (string * list string) := [("allowTags", [])].

(** lines 242-250 *)
Definition timeToRead `{Libraries} (html : string) : Z :=
  let pureText := sanitizeHTML html sanitize_options in
  let wordCount := Z.of_nat (length (words pureText)) in
  let timeToRead := Math_round_div wordCount avgWPM in
  if (timeToRead =? 0)%Z then 1%Z else timeToRead.

(** ** The cache invalidation hook (lines 29-33) *)

Definition onNodeCreate (node : mnode) : M unit :=
  if decide (node_type node = "MarkdownRemark")
  then modify (set_cache (delete (node_id node)))
  else ret tt.

(** ** [extendNodeType] (lines 35-43, 147)

    The files, [getNode] and [linkPrefix] of the call are only handed on to
    the plugins and are left out.  The result is the index of the closure
    the returned fields refer to, [None] for the [{}] of line 40. *)

Definition extendNodeType (type_name : string) (plugins : list plugin) : M (option nat) :=
  if decide (type_name = "MarkdownRemark") then
    let* s := get in
    modify (set_instances (λ l, l ++ [Instance plugins ∅])) ;;
    ret (Some (length (instances s)))
  else ret None.

(** ** [getAST] (lines 53-131)

    An [async function] wraps what it returns in a promise of its own that
    settles as the returned promise does; callers only ever [.then] or
    [await] it, so the cached promise stands for the wrapper. *)

(** lines 59-72, one plugin *)
Definition call_mutate (r : ref) (p : pid) (k : nat) (pl : plugin) : M pid :=
  match mutateSource pl with
  | Some m =>
      update_node r (with_src (mut_now m)) ;;
      let* e := new_promise (Promise Pending [] (External (OnSource r (mut_later m)))) in
      log (EMutate p k e) ;;
      ret e
  | None => promise_resolve
  end.

Definition getAST (i : nat) (r : ref) : M pid :=
  let* s := get in
  let id := node_id (the_node s r) in
  match astPromiseCache s !! id with
  | Some p => ret p
  | None =>
      let* p := new_promise (Promise Pending [] Executor) in
      log (EStart p id) ;;
      let* ms := mapM_from (call_mutate r p) 0 (the_plugins s i) in
      let* a := promise_all ms in
      then_ a (KParse i r p) ;;
      modify (set_cache <[id := p]>) ;;
      ret p
  end.

(** lines 107-121, one plugin *)
Definition call_annotate (r : ref) (t : aref) (p : pid) (k : nat) (pl : plugin) : M pid :=
  match annotate pl with
  | Some a =>
      modify (set_trees (alter (ann_now a) t)) ;;
      let* e := new_promise (Promise Pending [] (External (OnTree t (ann_later a)))) in
      log (EAnnotate p k e) ;;
      ret e
  | None => promise_resolve
  end.

(** lines 122-125 *)
Definition finish (r : ref) (t : aref) (p : pid) : M unit :=
  update_node r (with_ast t) ;;
  settle p (Some (VNode r)) ;;
  log (EResolve p).

(** ** [getHeadings] (lines 133-145) *)

Definition getHeadings (i : nat) (r : ref) : M pid :=
  let* s := get in
  let* q := new_promise (Promise Pending [] AsyncFn) in
  match node_headings (the_node s r) with
  | Some _ => settle q (Some (VNode r))
  | None =>
      let* p := getAST i r in
      then_ p (KSetHeadings r q)
  end ;;
  ret q.

(** ** [getHTML] (lines 148-163) *)

Definition set_html_cache (i : nat) (f : gmap string pid → gmap string pid) : M unit :=
  modify (set_instances
    (alter (λ c, Instance (inst_plugins c) (f (htmlPromisesCache c))) i)).

Definition getHTML (i : nat) (r : ref) : M pid :=
  let* s := get in
  let id := node_id (the_node s r) in
  match the_html_cache s i !! id with
  | Some q => ret q
  | None =>
      let* q := new_promise (Promise Pending [] Executor) in
      let* p := getAST i r in
      then_ p (KRender q) ;;
      set_html_cache i <[id := q]> ;;
      ret q
  end.

(** ** The field resolvers (lines 195-254) *)

Definition html_resolve (i : nat) (r : ref) : M pid :=
  let* q := getHTML i r in then_derive q KHtmlField.

Definition excerpt_resolve (i : nat) (r : ref) (pruneLength : Z) : M pid :=
  let* p := getAST i r in then_derive p (KExcerpt pruneLength).

Definition headings_resolve (i : nat) (r : ref) (depth : option Z) : M pid :=
  let* q := getHeadings i r in then_derive q (KHeadingsField depth).

Definition timeToRead_resolve (i : nat) (r : ref) : M pid :=
  let* q := getHTML i r in then_derive q KTimeToRead.

(** ** Running the queue *)

Section Machine.
Context `{Libraries}.

(** lines 74-122 *)
Definition parse_and_annotate (i : nat) (r : ref) (p : pid) : M unit :=
  let* s := get in
  let src := node_src (the_node s r) in
  let* t := new_tree (remark_parse src) in
  log (EParse p src t) ;;
  let* es := mapM_from (call_annotate r t p) 0 (the_plugins s i) in
  let* a := promise_all es in
  then_ a (KFinish r t p).

Definition the_tree (s : state) (r : ref) : option tree :=
  t ← node_ast (the_node s r); trees s !! t.

(** A callback run on the value its promise was fulfilled with.  Where the
    JavaScript would throw on a missing field, the promise that [.then]
    returned is rejected; in [getAST] and [getHTML] nobody holds it. *)
Definition run_callback (k : kont) (v : value) : M unit :=
  let* s := get in
  match k, v with
  | KParse i r p, _ => parse_and_annotate i r p
  | KFinish r t p, _ => finish r t p
  | KSetHeadings r q, VNode n =>
      match the_tree s n with
      | Some ast =>
          update_node r (with_headings (headings_of ast)) ;;
          settle q (Some (VNode r))
      | None => settle q None
      end
  | KRender q, VNode n =>
      match the_tree s n with
      | Some ast =>
          update_node n (with_html (to_html ast)) ;;
          settle q (Some (VNode n))
      | None => ret tt
      end
  | KHtmlField d, VNode n =>
      settle d (Some (from_option VString VUndefined (node_html (the_node s n))))
  | KExcerpt pruneLength d, VNode n =>
      settle d (VString <$> (flip excerpt pruneLength <$> the_tree s n))
  | KHeadingsField depth d, VNode n =>
      settle d (VHeadings <$> (filter_headings depth <$> node_headings (the_node s n)))
  | KTimeToRead d, VNode n =>
      settle d (VInt <$> (timeToRead <$> node_html (the_node s n)))
  | KSetHeadings _ q, _ => settle q None
  | KRender _, _ => ret tt
  | KHtmlField d, _ | KExcerpt _ d, _ | KHeadingsField _ d, _ | KTimeToRead d, _ =>
      settle d None
  end.

(** A callback whose promise was rejected is skipped, and the promise that
    [.then] (or the [await]) produced is rejected in turn. *)
Definition skip_callback (k : kont) : M unit :=
  match k with
  | KParse _ _ _ | KFinish _ _ _ | KRender _ => ret tt
  | KSetHeadings _ q => settle q None
  | KHtmlField d | KExcerpt _ d | KHeadingsField _ d | KTimeToRead d => settle d None
  end.

(** [Promise.all]: fulfilled when its last element is, rejected with the
    first element that is. *)
Definition notify_all (a e : pid) (ok : bool) : M unit :=
  let* s := get in
  match promises s !! a with
  | Some (Promise st rxs (AllOf es w)) =>
      if ok then
        let w' := filter (λ x, x ≠ e) w in
        modify (set_promises <[a := Promise st rxs (AllOf es w')]>) ;;
        if decide (w' = []) then settle a (Some VUndefined) else ret tt
      else settle a None
  | _ => ret tt
  end.

Definition run_job (j : job) : M unit :=
  match j with
  | JThen k (Some v) => run_callback k v
  | JThen k None => skip_callback k
  | JAll a e ok => notify_all a e ok
  end.

(** ** What can happen next *)

Inductive action :=
| NewNode (n : mnode)                         (* the host creates a record *)
| ExtendNodeType (type_name : string) (plugins : list plugin)
| OnNodeCreate (n : mnode)
| GetAST (i : nat) (r : ref)
| GetHeadings (i : nat) (r : ref)
| GetHTML (i : nat) (r : ref)
| ResolveHtml (i : nat) (r : ref)
| ResolveExcerpt (i : nat) (r : ref) (pruneLength : Z)
| ResolveHeadings (i : nat) (r : ref) (depth : option Z)
| ResolveTimeToRead (i : nat) (r : ref)
| Fulfil (e : pid)                            (* a plugin fulfils its promise *)
| Reject (e : pid)                            (* a plugin rejects its promise *)
| RunJob.                                     (* the next queued callback runs *)

Definition settle_external (e : pid) (ok : bool) : M unit :=
  let* s := get in
  match promises s !! e with
  | Some (Promise Pending _ (External eff)) =>
      if ok then
        apply_effect eff ;; settle e (Some VUndefined) ;; log (EFulfilled e)
      else
        settle e None ;; log (ERejected e)
  | _ => ret tt
  end.

Definition run_next : M unit :=
  let* s := get in
  match jobs s with
  | [] => ret tt
  | j :: q => modify (set_jobs (λ _, q)) ;; run_job j
  end.

(** The fields are only ever called on a closure that exists with a record
    that exists. *)
Definition guarded {A} (s : state) (i : nat) (r : ref) (m : M A) : state :=
  if decide (i < length (instances s) ∧ r < length (objects s))
  then (m s).2 else s.

Definition exec (a : action) (s : state) : state :=
  match a with
  | NewNode n => set_objects (λ l, l ++ [n]) s
  | ExtendNodeType ty ps => (extendNodeType ty ps s).2
  | OnNodeCreate n => (onNodeCreate n s).2
  | GetAST i r => guarded s i r (getAST i r)
  | GetHeadings i r => guarded s i r (getHeadings i r)
  | GetHTML i r => guarded s i r (getHTML i r)
  | ResolveHtml i r => guarded s i r (html_resolve i r)
  | ResolveExcerpt i r n => guarded s i r (excerpt_resolve i r n)
  | ResolveHeadings i r d => guarded s i r (headings_resolve i r d)
  | ResolveTimeToRead i r => guarded s i r (timeToRead_resolve i r)
  | Fulfil e => (settle_external e true s).2
  | Reject e => (settle_external e false s).2
  | RunJob => (run_next s).2
  end.

Definition run (acts : list action) (s : state) : state :=
  foldl (λ s a, exec a s) s acts.

Definition reachable (s : state) : Prop := ∃ acts, s = run acts init.

End Machine.

(** ** Notions the statements are written in *)

(** Document order: a node before its children, children left to right. *)
Fixpoint preorder (t : tree) : list tree :=
  match t with
  | Node _ _ _ cs => t :: flat_map preorder cs
  end.


Definition depth_matches (depth : option Z) (n : tree) : Prop :=
  match depth with
  | Some d => tree_depth n = Some d
  | None => True
  end.

#[global] Instance depth_matches_dec depth n : Decision (depth_matches depth n).
Proof. destruct depth; simpl; apply _. Defined.

(** Cutting [s] at [k] separates two letters. *)
Definition cut_inside_word (s : list ascii) (k : nat) : Prop :=
  ∃ i a b, k = S i ∧ s !! i = Some a ∧ s !! k = Some b
           ∧ has_case a = true ∧ has_case b = true.

(** How often the pipeline of promise [p] has parsed / was started. *)
Definition is_parse_of (p : pid) (e : event) : bool :=
  match e with EParse p' _ _ => bool_decide (p' = p) | _ => false end.

Definition parse_count (p : pid) (s : state) : nat :=
  length (filter (λ e, is_parse_of p e = true) (trace s)).

(** ** A sample of the libraries

    For evaluating the machine on concrete input: sources that are one
    paragraph of plain text for the parser and the renderer; for
    sanitize-html its documented treatment of the [allowedTags] option (tags
    off the list are dropped and their text is kept, and the default list is
    used when the option is not given); words as the runs of letters and
    digits. *)

Definition is_alnum (c : ascii) : bool :=
  in_range 48 57 c || in_range 65 90 c || in_range 97 122 c.

Definition default_allowedTags : list string :=
  ["h3"; "h4"; "h5"; "h6"; "blockquote"; "p"; "a"; "ul"; "ol"; "nl"; "li";
   "b"; "i"; "strong"; "em"; "strike"; "code"; "hr"; "br"; "div"; "table";
   "thead"; "caption"; "tbody"; "tr"; "th"; "td"; "pre"].

Fixpoint option_named (key : string) (opts : list (string * list string)) : option (list string) :=
  match opts with
  | [] => None
  | (k, v) :: opts' => if decide (k = key) then Some v else option_named key opts'
  end.

Fixpoint take_while {A} (f : A → bool) (l : list A) : list A :=
  match l with
  | [] => []
  | x :: l' => if f x then x :: take_while f l' else []
  end.

(** the name of the tag whose text between [<] and [>] is [body] *)
Definition tag_name (body : list ascii) : string :=
  string_of_list_ascii
    (take_while is_alnum
       (match body with
        | c :: rest => if Ascii.eqb c "/" then rest else body
        | [] => []
        end)).

(** [tag] holds, reversed, the text of the tag being read *)
Fixpoint strip_tags (allowed : list string) (tag : option (list ascii))
    (l : list ascii) : list ascii :=
  match l with
  | [] => []
  | c :: l' =>
      match tag with
      | None =>
          if Ascii.eqb c "<" then strip_tags allowed (Some []) l'
          else c :: strip_tags allowed None l'
      | Some buf =>
          if Ascii.eqb c ">" then
            (if bool_decide (tag_name (rev buf) ∈ allowed)
             then "<"%char :: rev buf ++ [">"%char] else [])
              ++ strip_tags allowed None l'
          else strip_tags allowed (Some (c :: buf)) l'
      end
  end.

Definition sample_sanitize (html : string) (opts : list (string * list string)) : string :=
  string_of_list_ascii
    (strip_tags (default default_allowedTags (option_named "allowedTags" opts))
       None (list_ascii_of_string html)).

(** [cur] holds, reversed, the word being read *)
Fixpoint words_from (cur : list ascii) (l : list ascii) : list string :=
  match l with
  | [] => match cur with [] => [] | _ => [string_of_list_ascii (rev cur)] end
  | c :: l' =>
      if is_alnum c then words_from (c :: cur) l'
      else match cur with
           | [] => words_from [] l'
           | _ => string_of_list_ascii (rev cur) :: words_from [] l'
           end
  end.

Definition sample_words (s : string) : list string :=
  words_from [] (list_ascii_of_string s).

Definition sample_parse (src : string) : tree :=
  Node "root" None None
    [Node "paragraph" None None [Node "text" (Some src) None []]].

Definition sample_render (ast : tree) : string :=
  "<p>" +:+ join "" (visit ast "text" tree_value) +:+ "</p>".

Definition sample_libraries : Libraries :=
  {| remark_parse := sample_parse;
     to_html := sample_render;
     sanitizeHTML := sample_sanitize;
     words := sample_words |}.

(** ** Sample input *)

Fixpoint times (n : nat) (s : string) : string :=
  match n with
  | 0 => ""
  | S n' => s +:+ times n' s
  end.

Definition sample_node : mnode :=
  MNode "a.md" "MarkdownRemark" "Hello, world" None None None.

Definition other_node : mnode :=
  MNode "a.md" "File" "Hello, world" None None None.

Definition sample_headings : tree :=
  Node "root" None None
    [Node "heading" None (Some 1%Z) [Node "text" (Some "A") None []];
     Node "heading" None (Some 2%Z)
       [Node "emphasis" None None [Node "text" (Some "B") None []];
        Node "text" (Some " and more") None []];
     Node "paragraph" None None [Node "text" (Some "body") None []];
     Node "heading" None (Some 2%Z) [Node "text" (Some "C") None []];
     Node "heading" None (Some 3%Z) [Node "text" (Some "D") None []]].

(** ** Invariants of the machine *)

Inductive kind := KExecutor | KAsyncFn | KDerived | KResolved | KExternal | KAllOf.

Definition kind_of (o : origin) : kind :=
  match o with
  | Executor => KExecutor
  | AsyncFn => KAsyncFn
  | Derived => KDerived
  | Resolved => KResolved
  | External _ => KExternal
  | AllOf _ _ => KAllOf
  end.

Definition cell_kind (s : state) (q : pid) : option kind :=
  (λ c, kind_of (p_origin c)) <$> promises s !! q.

Definition fulfilled (s : state) (q : pid) : Prop :=
  ∃ c v, promises s !! q = Some c ∧ p_state c = Fulfilled v.

Definition rejected (s : state) (q : pid) : Prop :=
  ∃ c, promises s !! q = Some c ∧ p_state c = Rejected.

Definition started (p : pid) (s : state) : Prop := ∃ id, EStart p id ∈ trace s.

Definition parsed (p : pid) (s : state) : Prop := ∃ src t, EParse p src t ∈ trace s.

(** the [KParse] callbacks of pipeline [p] still registered or queued *)
Definition is_parse_rx (p : pid) (rx : reaction) : bool :=
  match rx with RThen (KParse _ _ p') => bool_decide (p' = p) | _ => false end.

Definition is_parse_job (p : pid) (j : job) : bool :=
  match j with JThen (KParse _ _ p') _ => bool_decide (p' = p) | _ => false end.

Definition count_in_cell (p : pid) (c : promise) : nat :=
  length (filter (λ rx, is_parse_rx p rx = true) (p_reactions c)).

Definition count_reg (p : pid) (s : state) : nat :=
  sum_list_with (count_in_cell p) (promises s).

Definition count_job (p : pid) (s : state) : nat :=
  length (filter (λ j, is_parse_job p j = true) (jobs s)).

Definition fresh_pipeline (p : pid) (s : state) : Prop :=
  count_reg p s + count_job p s + parse_count p s = 0.

(** What a callback may rely on for the promise it will settle. *)
Definition kont_wf (s : state) (k : kont) : Prop :=
  match k with
  | KParse _ _ p => cell_kind s p = Some KExecutor
  | KFinish _ _ p => cell_kind s p = Some KExecutor ∧ parsed p s
  | KSetHeadings _ q => cell_kind s q = Some KAsyncFn
  | KRender q => cell_kind s q = Some KExecutor ∧ ¬ started q s
  | KHtmlField d | KExcerpt _ d | KHeadingsField _ d | KTimeToRead d =>
      cell_kind s d = Some KDerived
  end.

Definition event_wf (s : state) (ev : event) : Prop :=
  match ev with
  | EStart p _ => cell_kind s p = Some KExecutor
  | EMutate p _ e => cell_kind s p = Some KExecutor ∧ cell_kind s e = Some KExternal
  | EParse p _ _ => cell_kind s p = Some KExecutor
  | EFulfilled e => fulfilled s e
  | _ => True
  end.

(** In a trace in order, a parse comes after the fulfilment of every
    mutate-source promise of its pipeline. *)
Definition ordered (tr : list event) : Prop :=
  ∀ t1 t2 p src t k e,
    tr = t1 ++ EParse p src t :: t2 →
    EMutate p k e ∈ tr → EFulfilled e ∈ t1.

Record Inv (s : state) : Prop := {
  I_konts : ∀ q c k, promises s !! q = Some c → RThen k ∈ p_reactions c → kont_wf s k;
  I_jobs : ∀ k o, JThen k o ∈ jobs s → kont_wf s k;
  I_jall : ∀ a e, JAll a e true ∈ jobs s → fulfilled s e;
  I_events : ∀ ev, ev ∈ trace s → event_wf s ev;
  I_norej : ∀ q c, promises s !! q = Some c → p_origin c = Executor → p_state c ≠ Rejected;
  I_cache : ∀ id p, astPromiseCache s !! id = Some p → cell_kind s p = Some KExecutor;
  I_ext : ∀ e c v, promises s !! e = Some c → kind_of (p_origin c) = KExternal →
            p_state c = Fulfilled v → EFulfilled e ∈ trace s;
  I_link : ∀ a c i r p, promises s !! a = Some c → RThen (KParse i r p) ∈ p_reactions c →
             ∃ es w, p_origin c = AllOf es w
                     ∧ ∀ k e, EMutate p k e ∈ trace s → e ∈ w ∨ EFulfilled e ∈ trace s;
  I_ready : ∀ i r p v, JThen (KParse i r p) (Some v) ∈ jobs s →
              ∀ k e, EMutate p k e ∈ trace s → EFulfilled e ∈ trace s;
  I_ordered : ordered (trace s);
  I_once : ∀ p, count_reg p s + count_job p s + parse_count p s ≤ 1;
  I_done : ∀ p, started p s → fulfilled s p → parsed p s;
}.

(** What every step keeps of the promises and the trace. *)
Record extends (s s' : state) : Prop := {
  ext_length : length (promises s) ≤ length (promises s');
  ext_kind : ∀ q κ, cell_kind s q = Some κ → cell_kind s' q = Some κ;
  ext_fulfilled : ∀ q, fulfilled s q → fulfilled s' q;
  ext_rejected : ∀ q, rejected s q → rejected s' q;
  ext_trace : ∀ ev, ev ∈ trace s → ev ∈ trace s';
  ext_started : ∀ q, started q s' → started q s ∨ length (promises s) ≤ q;
}.

(** What every step but a start, an invalidation or a new closure keeps of
    the caches and the records. *)
Record calm (s s' : state) : Prop := {
  calm_cache : astPromiseCache s' = astPromiseCache s;
  calm_instances : instances s' = instances s;
  calm_ids : ∀ r, node_id (the_node s' r) = node_id (the_node s r);
  calm_starts : ∀ p id, EStart p id ∈ trace s' → EStart p id ∈ trace s;
}.

(** A step that leaves the cache entry of [id], when there is one, and
    starts no pipeline for [id]. *)
Definition keeps (id : string) (s s' : state) : Prop :=
  ∀ p, astPromiseCache s !! id = Some p →
       astPromiseCache s' !! id = Some p
       ∧ ∀ p', EStart p' id ∈ trace s' → EStart p' id ∈ trace s.

(** [a] is the invalidation hook called for a MarkdownRemark record [id]. *)
Definition invalidates (id : string) (a : action) : Prop :=
  ∃ n, a = OnNodeCreate n ∧ node_type n = "MarkdownRemark" ∧ node_id n = id.

(** Events that no clause of the invariant reads. *)
Definition benign (ev : event) : Prop :=
  match ev with
  | EStart _ _ | EMutate _ _ _ | EParse _ _ _ | EFulfilled _ => False
  | _ => True
  end.

(** Settling a pending promise: its reactions become jobs; [b] says whether
    the fulfilment is logged, as it is for a plugin's promise. *)
Definition settled (q : pid) (o : option value) (rxs : list reaction)
    (org : origin) (b : bool) (s : state) : state :=
  set_trace (λ t, t ++ if b then [EFulfilled q] else [])
    (set_jobs (λ js, js ++ (job_of q o <$> rxs))
       (set_promises <[q := Promise (settled_state o) [] org]> s)).

(** A step that logs nothing and touches no parse callback. *)
Record tidy (s s' : state) : Prop := {
  tidy_trace : trace s' = trace s;
  tidy_cache : astPromiseCache s' = astPromiseCache s;
  tidy_reg : ∀ p, count_reg p s' = count_reg p s;
  tidy_job : ∀ p, count_job p s' = count_job p s;
}.

(** a promise that has not settled *)
Definition pending (s : state) (q : pid) : Prop :=
  ∃ c, promises s !! q = Some c ∧ p_state c = Pending.

(** ** Sample runs *)

(** a plugin with [mutateSource] only: it appends "!" to the source during
    the call and "?" by the time its promise fulfils *)
Definition append_marks : mutator :=
  Mutator (λ src, src +:+ "!") (λ src, src +:+ "?").

Definition mutate_only : plugin := Plugin (Some append_marks) None.

(** one record and one closure with that plugin *)
Definition one_record : list action :=
  [NewNode sample_node; ExtendNodeType "MarkdownRemark" [mutate_only]].

(** the plugin's promise (promise 1) fulfils and the queue is drained *)
Definition plugin_fulfils : list action :=
  [Fulfil 1; RunJob; RunJob; RunJob; RunJob].

(** the plugin's promise rejects, the queue is drained, and a second query
    asks for the excerpt *)
Definition plugin_rejects : list action :=
  one_record
  ++ [ResolveExcerpt 0 0 140%Z; Reject 1; RunJob; RunJob; RunJob;
      ResolveExcerpt 0 0 140%Z; RunJob; RunJob].

(** two closures without plugins, each asked for the HTML of the record *)
Definition two_closures : list action :=
  [NewNode sample_node; ExtendNodeType "MarkdownRemark" [];
   ExtendNodeType "MarkdownRemark" []].

(** a plugin with the annotation capability only, which leaves the tree as
    it is *)
Definition annotate_only : plugin :=
  Plugin None (Some (Annotator (λ t, t) (λ t, t))).

(** its promise (promise 4) rejects once the source is parsed, the queue is
    drained, and a second query asks for the excerpt *)
Definition annotation_rejects : list action :=
  [NewNode sample_node; ExtendNodeType "MarkdownRemark" [annotate_only];
   ResolveExcerpt 0 0 140%Z; RunJob; RunJob; Reject 4; RunJob; RunJob; RunJob;
   ResolveExcerpt 0 0 140%Z; RunJob; RunJob].

(** A step that takes no entry out of the HTML cache of any closure. *)
Definition html_kept (s s' : state) : Prop :=
  ∀ i id q, the_html_cache s i !! id = Some q → the_html_cache s' i !! id = Some q.

(** The source after the synchronous part of every [mutateSource] call, the
    plugins taken in the order of the configuration. *)
Definition mutate_now (pls : list plugin) (src : string) : string :=
  foldl (λ src pl, from_option (λ m, mut_now m src) src (mutateSource pl)) src pls.

(** The promise a call of [mutateSource], or the [Promise.resolve()] in its
    place, returns for a plugin. *)
Definition mutate_cell (r : ref) (pl : plugin) : promise :=
  match mutateSource pl with
  | Some m => Promise Pending [] (External (OnSource r (mut_later m)))
  | None => Promise (Fulfilled VUndefined) [] Resolved
  end.

(** The calls of [mutateSource] in a trace: plugin [k] returned promise [e]. *)
Fixpoint mutate_events (p : pid) (k : nat) (e : pid) (pls : list plugin) : list event :=
  match pls with
  | [] => []
  | pl :: pls' =>
      (if mutateSource pl is Some _ then [EMutate p k e] else [])
        ++ mutate_events p (S k) (S e) pls'
  end.

(** Promises below [n] keep their state and origin (their reactions may
    change). *)
Definition same_cells (n : nat) (s s' : state) : Prop :=
  ∀ q c, q < n → promises s !! q = Some c →
    ∃ c', promises s' !! q = Some c' ∧ p_state c' = p_state c
          ∧ p_origin c' = p_origin c.

(** The records, the trees and the trace are the same. *)
Definition same_heap (s s' : state) : Prop :=
  objects s' = objects s ∧ trees s' = trees s ∧ trace s' = trace s.

(** one record, parsed: the plugin's promise has fulfilled and the queue is
    drained *)
Definition parsed_record : list action :=
  one_record ++ [GetAST 0 0] ++ plugin_fulfils.

(** ** What the promises carry

    The promises of [getAST] are those made by an executor and started as a
    pipeline, the promises of [getHTML] the other ones made by an executor,
    the promises of [getHeadings] those of an [async function]. *)

Definition has_tree (s : state) (n : ref) : Prop := is_Some (the_tree s n).
Definition has_html (s : state) (n : ref) : Prop :=
  is_Some (node_html (the_node s n)).
Definition has_headings (s : state) (n : ref) : Prop :=
  is_Some (node_headings (the_node s n)).

Definition is_ast (s : state) (q : pid) : Prop :=
  cell_kind s q = Some KExecutor ∧ started q s.
Definition is_html (s : state) (q : pid) : Prop :=
  cell_kind s q = Some KExecutor ∧ ¬ started q s.
Definition is_hd (s : state) (q : pid) : Prop := cell_kind s q = Some KAsyncFn.

Definition carries (s : state) (v : value) (P : state → ref → Prop) : Prop :=
  ∃ n, v = VNode n ∧ P s n.

(** what promise [q] may be fulfilled with *)
Definition value_ok (s : state) (q : pid) (v : value) : Prop :=
  (is_ast s q → carries s v has_tree)
  ∧ (is_html s q → carries s v has_html)
  ∧ (is_hd s q → carries s v has_headings).

(** where a callback may be registered *)
Definition reg_ok (s : state) (q : pid) (k : kont) : Prop :=
  match k with
  | KParse _ r p => r < length (objects s) ∧ started p s
  | KFinish r t p => r < length (objects s) ∧ t < length (trees s) ∧ started p s
  | KSetHeadings r _ => is_ast s q ∧ r < length (objects s)
  | KRender _ | KExcerpt _ _ => is_ast s q
  | KHtmlField _ | KTimeToRead _ => is_html s q
  | KHeadingsField _ _ => is_hd s q
  end.

(** what a queued callback may be run on *)
Definition job_ok (s : state) (k : kont) (o : option value) : Prop :=
  match k with
  | KParse _ r p => r < length (objects s) ∧ started p s
  | KFinish r t p => r < length (objects s) ∧ t < length (trees s) ∧ started p s
  | KSetHeadings r _ =>
      (∃ v, o = Some v ∧ carries s v has_tree) ∧ r < length (objects s)
  | KRender _ | KExcerpt _ _ => ∃ v, o = Some v ∧ carries s v has_tree
  | KHtmlField _ | KTimeToRead _ => ∃ v, o = Some v ∧ carries s v has_html
  | KHeadingsField _ _ => ∃ v, o = Some v ∧ carries s v has_headings
  end.

Record Sound (s : state) : Prop := {
  S_reg : ∀ q c k, promises s !! q = Some c → RThen k ∈ p_reactions c → reg_ok s q k;
  S_job : ∀ k o, JThen k o ∈ jobs s → job_ok s k o;
  S_val : ∀ q c v, promises s !! q = Some c → p_state c = Fulfilled v → value_ok s q v;
  S_rej : ∀ q, rejected s q →
            cell_kind s q = Some KExternal ∨ cell_kind s q = Some KAllOf;
  S_cache : ∀ id p, astPromiseCache s !! id = Some p → started p s;
  S_html : ∀ i id q, the_html_cache s i !! id = Some q → is_html s q;
}.

(** The records and the trees only gain. *)
Record grows (s s' : state) : Prop := {
  g_objects : length (objects s) ≤ length (objects s');
  g_trees : length (trees s) ≤ length (trees s');
  g_tree : ∀ n, has_tree s n → has_tree s' n;
  g_html : ∀ n, has_html s n → has_html s' n;
  g_headings : ∀ n, has_headings s n → has_headings s' n;
}.

(** A later state: the promises and the trace extend, the records and the
    trees gain. *)
Record later (s s' : state) : Prop := {
  l_extends : extends s s';
  l_grows : grows s s';
}.

(** The tree after the synchronous part of every annotation call, the
    plugins taken in the order of the configuration. *)
Definition annotate_now (pls : list plugin) (t : tree) : tree :=
  foldl (λ t pl, from_option (λ a, ann_now a t) t (annotate pl)) t pls.

(** The promise an annotation call, or the [Promise.resolve()] in its
    place, returns for a plugin. *)
Definition annotate_cell (t : aref) (pl : plugin) : promise :=
  match annotate pl with
  | Some a => Promise Pending [] (External (OnTree t (ann_later a)))
  | None => Promise (Fulfilled VUndefined) [] Resolved
  end.

(** The annotation calls in a trace: plugin [k] returned promise [e]. *)
Fixpoint annotate_events (p : pid) (k : nat) (e : pid) (pls : list plugin) : list event :=
  match pls with
  | [] => []
  | pl :: pls' =>
      (if annotate pl is Some _ then [EAnnotate p k e] else [])
        ++ annotate_events p (S k) (S e) pls'
  end.

(** ** The second barrier: the annotation phase *)

(** In a trace in order, a pipeline resolves (lines 123-124) after it has
    parsed and after the fulfilment of every annotation promise of its
    own. *)
Definition resolved_in_order (tr : list event) : Prop :=
  ∀ t1 t2 p, tr = t1 ++ EResolve p :: t2 →
    (∃ src t, EParse p src t ∈ t1)
    ∧ ∀ k e, EAnnotate p k e ∈ tr → EFulfilled e ∈ t1.

(** Events that are neither an annotation call nor a resolve. *)
Definition plain (ev : event) : Prop :=
  match ev with
  | EAnnotate _ _ _ | EResolve _ => False
  | _ => True
  end.

(** What the machine keeps of the annotation phase: the callback of line
    122 sits on a [Promise.all] that still waits for every annotation
    promise not yet fulfilled; it is queued with a value only once they all
    are; a started pipeline's promise is fulfilled only by that callback. *)
Record Barrier (s : state) : Prop := {
  B_link : ∀ a c r t p, promises s !! a = Some c → RThen (KFinish r t p) ∈ p_reactions c →
             ∃ es w, p_origin c = AllOf es w
                     ∧ ∀ k e, EAnnotate p k e ∈ trace s → e ∈ w ∨ EFulfilled e ∈ trace s;
  B_ready : ∀ r t p v, JThen (KFinish r t p) (Some v) ∈ jobs s →
              ∀ k e, EAnnotate p k e ∈ trace s → EFulfilled e ∈ trace s;
  B_ordered : resolved_in_order (trace s);
  B_annot : ∀ p k e, EAnnotate p k e ∈ trace s →
              parsed p s ∧ cell_kind s e = Some KExternal;
  B_done : ∀ p c v, promises s !! p = Some c → p_origin c = Executor →
             p_state c = Fulfilled v → started p s → EResolve p ∈ trace s;
}.

(** the promise of the annotation-only plugin (promise 3) fulfils once the
    source is parsed, and the queue is drained *)
Definition annotation_fulfils : list action :=
  [NewNode sample_node; ExtendNodeType "MarkdownRemark" [annotate_only];
   GetAST 0 0; RunJob; RunJob; Fulfil 3; RunJob; RunJob].

(** * Properties *)

(** ** Characters, [prune] and its cut point *)

Lemma space_has_no_case c : is_space c = true → has_case c = false.
Proof. destruct c as [[] [] [] [] [] [] [] []]; vm_compute; congruence. Qed.

Lemma word_not_space c : is_word c = true → is_space c = false.
Proof. destruct c as [[] [] [] [] [] [] [] []]; vm_compute; congruence. Qed.

Lemma case_not_terminator c : has_case c = true → is_line_terminator c = false.
Proof. destruct c as [[] [] [] [] [] [] [] []]; vm_compute; congruence. Qed.

Lemma tmpl_space c : is_space (tmpl c) = negb (has_case c).
Proof. unfold tmpl. destruct (has_case c); reflexivity. Qed.

Lemma tmpl_word c : is_word (tmpl c) = has_case c.
Proof. unfold tmpl. destruct (has_case c); reflexivity. Qed.

Lemma drop_while_split {A} (f : A → bool) (l : list A) :
  ∃ pre, l = pre ++ drop_while f l ∧ forallb f pre = true.
Proof.
  induction l as [|x l IH]; simpl.
  - exists []. done.
  - destruct (f x) eqn:E.
    + destruct IH as (pre & Hl & Hp). exists (x :: pre). simpl. rewrite E, Hp. split; [congruence|done].
    + exists []. done.
Qed.

Lemma drop_while_head {A} (f : A → bool) (l : list A) x rest :
  drop_while f l = x :: rest → f x = false.
Proof.
  induction l as [|y l IH]; simpl; [done|].
  destruct (f y) eqn:E; [done|]. intros [= -> ->]. done.
Qed.

Lemma drop_while_length {A} (f : A → bool) (l : list A) :
  length (drop_while f l) ≤ length l.
Proof. induction l; simpl; [lia|]. destruct (f a); simpl; lia. Qed.

Lemma template_of_length l : length (template_of l) = length l.
Proof. induction l; simpl; congruence. Qed.

Lemma template_of_lookup l i :
  template_of l !! i =
  (λ c, if negb (is_line_terminator c) && lookahead (drop (S i) l) then tmpl c else c) <$> l !! i.
Proof.
  revert i. induction l as [|c l IH]; intros [|i]; simpl; done.
Qed.

Lemma lookahead_short rest : length rest ≤ 1 → lookahead rest = true.
Proof.
  destruct rest as [|x [|y rest]]; simpl; intros Hl.
  - done.
  - unfold lookahead. simpl. destruct (is_word x) eqn:E; simpl; rewrite ?E; done.
  - lia.
Qed.

(** a space in the template stands over a caseless character *)
Lemma template_space l i c t :
  l !! i = Some c → template_of l !! i = Some t → is_space t = true → has_case c = false.
Proof.
  intros Hc. rewrite template_of_lookup, Hc. simpl. intros [= <-].
  destruct (_ && _).
  - rewrite tmpl_space. by destruct (has_case c).
  - apply space_has_no_case.
Qed.

(** over the last two characters a letter shows as a word character *)
Lemma template_tail_letter l i c :
  l !! i = Some c → length l ≤ i + 2 → has_case c = true →
  ∃ t, template_of l !! i = Some t ∧ is_word t = true.
Proof.
  intros Hc Hlen Hcase. rewrite template_of_lookup, Hc. simpl. eexists. split; [done|].
  rewrite case_not_terminator by done. rewrite lookahead_short.
  - simpl. by rewrite tmpl_word.
  - rewrite length_drop. lia.
Qed.

Lemma rtrim_split t : ∃ ws, t = rtrim t ++ ws ∧ forallb is_space ws = true.
Proof.
  unfold rtrim. destruct (drop_while_split is_space (rev t)) as (pre & Ht & Hp).
  exists (rev pre). split.
  - rewrite <- rev_app_distr, <- Ht. by rewrite rev_involutive.
  - rewrite forallb_forall in *. intros x Hx. apply Hp. by apply in_rev.
Qed.

Lemma drop_last_token_split t c :
  last t = Some c → is_space c = false →
  ∃ sp tok, t = drop_last_token t ++ sp ++ tok ∧ forallb is_space sp = true
            ∧ tok ≠ [] ∧ (sp = [] → drop_last_token t = []).
Proof.
  intros Hl Hc. unfold drop_last_token.
  assert (∃ r, rev t = c :: r) as [r Hr].
  { destruct t as [|x t] using rev_ind; [done|]. rewrite last_snoc in Hl. injection Hl as ->.
    rewrite rev_app_distr. simpl. eauto. }
  rewrite Hr, Hc. rewrite <- Hr.
  destruct (drop_while_split (λ c, negb (is_space c)) (rev t)) as (tok & Ht & _).
  destruct (drop_while_split is_space (drop_while (λ c, negb (is_space c)) (rev t))) as (sp & Hs & Hsp).
  exists (rev sp), (rev tok). split; [|split; [|split]].
  - rewrite <- !rev_app_distr. rewrite <- app_assoc, <- Hs, <- Ht. by rewrite rev_involutive.
  - rewrite forallb_forall in *. intros x Hx. apply Hsp. by apply in_rev.
  - intros Hn. apply (f_equal (@rev _)) in Hn. rewrite rev_involutive in Hn. simpl in Hn. subst tok.
    simpl in Ht. rewrite Hr in Ht. simpl in Ht. rewrite Hc in Ht. simpl in Ht.
    apply (f_equal length) in Ht. simpl in Ht. pose proof (drop_while_length (λ c, negb (is_space c)) r). lia.
  - intros Hn. apply (f_equal (@rev _)) in Hn. rewrite rev_involutive in Hn. simpl in Hn. subst sp.
    simpl in Hs. destruct (drop_while (λ c, negb (is_space c)) (rev t)) as [|x X] eqn:EX; [done|].
    pose proof (drop_while_head _ _ _ _ EX) as Hx. apply negb_false_iff in Hx.
    simpl in Hs. rewrite Hx in Hs. apply (f_equal length) in Hs. simpl in Hs.
    pose proof (drop_while_length is_space X). lia.
Qed.

Lemma ends_in_word_pair_eq t m a b :
  length t = S (S m) → t !! m = Some a → t !! S m = Some b →
  ends_in_word_pair t = is_word a && is_word b.
Proof.
  intros Hlen Ha Hb. unfold ends_in_word_pair.
  replace (length t - 2) with m by lia.
  rewrite (drop_S _ _ _ Ha), (drop_S _ _ _ Hb).
  rewrite drop_ge by lia. done.
Qed.

Lemma ends_in_word_pair_last t :
  ends_in_word_pair t = true → ∃ c, last t = Some c ∧ is_word c = true.
Proof.
  unfold ends_in_word_pair. intros H.
  destruct (drop (length t - 2) t) as [|a [|b [|? ?]]] eqn:E; try done.
  apply andb_true_iff in H as [_ Hb]. exists b. split; [|done].
  rewrite <- (take_drop (length t - 2) t), E. by rewrite last_app.
Qed.

Lemma slice0_nonneg {A} (l : list A) (e : Z) :
  (0 ≤ e)%Z → slice0 l e = take (Z.to_nat e) l.
Proof. intros He. unfold slice0. destruct (Z.ltb_spec e 0); [lia|done]. Qed.

Lemma prune_template_spec str n :
  (0 ≤ n)%Z → Z.to_nat n < length str →
  length (prune_template str n) ≤ Z.to_nat n
  ∧ ¬ cut_inside_word str (length (prune_template str n)).
Proof.
  intros Hn Hlen. unfold prune_template.
  rewrite slice0_nonneg by lia.
  replace (Z.to_nat (n + 1)) with (S (Z.to_nat n)) by lia.
  set (N := Z.to_nat n) in *. set (sl := take (S N) str).
  assert (length sl = S N) as Hsl by (unfold sl; rewrite length_take; lia).
  assert (∀ i, i ≤ N → sl !! i = str !! i) as Hsli.
  { intros i Hi. unfold sl. apply lookup_take_lt. lia. }
  set (T := template_of sl).
  assert (length T = S N) as HT by (unfold T; by rewrite template_of_length).
  assert (∀ k b t, k ≤ N → str !! k = Some b → T !! k = Some t →
                   is_space t = true → has_case b = false) as Hspace.
  { intros k b t Hk Hb Ht. eapply template_space; [|done]. by rewrite Hsli. }
  destruct (ends_in_word_pair T) eqn:Hpair.
  - destruct (ends_in_word_pair_last _ Hpair) as (c & Hlast & Hc).
    destruct (drop_last_token_split T c Hlast (word_not_space _ Hc))
      as (sp & tok & Heq & Hsp & Htok & Hnil).
    remember (drop_last_token T) as T' eqn:ET'.
    assert (length T' + length sp + length tok = S N) as Hl.
    { pose proof (f_equal length Heq) as Hl'. rewrite !length_app in Hl'. lia. }
    assert (0 < length tok) by (destruct tok; simpl; [done|lia]).
    split; [lia|].
    intros (i & a & b & Hk & Ha & Hb & Hca & Hcb).
    destruct sp as [|x sp]; [rewrite Hnil in Hk by done; done|].
    simpl in Hsp. apply andb_true_iff in Hsp as [Hx _].
    assert (T !! length T' = Some x) as HTk.
    { rewrite Heq. rewrite lookup_app_r by lia. by rewrite Nat.sub_diag. }
    simpl in Hl. assert (length T' ≤ N) as HkN by lia.
    rewrite (Hspace _ _ _ HkN Hb HTk Hx) in Hcb. done.
  - replace (length T - 1) with N by lia.
    destruct (rtrim_split (take N T)) as (ws & Heq & Hws).
    remember (rtrim (take N T)) as T' eqn:ET'.
    assert (length T' + length ws = N) as Hl.
    { rewrite <- length_app, <- Heq, length_take. lia. }
    split; [lia|].
    intros (i & a & b & Hk & Ha & Hb & Hca & Hcb).
    destruct ws as [|x ws].
    + simpl in Hl. rewrite Nat.add_0_r in Hl. rewrite Hl in *. subst N.
      rename Hk into HN. 
      destruct (template_tail_letter sl i a) as (t1 & Ht1 & Hw1); [rewrite Hsli by lia; done|lia|done|].
      destruct (template_tail_letter sl (S i) b) as (t2 & Ht2 & Hw2); [rewrite Hsli by lia; by rewrite <- HN|lia|done|].
      rewrite (ends_in_word_pair_eq T i t1 t2) in Hpair; [|lia|done|done].
      rewrite Hw1, Hw2 in Hpair. done.
    + simpl in Hws. apply andb_true_iff in Hws as [Hx _]. simpl in Hl.
      assert (T !! length T' = Some x) as HTk.
      { rewrite <- (lookup_take_lt T N) by lia. rewrite Heq at 1.
        rewrite lookup_app_r by lia. by rewrite Nat.sub_diag. }
      assert (length T' ≤ N) as HkN by lia.
      rewrite (Hspace _ _ _ HkN Hb HTk Hx) in Hcb. done.
Qed.

Lemma to_int32_id n : (- 2 ^ 31 ≤ n < 2 ^ 31)%Z → to_int32 n = n.
Proof. intros Hn. unfold to_int32. rewrite Z.mod_small; lia. Qed.

Lemma prune_chars_spec str n :
  (0 ≤ n < 2 ^ 31)%Z →
  (prune_chars str n = str ∧ length str ≤ Z.to_nat n + 2)
  ∨ ∃ k, k ≤ Z.to_nat n ∧ k + 3 ≤ length str
         ∧ prune_chars str n = take k str ++ pruneStr
         ∧ ¬ cut_inside_word str k.
Proof.
  intros Hn. unfold prune_chars. rewrite to_int32_id by lia.
  destruct (Z.leb_spec (Z.of_nat (length str)) n) as [Hle|Hgt]; [left; split; [done|lia]|].
  destruct (prune_template_spec str n) as [Hk Hcut]; [lia|lia|].
  rewrite length_app. change (length pruneStr) with 3.
  destruct (Nat.ltb_spec (length str) (length (prune_template str n) + 3)).
  - left. split; [done|lia].
  - right. exists (length (prune_template str n)). done.
Qed.

Lemma string_of_list_ascii_app l1 l2 :
  string_of_list_ascii (l1 ++ l2) = string_of_list_ascii l1 +:+ string_of_list_ascii l2.
Proof. induction l1 as [|a l1 IH]; simpl; [done|]. by rewrite IH. Qed.

Lemma string_of_list_ascii_length l : String.length (string_of_list_ascii l) = length l.
Proof. induction l; simpl; congruence. Qed.

Lemma list_ascii_of_string_length s : length (list_ascii_of_string s) = String.length s.
Proof. induction s; simpl; congruence. Qed.

Lemma string_of_list_ascii_take k s :
  string_of_list_ascii (take k (list_ascii_of_string s)) = substring 0 k s.
Proof. revert k. induction s; intros [|k]; simpl; try done. by rewrite IHs. Qed.

(** [prune] on strings *)
Lemma prune_spec str n :
  (0 ≤ n < 2 ^ 31)%Z →
  (prune str n = str ∧ String.length str ≤ Z.to_nat n + 2)
  ∨ ∃ k, k ≤ Z.to_nat n ∧ k + 3 ≤ String.length str
         ∧ prune str n = substring 0 k str +:+ "..."
         ∧ ¬ cut_inside_word (list_ascii_of_string str) k.
Proof.
  intros Hn. unfold prune.
  destruct (prune_chars_spec (list_ascii_of_string str) n Hn) as [[-> Hl]|(k & Hk & Hl & -> & Hcut)].
  - left. rewrite string_of_list_ascii_of_string. by rewrite <- list_ascii_of_string_length.
  - right. exists k. rewrite list_ascii_of_string_length in Hl.
    rewrite string_of_list_ascii_app, string_of_list_ascii_take. done.
Qed.

(** ** Trees in document order *)

Lemma tree_ind' (P : tree → Prop) :
  (∀ ty v d cs, Forall P cs → P (Node ty v d cs)) → ∀ t, P t.
Proof.
  intros step. fix IH 1. intros [ty v d cs]. apply step.
  induction cs as [|c cs IHcs]; constructor; [apply IH|apply IHcs].
Qed.

Lemma select_preorder (t : tree) (ty : string) :
  select t ty = filter (λ n, tree_type n = ty) (preorder t).
Proof.
  induction t as [ty' v d cs IH] using tree_ind'. simpl.
  assert (flat_map (λ c, select c ty) cs
          = filter (λ n, tree_type n = ty) (flat_map preorder cs)) as ->.
  { induction IH as [|c cs Hc _ IHcs]; simpl; [done|].
    by rewrite filter_app, Hc, IHcs. }
  rewrite filter_cons. simpl. by destruct (decide (ty' = ty)).
Qed.



Lemma Math_round_div_nearest (n : Z) :
  (2 * Z.abs (avgWPM * Math_round_div n avgWPM - n) < avgWPM)%Z.
Proof.
  unfold Math_round_div, avgWPM.
  pose proof (Z.div_mod (2 * n + 265) (2 * 265) ltac:(lia)) as Hdm.
  pose proof (Z.mod_pos_bound (2 * n + 265) (2 * 265) ltac:(lia)) as Hm.
  lia.
Qed.

Lemma prune_length str n :
  (0 ≤ n < 2 ^ 31)%Z → String.length (prune str n) ≤ Z.to_nat n + 3.
Proof.
  intros Hn. unfold prune. rewrite string_of_list_ascii_length.
  destruct (prune_chars_spec (list_ascii_of_string str) n Hn)
    as [[-> Hl]|(k & Hk & Hl & -> & _)]; [lia|].
  rewrite length_app, length_take. change (length pruneStr) with 3. lia.
Qed.

Lemma prune_short str n :
  (0 ≤ n < 2 ^ 31)%Z → String.length str ≤ Z.to_nat n → prune str n = str.
Proof.
  intros Hn Hl. unfold prune, prune_chars. rewrite to_int32_id by lia.
  rewrite list_ascii_of_string_length.
  destruct (Z.leb_spec (Z.of_nat (String.length str)) n); [|lia].
  apply string_of_list_ascii_of_string.
Qed.

(** ** The resolvers *)


Example headings_depth_2 :
  headings_of sample_headings
  = [Heading (Some "A") (Some 1%Z); Heading (Some "B") (Some 2%Z);
     Heading (Some "C") (Some 2%Z); Heading (Some "D") (Some 3%Z)]
  ∧ filter_headings (Some 2%Z) (headings_of sample_headings)
    = [Heading (Some "B") (Some 2%Z); Heading (Some "C") (Some 2%Z)].
Proof. split; reflexivity. Qed.

(** C6, as the code has it: the excerpt is the text nodes of the tree in
    document order joined by single spaces, returned whole when it has at
    most [pruneLength] characters, and otherwise either whole or cut to at
    most [pruneLength] characters, never between two letters, and followed
    by ["..."]: at most [pruneLength + 3] characters in all. *)
Theorem excerpt_within_pruneLength_plus_3 (ast : tree) (pruneLength : Z) :
  (0 ≤ pruneLength < 2 ^ 31)%Z →
  let text :=
    join " " (tree_value <$> filter (λ n, tree_type n = "text") (preorder ast)) in
  String.length (excerpt ast pruneLength) ≤ Z.to_nat pruneLength + 3
  ∧ (String.length text ≤ Z.to_nat pruneLength → excerpt ast pruneLength = text)
  ∧ (excerpt ast pruneLength = text
     ∨ ∃ k, k ≤ Z.to_nat pruneLength
          ∧ excerpt ast pruneLength = substring 0 k text +:+ "..."
          ∧ ¬ cut_inside_word (list_ascii_of_string text) k).
Proof.
  intros Hn text. unfold excerpt, visit. rewrite select_preorder. fold text.
  split; [by apply prune_length|]. split; [by apply prune_short|].
  destruct (prune_spec text pruneLength Hn) as [[-> _]|(k & Hk & _ & -> & Hcut)].
  - by left.
  - right. by exists k.
Qed.

Lemma excerpt_within_pruneLength_plus_3_witness :
  (0 ≤ 5 < 2 ^ 31)%Z
  ∧ String.length (excerpt (sample_parse "Hello, world") 5) ≤ Z.to_nat 5 + 3.
Proof.
  split; [lia|].
  apply (excerpt_within_pruneLength_plus_3 (sample_parse "Hello, world") 5). lia.
Defined.

(** C6 as stated fails: with [pruneLength = 5] the excerpt of "Hello, world"
    is "Hello...", eight characters. *)
Lemma excerpt_exceeds_pruneLength :
  excerpt (sample_parse "Hello, world") 5 = "Hello..."
  ∧ ¬ String.length (excerpt (sample_parse "Hello, world") 5) ≤ 5.
Proof. split; [reflexivity|]. vm_compute. lia. Qed.

Lemma timeToRead_at_least_1 `{Libraries} (html : string) : (1 ≤ timeToRead html)%Z.
Proof.
  unfold timeToRead.
  set (n := Z.of_nat (length (words (sanitizeHTML html sanitize_options)))).
  assert (0 ≤ Math_round_div n avgWPM)%Z.
  { unfold Math_round_div, avgWPM. apply Z.div_pos; lia. }
  destruct (Z.eqb_spec (Math_round_div n avgWPM) 0); lia.
Qed.

(** C5 at a page of 133 one-word paragraphs: the option of line 243 is not
    one sanitize-html knows, the [<p>] tags stay, and their names are counted
    as words: 399 words and two minutes, where the 133 words of the text
    make one minute. *)
Theorem timeToRead_counts_tag_names :
  let html := times 133 "<p>w</p> " in
  option_named "allowedTags" sanitize_options = None
  ∧ length (sample_words (sample_sanitize html sanitize_options)) = 399
  ∧ @timeToRead sample_libraries html = 2%Z
  ∧ length (sample_words (sample_sanitize html [("allowedTags", [])])) = 133
  ∧ Math_round_div 133 avgWPM = 1%Z.
Proof. vm_compute. done. Qed.

(** ** The invalidation hook *)

(** C4: for a MarkdownRemark record the hook deletes the entry of the
    record's id from the AST cache and nothing else, does nothing when there
    is no such entry or when it is called again, and leaves every HTML cache
    as it was. *)
Theorem onNodeCreate_deletes_ast_entry (node : mnode) (s : state) :
  node_type node = "MarkdownRemark" →
  let s' := (onNodeCreate node s).2 in
  astPromiseCache s' !! node_id node = None
  ∧ (∀ id, id ≠ node_id node → astPromiseCache s' !! id = astPromiseCache s !! id)
  ∧ (astPromiseCache s !! node_id node = None → s' = s)
  ∧ (onNodeCreate node s').2 = s'
  ∧ instances s' = instances s
  ∧ (∀ i, the_html_cache s' i = the_html_cache s i).
Proof.
  intros Hty. unfold onNodeCreate. rewrite decide_True by done. simpl.
  split; [apply lookup_delete_eq|].
  split; [intros id Hid; by apply lookup_delete_ne|].
  split; [|split; [|done]].
  - intros Hnone. destruct s. unfold set_cache. simpl in *. f_equal. by apply delete_id.
  - unfold set_cache. simpl. f_equal. apply delete_id, lookup_delete_eq.
Qed.

(** C10: for a record of any other type the hook changes nothing. *)
Theorem onNodeCreate_other_type (node : mnode) (s : state) :
  node_type node ≠ "MarkdownRemark" →
  (onNodeCreate node s).2 = s
  ∧ ∀ id, astPromiseCache (onNodeCreate node s).2 !! id = astPromiseCache s !! id.
Proof.
  intros Hty. unfold onNodeCreate. rewrite decide_False by done. done.
Qed.

Lemma onNodeCreate_deletes_ast_entry_witness :
  node_type sample_node = "MarkdownRemark"
  ∧ astPromiseCache
      (onNodeCreate sample_node (set_cache <["a.md" := 0]> init)).2 !! "a.md" = None.
Proof.
  split; [reflexivity|].
  exact (proj1 (onNodeCreate_deletes_ast_entry sample_node _ eq_refl)).
Defined.

Lemma onNodeCreate_other_type_witness :
  node_type other_node ≠ "MarkdownRemark"
  ∧ (onNodeCreate other_node (set_cache <["a.md" := 0]> init)).2
    = set_cache <["a.md" := 0]> init.
Proof.
  assert (node_type other_node ≠ "MarkdownRemark") as Hty by discriminate.
  split; [exact Hty|].
  exact (proj1 (onNodeCreate_other_type other_node _ Hty)).
Defined.

(** ** The machine: what a step keeps *)

Lemma cell_kind_Some s q κ :
  cell_kind s q = Some κ ↔ ∃ c, promises s !! q = Some c ∧ kind_of (p_origin c) = κ.
Proof.
  unfold cell_kind. destruct (promises s !! q) as [c|]; simpl; split.
  - intros [= <-]. eauto.
  - intros (c' & [= <-] & <-). done.
  - done.
  - intros (c' & ? & _). done.
Qed.

Lemma cell_kind_lt s q κ : cell_kind s q = Some κ → q < length (promises s).
Proof. rewrite cell_kind_Some. intros (c & Hc & _). by eapply lookup_lt_Some. Qed.

Lemma fulfilled_lt s q : fulfilled s q → q < length (promises s).
Proof. intros (c & v & Hc & _). by eapply lookup_lt_Some. Qed.

Lemma fulfilled_not_rejected s q : fulfilled s q → rejected s q → False.
Proof. intros (c & v & Hc & Hv) (c' & Hc' & Hr). congruence. Qed.

Lemma extends_refl s : extends s s.
Proof. split; auto. Qed.

Lemma extends_trans s1 s2 s3 : extends s1 s2 → extends s2 s3 → extends s1 s3.
Proof.
  intros [L1 K1 F1 R1 T1 S1] [L2 K2 F2 R2 T2 S2]. split; auto; [lia|].
  intros q Hq. destruct (S2 q Hq) as [Hq2|Hq2]; [|right; lia]. apply S1, Hq2.
Qed.

(** a state with the same promise cells and the same trace *)
Lemma extends_same s s' :
  promises s' = promises s → trace s' = trace s → extends s s'.
Proof.
  intros Hp Ht. split; unfold cell_kind, fulfilled, rejected, started;
    rewrite ?Hp, ?Ht; auto.
Qed.

Lemma extends_alloc s c : extends s (set_promises (λ h, h ++ [c]) s).
Proof.
  split; unfold cell_kind, fulfilled, rejected, started; simpl.
  - rewrite length_app. lia.
  - intros q κ Hq. destruct (promises s !! q) as [c'|] eqn:E; [|done].
    by rewrite (lookup_app_l_Some _ _ _ _ E).
  - intros q (c' & v & Hc & Hv). exists c', v. split; [|done]. by apply lookup_app_l_Some.
  - intros q (c' & Hc & Hv). exists c'. split; [|done]. by apply lookup_app_l_Some.
  - auto.
  - auto.
Qed.

Lemma extends_log s ev :
  (∀ p id, ev ≠ EStart p id) → extends s (set_trace (λ t, t ++ [ev]) s).
Proof.
  intros Hev. split; unfold cell_kind, fulfilled, rejected, started; simpl; auto.
  - intros ev' Hin. apply elem_of_app. by left.
  - intros q [id Hin]. left. exists id.
    apply elem_of_app in Hin as [Hin|Hin]; [done|].
    apply list_elem_of_singleton in Hin. by destruct (Hev q id).
Qed.

Lemma extends_start s c id :
  extends s (set_trace (λ t, t ++ [EStart (length (promises s)) id])
               (set_promises (λ h, h ++ [c]) s)).
Proof.
  split; unfold cell_kind, fulfilled, rejected, started; simpl.
  - rewrite length_app. lia.
  - intros q κ Hq. destruct (promises s !! q) as [c'|] eqn:E; [|done].
    by rewrite (lookup_app_l_Some _ _ _ _ E).
  - intros q (c' & v & Hc & Hv). exists c', v. split; [|done]. by apply lookup_app_l_Some.
  - intros q (c' & Hc & Hv). exists c'. split; [|done]. by apply lookup_app_l_Some.
  - intros ev' Hin. apply elem_of_app. by left.
  - intros q [id' Hin].
    apply elem_of_app in Hin as [Hin|Hin]; [left; by exists id'|].
    apply list_elem_of_singleton in Hin. injection Hin as -> _. right. lia.
Qed.

(** a cell updated in place: its origin keeps its kind, a settled state stays *)
Lemma extends_update s q c c' :
  promises s !! q = Some c →
  kind_of (p_origin c') = kind_of (p_origin c) →
  (p_state c ≠ Pending → p_state c' = p_state c) →
  extends s (set_promises <[q := c']> s).
Proof.
  intros Hc Hk Hst.
  assert (q < length (promises s)) as Hlt by by eapply lookup_lt_Some.
  split; unfold cell_kind, fulfilled, rejected, started; simpl; auto.
  - by rewrite length_insert.
  - intros q' κ. destruct (decide (q' = q)) as [->|Hne].
    + rewrite Hc, list_lookup_insert_eq by done. simpl. congruence.
    + by rewrite list_lookup_insert_ne.
  - intros q' (c0 & v & Hc0 & Hv). destruct (decide (q' = q)) as [->|Hne].
    + exists c', v. rewrite list_lookup_insert_eq by done. split; [done|].
      assert (c0 = c) as -> by congruence. rewrite Hst; [done|congruence].
    + exists c0, v. by rewrite list_lookup_insert_ne.
  - intros q' (c0 & Hc0 & Hv). destruct (decide (q' = q)) as [->|Hne].
    + exists c'. rewrite list_lookup_insert_eq by done. split; [done|].
      assert (c0 = c) as -> by congruence. rewrite Hst; [done|congruence].
    + exists c0. by rewrite list_lookup_insert_ne.
Qed.

Lemma parsed_mono s s' p : extends s s' → parsed p s → parsed p s'.
Proof. intros Hext (src & t & Hin). exists src, t. by apply (ext_trace _ _ Hext). Qed.

Lemma not_started_mono s s' q :
  extends s s' → q < length (promises s) → ¬ started q s → ¬ started q s'.
Proof. intros Hext Hlt Hns Hs. destruct (ext_started _ _ Hext q Hs); [done|lia]. Qed.

Lemma kont_wf_mono s s' k : extends s s' → kont_wf s k → kont_wf s' k.
Proof.
  intros Hext. destruct k; simpl; try apply (ext_kind _ _ Hext).
  - intros [Hk Hp]. split; [by apply (ext_kind _ _ Hext)|by eapply parsed_mono].
  - intros [Hk Hp]. split; [by apply (ext_kind _ _ Hext)|].
    eapply not_started_mono; [done|by eapply cell_kind_lt|done].
Qed.

Lemma event_wf_mono s s' ev : extends s s' → event_wf s ev → event_wf s' ev.
Proof.
  intros Hext. destruct ev; simpl; try done; try apply (ext_kind _ _ Hext).
  - intros [H1 H2]. split; by apply (ext_kind _ _ Hext).
  - apply (ext_fulfilled _ _ Hext).
Qed.

(** ** Counting the parse callbacks *)

Lemma count_reg_alloc p s c :
  count_reg p (set_promises (λ h, h ++ [c]) s) = count_reg p s + count_in_cell p c.
Proof. unfold count_reg. simpl. rewrite sum_list_with_app. simpl. lia. Qed.

Lemma sum_list_with_insert {A} (f : A → nat) (l : list A) i x y :
  l !! i = Some x →
  sum_list_with f (<[i := y]> l) + f x = sum_list_with f l + f y.
Proof.
  revert i. induction l as [|z l IH]; intros [|i]; simpl; try done.
  - intros [= ->]. lia.
  - intros Hl. specialize (IH i Hl). lia.
Qed.

Lemma count_reg_update p s q c c' :
  promises s !! q = Some c →
  count_reg p (set_promises <[q := c']> s) + count_in_cell p c
  = count_reg p s + count_in_cell p c'.
Proof. intros Hc. unfold count_reg. simpl. by apply sum_list_with_insert. Qed.

Lemma count_in_cell_zero p c :
  count_in_cell p c = 0 ↔ ∀ i r, RThen (KParse i r p) ∉ p_reactions c.
Proof.
  unfold count_in_cell. split.
  - intros H0 i r Hin.
    assert (RThen (KParse i r p) ∈ filter (λ rx, is_parse_rx p rx = true) (p_reactions c)) as Hf.
    { apply list_elem_of_filter. split; [|done]. simpl. by rewrite bool_decide_eq_true. }
    destruct (filter _ (p_reactions c)); [by apply elem_of_nil in Hf|done].
  - intros Hno. destruct (filter _ (p_reactions c)) as [|rx l] eqn:E; [done|].
    assert (rx ∈ filter (λ rx, is_parse_rx p rx = true) (p_reactions c)) as Hf
      by (rewrite E; apply list_elem_of_here).
    apply list_elem_of_filter in Hf as [Hp Hin].
    destruct rx as [[]|]; simpl in Hp; try done.
    apply bool_decide_eq_true in Hp as ->. by destruct (Hno i r).
Qed.

Lemma count_reg_zero p s q c i r :
  count_reg p s = 0 → promises s !! q = Some c → RThen (KParse i r p) ∉ p_reactions c.
Proof.
  intros H0 Hc. apply count_in_cell_zero.
  pose proof (sum_list_with_in c (count_in_cell p) (promises s)) as Hle.
  unfold count_reg in H0. rewrite H0 in Hle.
  assert (c ∈ promises s) by (apply list_elem_of_lookup; eauto).
  specialize (Hle H). lia.
Qed.

Lemma count_job_zero p s i r o :
  count_job p s = 0 → JThen (KParse i r p) o ∉ jobs s.
Proof.
  unfold count_job. intros H0 Hin.
  assert (JThen (KParse i r p) o ∈ filter (λ j, is_parse_job p j = true) (jobs s)) as Hf.
  { apply list_elem_of_filter. split; [|done]. simpl. by rewrite bool_decide_eq_true. }
  destruct (filter _ (jobs s)); [by apply elem_of_nil in Hf|done].
Qed.

Lemma parse_count_zero p s : parse_count p s = 0 ↔ ¬ parsed p s.
Proof.
  unfold parse_count, parsed. split.
  - intros H0 (src & t & Hin).
    assert (EParse p src t ∈ filter (λ e, is_parse_of p e = true) (trace s)) as Hf.
    { apply list_elem_of_filter. split; [|done]. simpl. by rewrite bool_decide_eq_true. }
    destruct (filter _ (trace s)); [by apply elem_of_nil in Hf|done].
  - intros Hno. destruct (filter _ (trace s)) as [|ev l] eqn:E; [done|].
    assert (ev ∈ filter (λ e, is_parse_of p e = true) (trace s)) as Hf
      by (rewrite E; apply list_elem_of_here).
    apply list_elem_of_filter in Hf as [Hp Hin].
    destruct ev; simpl in Hp; try done.
    apply bool_decide_eq_true in Hp as ->. destruct Hno. eauto.
Qed.

Lemma parsed_count p s : parsed p s → 1 ≤ parse_count p s.
Proof.
  intros Hp. destruct (parse_count p s) eqn:E; [|lia].
  by apply parse_count_zero in E.
Qed.

Lemma parse_count_log p s ev :
  parse_count p (set_trace (λ t, t ++ [ev]) s)
  = parse_count p s + (if is_parse_of p ev then 1 else 0).
Proof.
  unfold parse_count. simpl. rewrite filter_app, length_app. f_equal.
  rewrite filter_cons, filter_nil. by destruct (is_parse_of p ev).
Qed.

Lemma count_job_app p s js :
  count_job p (set_jobs (λ q, q ++ js) s)
  = count_job p s + length (filter (λ j, is_parse_job p j = true) js).
Proof. unfold count_job. simpl. by rewrite filter_app, length_app. Qed.

Lemma count_job_of p q o rxs :
  length (filter (λ j, is_parse_job p j = true) (job_of q o <$> rxs))
  = length (filter (λ rx, is_parse_rx p rx = true) rxs).
Proof.
  induction rxs as [|rx rxs IH]; [done|].
  rewrite fmap_cons, !filter_cons.
  assert (is_parse_job p (job_of q o rx) = is_parse_rx p rx) as ->
    by (by destruct rx as [[]|]).
  destruct (decide _); simpl; by rewrite IH.
Qed.


Lemma sum_list_with_zero {A} (f : A → nat) (l : list A) :
  (∀ x, x ∈ l → f x = 0) → sum_list_with f l = 0.
Proof.
  induction l as [|x l IH]; simpl; [done|]. intros H.
  rewrite (H x) by apply list_elem_of_here. rewrite IH; [done|].
  intros y Hy. apply H. by apply list_elem_of_further.
Qed.

(** a promise not yet allocated has no pipeline *)
Lemma fresh_pipeline_new p s :
  Inv s → length (promises s) ≤ p → fresh_pipeline p s.
Proof.
  intros HI Hp. unfold fresh_pipeline.
  assert (count_reg p s = 0) as ->.
  { apply sum_list_with_zero. intros c Hc. apply count_in_cell_zero. intros i r Hin.
    apply list_elem_of_lookup in Hc as [q Hq].
    pose proof (I_konts _ HI _ _ _ Hq Hin) as Hwf. simpl in Hwf.
    apply cell_kind_lt in Hwf. lia. }
  assert (count_job p s = 0) as ->.
  { unfold count_job. destruct (filter _ (jobs s)) as [|j l] eqn:E; [done|].
    assert (j ∈ filter (λ j, is_parse_job p j = true) (jobs s)) as Hf
      by (rewrite E; apply list_elem_of_here).
    apply list_elem_of_filter in Hf as [Hpj Hin].
    destruct j as [[]|]; simpl in Hpj; try done.
    apply bool_decide_eq_true in Hpj as ->.
    pose proof (I_jobs _ HI _ _ Hin) as Hwf. simpl in Hwf.
    apply cell_kind_lt in Hwf. lia. }
  assert (parse_count p s = 0) as ->; [|done].
  apply parse_count_zero. intros (src & t & Hin).
  pose proof (I_events _ HI _ Hin) as Hwf. simpl in Hwf.
  apply cell_kind_lt in Hwf. lia.
Qed.

Lemma fresh_pipeline_reg p s q c i r :
  fresh_pipeline p s → promises s !! q = Some c → RThen (KParse i r p) ∉ p_reactions c.
Proof. unfold fresh_pipeline. intros H. apply count_reg_zero. lia. Qed.

Lemma fresh_pipeline_job p s i r o :
  fresh_pipeline p s → JThen (KParse i r p) o ∉ jobs s.
Proof. unfold fresh_pipeline. intros H. apply count_job_zero. lia. Qed.

Lemma fresh_pipeline_parsed p s : fresh_pipeline p s → ¬ parsed p s.
Proof. unfold fresh_pipeline. intros H. apply parse_count_zero. lia. Qed.

(** ** The order of the trace *)

Lemma ordered_snoc tr ev :
  ordered tr →
  (∀ p src t, ev = EParse p src t → ∀ k e, EMutate p k e ∈ tr → EFulfilled e ∈ tr) →
  (∀ p k e, ev = EMutate p k e → ∀ src t, EParse p src t ∉ tr) →
  ordered (tr ++ [ev]).
Proof.
  intros Hord Hparse Hmut t1 t2 p src t k e Heq Hin.
  destruct t2 as [|x t2 _] using rev_ind.
  - apply app_inj_tail in Heq as [-> ->].
    apply elem_of_app in Hin as [Hin|Hin]; [by eapply Hparse|].
    by apply list_elem_of_singleton in Hin.
  - change (t1 ++ EParse p src t :: t2 ++ [x])
      with (t1 ++ (EParse p src t :: t2) ++ [x]) in Heq.
    rewrite app_assoc in Heq. apply app_inj_tail in Heq as [-> ->].
    apply elem_of_app in Hin as [Hin|Hin]; [by eapply Hord|].
    apply list_elem_of_singleton in Hin. subst.
    destruct (Hmut p k e eq_refl src t).
    apply elem_of_app. right. apply list_elem_of_here.
Qed.

(** ** The invariant, primitive by primitive *)

(** the invariant only reads the cache, the promises, the jobs and the trace *)
Lemma Inv_core s s' :
  astPromiseCache s' = astPromiseCache s → promises s' = promises s →
  jobs s' = jobs s → trace s' = trace s → Inv s → Inv s'.
Proof.
  intros Hc Hp Hj Ht [].
  assert (∀ k, kont_wf s' k ↔ kont_wf s k) as Hk.
  { intros k. unfold kont_wf, cell_kind, parsed, started. by rewrite Hp, Ht. }
  assert (∀ ev, event_wf s' ev ↔ event_wf s ev) as He.
  { intros ev. unfold event_wf, cell_kind, fulfilled. by rewrite Hp. }
  split; unfold cell_kind, fulfilled, started, parsed, count_reg, count_job, parse_count in *;
    rewrite ?Hc, ?Hp, ?Hj, ?Ht; try setoid_rewrite Hk; try setoid_rewrite He; eauto.
Qed.

Lemma fulfilled_alloc_inv s c q :
  fulfilled (set_promises (λ h, h ++ [c]) s) q →
  fulfilled s q ∨ (q = length (promises s) ∧ ∃ v, p_state c = Fulfilled v).
Proof.
  intros (c0 & v & Hc & Hv). simpl in Hc.
  apply lookup_snoc_Some in Hc as [[_ Hc]|[-> <-]]; [left; by exists c0, v|right; eauto].
Qed.

Lemma started_lt s p : Inv s → started p s → p < length (promises s).
Proof.
  intros HI [id Hin]. pose proof (I_events _ HI _ Hin) as Hwf.
  by eapply cell_kind_lt.
Qed.

Lemma alloc_inv s c :
  Inv s → p_reactions c = [] →
  (p_state c = Pending ∨ (p_state c = Fulfilled VUndefined ∧ p_origin c = Resolved)) →
  Inv (set_promises (λ h, h ++ [c]) s).
Proof.
  intros HI Hrx Hst. pose proof (extends_alloc s c) as Hext.
  split; [simpl; idtac ..| |simpl].
  - intros q c0 k Hq Hin. apply lookup_snoc_Some in Hq as [[_ Hq]|[-> <-]].
    + eapply kont_wf_mono; [done|]. by eapply I_konts.
    + rewrite Hrx in Hin. by apply elem_of_nil in Hin.
  - intros k o Hin. eapply kont_wf_mono; [done|]. by eapply I_jobs.
  - intros a e Hin. apply (ext_fulfilled _ _ Hext). by eapply I_jall.
  - intros ev Hin. eapply event_wf_mono; [done|]. by eapply I_events.
  - intros q c0 Hq Horg. apply lookup_snoc_Some in Hq as [[_ Hq]|[-> <-]].
    + by eapply I_norej.
    + destruct Hst as [->|[-> _]]; done.
  - intros id p Hin. apply (ext_kind _ _ Hext). by eapply I_cache.
  - intros e c0 v Hq Hk Hv. apply lookup_snoc_Some in Hq as [[_ Hq]|[-> <-]].
    + by eapply I_ext.
    + destruct Hst as [Hp|[_ Ho]]; [congruence|]. by rewrite Ho in Hk.
  - intros a c0 i r p Hq Hin. apply lookup_snoc_Some in Hq as [[_ Hq]|[-> <-]].
    + by eapply I_link.
    + rewrite Hrx in Hin. by apply elem_of_nil in Hin.
  - apply (I_ready _ HI).
  - apply (I_ordered _ HI).
  - intros p. rewrite count_reg_alloc.
    assert (count_in_cell p c = 0) as -> by (unfold count_in_cell; by rewrite Hrx).
    pose proof (I_once _ HI p).
    change (count_job p (set_promises (λ h, h ++ [c]) s)) with (count_job p s).
    change (parse_count p (set_promises (λ h, h ++ [c]) s)) with (parse_count p s). lia.
  - intros p Hs Hf. apply fulfilled_alloc_inv in Hf as [Hf|[-> _]].
    + by apply (I_done _ HI).
    + apply (started_lt s _ HI) in Hs. lia.
Qed.

Lemma benign_not_start ev : benign ev → ∀ p id, ev ≠ EStart p id.
Proof. by destruct ev. Qed.

(** logging an event that is neither a start, a mutate call, a parse nor a
    fulfilment *)
Lemma log_benign_inv s ev :
  Inv s → benign ev → Inv (set_trace (λ t, t ++ [ev]) s).
Proof.
  intros HI Hb. pose proof (extends_log s ev (benign_not_start _ Hb)) as Hext.
  assert (∀ ev', ev' ∈ trace s ++ [ev] → ev' ∈ trace s ∨ ev' = ev) as Hin'.
  { intros ev' Hin. apply elem_of_app in Hin as [?|Hin]; [by left|].
    right. by apply list_elem_of_singleton in Hin. }
  split; [simpl; idtac ..| |simpl].
  - intros q c k Hq Hin. eapply kont_wf_mono; [done|]. by eapply I_konts.
  - intros k o Hin. eapply kont_wf_mono; [done|]. by eapply I_jobs.
  - intros a e Hin. apply (ext_fulfilled _ _ Hext). by eapply I_jall.
  - intros ev' Hin. destruct (Hin' _ Hin) as [Hold| ->].
    + eapply event_wf_mono; [done|]. by eapply I_events.
    + by destruct ev.
  - apply (I_norej _ HI).
  - apply (I_cache _ HI).
  - intros e c v Hq Hk Hv. apply elem_of_app. left. by eapply I_ext.
  - intros a c i r p Hq Hin. destruct (I_link _ HI _ _ _ _ _ Hq Hin) as (es & w & Ho & Hm).
    exists es, w. split; [done|]. intros k e He.
    destruct (Hin' _ He) as [Hold| <-]; [|done].
    destruct (Hm _ _ Hold); [by left|right]. apply elem_of_app. by left.
  - intros i r p v Hj k e He. apply elem_of_app. left.
    destruct (Hin' _ He) as [Hold| <-]; [|done]. by eapply I_ready.
  - apply ordered_snoc; [apply (I_ordered _ HI)|..]; intros; subst; done.
  - intros p. rewrite parse_count_log.
    assert (is_parse_of p ev = false) as -> by (by destruct ev).
    pose proof (I_once _ HI p).
    change (count_reg p (set_trace (λ t, t ++ [ev]) s)) with (count_reg p s).
    change (count_job p (set_trace (λ t, t ++ [ev]) s)) with (count_job p s). lia.
  - intros p [id Hs] Hf. eapply parsed_mono; [done|]. apply (I_done _ HI); [|done].
    exists id. destruct (Hin' _ Hs) as [Hold| <-]; done.
Qed.

(** a quiet change: the objects, the trees or the instances *)
Lemma quiet_inv s s' :
  astPromiseCache s' = astPromiseCache s → promises s' = promises s →
  jobs s' = jobs s → trace s' = trace s → Inv s → Inv s'.
Proof. apply Inv_core. Qed.

Lemma cache_insert_inv s id p :
  Inv s → cell_kind s p = Some KExecutor → Inv (set_cache <[id := p]> s).
Proof.
  intros HI Hp.
  assert (extends s (set_cache <[id := p]> s)) as Hext by by apply extends_same.
  destruct HI. split; try done. simpl. intros id' p' Hl.
  apply lookup_insert_Some in Hl as [[_ <-]|[_ Hl]]; [done|eauto].
Qed.

Lemma cache_delete_inv s id : Inv s → Inv (set_cache (delete id) s).
Proof.
  intros HI. destruct HI. split; try done. simpl. intros id' p' Hl.
  apply lookup_delete_Some in Hl as [_ Hl]. eauto.
Qed.

Lemma pop_inv s j js : Inv s → jobs s = j :: js → Inv (set_jobs (λ _, js) s).
Proof.
  intros HI Hj.
  assert (∀ j', j' ∈ js → j' ∈ jobs s) as Hin
    by (intros j' ?; rewrite Hj; by apply list_elem_of_further).
  destruct HI as [Hk Hjb Hja He Hn Hc Hx Hl Hr Ho H1 Hd]. split.
  - exact Hk.
  - intros k o Hin'. apply (Hjb k o). auto.
  - intros a e Hin'. apply (Hja a e). auto.
  - exact He.
  - exact Hn.
  - exact Hc.
  - exact Hx.
  - exact Hl.
  - intros i r p v Hin'. apply (Hr i r p v). auto.
  - exact Ho.
  - intros p. specialize (H1 p).
    change (count_reg p (set_jobs (λ _, js) s)) with (count_reg p s).
    change (parse_count p (set_jobs (λ _, js) s)) with (parse_count p s).
    assert (count_job p (set_jobs (λ _, js) s) ≤ count_job p s); [|lia].
    unfold count_job. simpl. rewrite Hj, filter_cons. destruct (decide _); simpl; lia.
  - exact Hd.
Qed.

Lemma settled_extends s q o rxs org b :
  promises s !! q = Some (Promise Pending rxs org) →
  extends s (settled q o rxs org b s).
Proof.
  intros Hq. unfold settled.
  set (s1 := set_promises <[q := Promise (settled_state o) [] org]> s).
  set (s2 := set_jobs (λ js, js ++ (job_of q o <$> rxs)) s1).
  apply (extends_trans s s1); [by eapply extends_update|].
  apply (extends_trans s1 s2); [by apply extends_same|].
  destruct b.
  - by apply extends_log.
  - apply extends_same; [done|]. simpl. by rewrite app_nil_r.
Qed.

Lemma job_of_then q o rx k o' : job_of q o rx = JThen k o' → rx = RThen k ∧ o' = o.
Proof. destruct rx; simpl; [|done]. by intros [= -> ->]. Qed.

Lemma job_of_all q o rx a e ok :
  job_of q o rx = JAll a e ok → rx = RAll a ∧ e = q ∧ ok = bool_decide (is_Some o).
Proof. destruct rx; simpl; [done|]. by intros [= -> -> ->]. Qed.

Lemma settled_inv s q o rxs org b :
  Inv s →
  promises s !! q = Some (Promise Pending rxs org) →
  (o = None → org ≠ Executor) →
  (b = true → is_Some o) →
  (kind_of org = KExternal → is_Some o → b = true) →
  (is_Some o → ∀ es w, org = AllOf es w → w = []) →
  (is_Some o → started q s → parsed q s) →
  Inv (settled q o rxs org b s).
Proof.
  intros HI Hq Hnone Hb Hext1 Hall Hdone.
  pose proof (settled_extends s q o rxs org b Hq) as Hext.
  assert (q < length (promises s)) as Hlt by by eapply lookup_lt_Some.
  assert (∀ ev, ev ∈ trace (settled q o rxs org b s) →
                ev ∈ trace s ∨ (ev = EFulfilled q ∧ b = true)) as Htr.
  { intros ev Hin. simpl in Hin. apply elem_of_app in Hin as [?|Hin]; [by left|].
    destruct b; [|by apply elem_of_nil in Hin].
    apply list_elem_of_singleton in Hin. by right. }
  assert (∀ j, j ∈ jobs (settled q o rxs org b s) →
               j ∈ jobs s ∨ ∃ rx, rx ∈ rxs ∧ j = job_of q o rx) as Hjb.
  { intros j Hin. simpl in Hin. apply elem_of_app in Hin as [?|Hin]; [by left|].
    apply list_elem_of_fmap in Hin as (rx & -> & Hrx). right. eauto. }
  assert (∀ q' c, promises (settled q o rxs org b s) !! q' = Some c →
                  (q' = q ∧ c = Promise (settled_state o) [] org)
                  ∨ (q' ≠ q ∧ promises s !! q' = Some c)) as Hcell.
  { intros q' c Hc. simpl in Hc.
    apply list_lookup_insert_Some in Hc as [(-> & <- & _)|[? ?]]; [by left|by right]. }
  assert (is_Some o → fulfilled (settled q o rxs org b s) q) as Hful.
  { intros [v ->]. exists (Promise (Fulfilled v) [] org), v. simpl.
    by rewrite list_lookup_insert_eq. }
  split.
  - intros q' c k Hc Hin. destruct (Hcell _ _ Hc) as [[-> ->]|[Hne Hold]].
    + by apply elem_of_nil in Hin.
    + eapply kont_wf_mono; [done|]. by eapply I_konts.
  - intros k o' Hin. eapply kont_wf_mono; [done|].
    destruct (Hjb _ Hin) as [Hold|(rx & Hrx & Heq)]; [by eapply I_jobs|].
    symmetry in Heq. apply job_of_then in Heq as [-> _]. by eapply I_konts.
  - intros a e Hin. destruct (Hjb _ Hin) as [Hold|(rx & Hrx & Heq)].
    + apply (ext_fulfilled _ _ Hext). by eapply I_jall.
    + symmetry in Heq. apply job_of_all in Heq as (_ & -> & Hok).
      apply Hful. symmetry in Hok. by apply bool_decide_eq_true in Hok.
  - intros ev Hin. destruct (Htr _ Hin) as [Hold|[-> ->]].
    + eapply event_wf_mono; [done|]. by eapply I_events.
    + simpl. by apply Hful, Hb.
  - intros q' c Hc Horg. destruct (Hcell _ _ Hc) as [[-> ->]|[Hne Hold]].
    + simpl in *. destruct o; [done|]. by destruct (Hnone eq_refl).
    + by eapply I_norej.
  - intros id p Hin. apply (ext_kind _ _ Hext). by eapply I_cache.
  - intros e c v Hc Hk Hv. destruct (Hcell _ _ Hc) as [[-> ->]|[Hne Hold]].
    + simpl in *. destruct o as [v'|]; [|done]. rewrite Hext1 by eauto.
      apply elem_of_app. right. apply list_elem_of_here.
    + apply (ext_trace _ _ Hext). by eapply I_ext.
  - intros a c i r p Hc Hin. destruct (Hcell _ _ Hc) as [[-> ->]|[Hne Hold]].
    + by apply elem_of_nil in Hin.
    + destruct (I_link _ HI _ _ _ _ _ Hold Hin) as (es & w & Ho & Hm).
      exists es, w. split; [done|]. intros k e He.
      destruct (Htr _ He) as [Hin'|[? _]]; [|done].
      destruct (Hm _ _ Hin'); [by left|right]. by apply (ext_trace _ _ Hext).
  - intros i r p v Hin k e He. apply (ext_trace _ _ Hext).
    destruct (Htr _ He) as [He'|[? _]]; [|done].
    destruct (Hjb _ Hin) as [Hold|(rx & Hrx & Heq)]; [by eapply I_ready|].
    symmetry in Heq. apply job_of_then in Heq as [-> <-].
    destruct (I_link _ HI _ _ _ _ _ Hq Hrx) as (es & w & Ho & Hm). simpl in Ho.
    rewrite (Hall ltac:(eauto) es w Ho) in Hm.
    destruct (Hm _ _ He') as [Hnil|?]; [by apply elem_of_nil in Hnil|done].
  - simpl. destruct b.
    + apply ordered_snoc; [apply (I_ordered _ HI)|done..].
    + rewrite app_nil_r. apply (I_ordered _ HI).
  - intros p. pose proof (I_once _ HI p) as H1.
    pose proof (count_reg_update p s q _ (Promise (settled_state o) [] org) Hq) as Hreg.
    assert (count_in_cell p (Promise (settled_state o) [] org) = 0) as H0 by done.
    assert (count_in_cell p (Promise Pending rxs org)
            = length (filter (λ rx, is_parse_rx p rx = true) rxs)) as Hc by done.
    assert (count_reg p (settled q o rxs org b s)
            = count_reg p (set_promises <[q := Promise (settled_state o) [] org]> s)) as -> by done.
    assert (count_job p (settled q o rxs org b s)
            = count_job p s + length (filter (λ rx, is_parse_rx p rx = true) rxs)) as ->.
    { unfold count_job. simpl. by rewrite filter_app, length_app, count_job_of. }
    assert (parse_count p (settled q o rxs org b s) = parse_count p s) as ->.
    { unfold parse_count. simpl. rewrite filter_app. destruct b; simpl.
      - rewrite filter_cons, filter_nil. simpl. by rewrite app_nil_r.
      - by rewrite filter_nil, app_nil_r. }
    lia.
  - intros p [id Hs] Hf. eapply parsed_mono; [done|].
    assert (started p s) as Hst.
    { exists id. destruct (Htr _ Hs) as [?|[? _]]; done. }
    destruct Hf as (c & v & Hc & Hv). destruct (Hcell _ _ Hc) as [[-> ->]|[Hne Hold]].
    + simpl in Hv. destruct o; [|done]. apply Hdone; eauto.
    + apply (I_done _ HI); [done|]. by exists c, v.
Qed.

Lemma settle_eq s q o :
  (settle q o s).2 =
  match promises s !! q with
  | Some (Promise Pending rxs org) =>
      set_jobs (λ js, js ++ (job_of q o <$> rxs))
        (set_promises <[q := Promise (settled_state o) [] org]> s)
  | _ => s
  end.
Proof. done. Qed.

(** [settle] where the promise is not a plugin's *)
Lemma settle_inv s q o :
  Inv s →
  (o = None → cell_kind s q ≠ Some KExecutor) →
  (is_Some o → cell_kind s q ≠ Some KExternal) →
  (is_Some o → ∀ c es w, promises s !! q = Some c → p_origin c = AllOf es w → w = []) →
  (is_Some o → started q s → parsed q s) →
  Inv (settle q o s).2.
Proof.
  intros HI Hnone Hsome Hall Hdone. rewrite settle_eq.
  destruct (promises s !! q) as [[[] rxs org]|] eqn:Hq; try done.
  eapply (Inv_core (settled q o rxs org false s)); try done.
  { simpl. by rewrite app_nil_r. }
  assert (cell_kind s q = Some (kind_of org)) as Hk by (unfold cell_kind; by rewrite Hq).
  apply settled_inv; try done.
  - intros -> ->. by apply Hnone.
  - intros Hx Ho. destruct (Hsome Ho). by rewrite Hk, Hx.
  - intros Ho es w ->. by eapply Hall.
Qed.

Lemma settle_extends s q o : extends s (settle q o s).2.
Proof.
  rewrite settle_eq.
  destruct (promises s !! q) as [[[] rxs org]|] eqn:Hq; try apply extends_refl.
  set (s1 := set_promises <[q := Promise (settled_state o) [] org]> s).
  apply (extends_trans s s1); [by eapply extends_update|].
  by apply extends_same.
Qed.

Lemma subscribe_eq s q rx :
  (subscribe q rx s).2 =
  match promises s !! q with
  | Some (Promise st rxs org) =>
      match outcome st with
      | None => set_promises <[q := Promise st (rxs ++ [rx]) org]> s
      | Some o => set_jobs (λ js, js ++ [job_of q o rx]) s
      end
  | None => s
  end.
Proof. done. Qed.

Lemma subscribe_extends s q rx : extends s (subscribe q rx s).2.
Proof.
  rewrite subscribe_eq. destruct (promises s !! q) as [[st rxs org]|] eqn:Hq;
    [|apply extends_refl].
  destruct (outcome st); [by apply extends_same|]. by eapply extends_update.
Qed.

Lemma outcome_None st : outcome st = None → st = Pending.
Proof. by destruct st. Qed.

Lemma outcome_Some st v : outcome st = Some (Some v) → st = Fulfilled v.
Proof. destruct st; simpl; congruence. Qed.

Lemma count_in_cell_snoc p st rxs org rx :
  count_in_cell p (Promise st (rxs ++ [rx]) org)
  = count_in_cell p (Promise st rxs org) + (if is_parse_rx p rx then 1 else 0).
Proof.
  unfold count_in_cell. simpl. rewrite filter_app, length_app. f_equal.
  rewrite filter_cons, filter_nil. by destruct (is_parse_rx p rx).
Qed.

Lemma is_parse_rx_true p rx :
  is_parse_rx p rx = true → ∃ i r, rx = RThen (KParse i r p).
Proof.
  destruct rx as [[]|]; simpl; try done. intros ->%bool_decide_eq_true. eauto.
Qed.

Lemma subscribe_inv s q rx :
  Inv s →
  (∀ k, rx = RThen k → kont_wf s k) →
  (∀ i r p, rx = RThen (KParse i r p) →
     fresh_pipeline p s
     ∧ ∃ c es w, promises s !! q = Some c ∧ p_origin c = AllOf es w
         ∧ (∀ k e, EMutate p k e ∈ trace s → e ∈ w)
         ∧ (p_state c ≠ Pending → w = [])) →
  Inv (subscribe q rx s).2.
Proof.
  intros HI Hwf Hparse. pose proof (subscribe_extends s q rx) as Hext.
  rewrite subscribe_eq in *.
  destruct (promises s !! q) as [[st rxs org]|] eqn:Hq; [|done].
  destruct (outcome st) as [o|] eqn:Hout.
  - (* already settled: the reaction is queued at once *)
    assert (∀ j, j ∈ jobs s ++ [job_of q o rx] → j ∈ jobs s ∨ j = job_of q o rx) as Hjb.
    { intros j Hin. apply elem_of_app in Hin as [?|Hin]; [by left|].
      right. by apply list_elem_of_singleton in Hin. }
    split.
    + apply (I_konts _ HI).
    + intros k o' Hin. destruct (Hjb _ Hin) as [Hold|Heq]; [exact (I_jobs _ HI _ _ Hold)|].
      symmetry in Heq. apply job_of_then in Heq as [-> _]. by apply Hwf.
    + intros a e Hin. destruct (Hjb _ Hin) as [Hold|Heq]; [exact (I_jall _ HI _ _ Hold)|].
      symmetry in Heq. apply job_of_all in Heq as (_ & -> & Hok).
      symmetry in Hok. apply bool_decide_eq_true in Hok as [v ->].
      apply outcome_Some in Hout as ->. by eexists _, v.
    + apply (I_events _ HI).
    + apply (I_norej _ HI).
    + apply (I_cache _ HI).
    + apply (I_ext _ HI).
    + apply (I_link _ HI).
    + intros i r p v Hin k e He.
      destruct (Hjb _ Hin) as [Hold|Heq]; [exact (I_ready _ HI _ _ _ _ Hold _ _ He)|].
      symmetry in Heq. apply job_of_then in Heq as [-> <-].
      destruct (Hparse i r p eq_refl) as (_ & c & es & w & Hc & _ & Hm & Hw).
      assert (c = Promise st rxs org) as -> by congruence. simpl in Hw.
      rewrite Hw in Hm by (by destruct st).
      by apply Hm, elem_of_nil in He.
    + apply (I_ordered _ HI).
    + intros p. pose proof (I_once _ HI p) as H1.
      change (count_reg p (set_jobs (λ js, js ++ [job_of q o rx]) s)) with (count_reg p s).
      change (parse_count p (set_jobs (λ js, js ++ [job_of q o rx]) s)) with (parse_count p s).
      rewrite count_job_app.
      change [job_of q o rx] with (job_of q o <$> [rx]). rewrite count_job_of.
      rewrite filter_cons, filter_nil.
      destruct (decide (is_parse_rx p rx = true)) as [Hp|_]; simpl; [|lia].
      apply is_parse_rx_true in Hp as (i & r & ->).
      destruct (Hparse i r p eq_refl) as [Hfr _]. unfold fresh_pipeline in Hfr. lia.
    + apply (I_done _ HI).
  - (* still pending: the reaction is added to the cell *)
    apply outcome_None in Hout as ->.
    assert (∀ q' c, <[q := Promise Pending (rxs ++ [rx]) org]> (promises s) !! q' = Some c →
                    (q' = q ∧ c = Promise Pending (rxs ++ [rx]) org)
                    ∨ (q' ≠ q ∧ promises s !! q' = Some c)) as Hcell.
    { intros q' c Hc.
      apply list_lookup_insert_Some in Hc as [(-> & <- & _)|[? ?]]; [by left|by right]. }
    assert (∀ x, x ∈ rxs ++ [rx] → x ∈ rxs ∨ x = rx) as Hrx.
    { intros x Hin. apply elem_of_app in Hin as [?|Hin]; [by left|].
      right. by apply list_elem_of_singleton in Hin. }
    split.
    + intros q' c k Hc Hin. eapply kont_wf_mono; [done|].
      destruct (Hcell _ _ Hc) as [[-> ->]|[Hne Hold]]; [|by eapply I_konts].
      destruct (Hrx _ Hin) as [Hold| <-]; [by eapply I_konts|by apply Hwf].
    + intros k o Hin. eapply kont_wf_mono; [done|]. by eapply I_jobs.
    + intros a e Hin. apply (ext_fulfilled _ _ Hext). by eapply I_jall.
    + intros ev Hin. eapply event_wf_mono; [done|]. by eapply I_events.
    + intros q' c Hc Horg. destruct (Hcell _ _ Hc) as [[-> ->]|[Hne Hold]]; [done|].
      by eapply I_norej.
    + intros id p Hin. apply (ext_kind _ _ Hext). by eapply I_cache.
    + intros e c v Hc Hk Hv. destruct (Hcell _ _ Hc) as [[-> ->]|[Hne Hold]]; [done|].
      by eapply (I_ext _ HI).
    + intros a c i r p Hc Hin. destruct (Hcell _ _ Hc) as [[-> ->]|[Hne Hold]];
        [|by eapply (I_link _ HI)].
      destruct (Hrx _ Hin) as [Hold| <-]; [by eapply (I_link _ HI _ _ _ _ _ Hq)|].
      destruct (Hparse i r p eq_refl) as (_ & c & es & w & Hc' & Ho & Hm & _).
      assert (c = Promise Pending rxs org) as -> by congruence.
      exists es, w. split; [done|]. intros k e He. left. by eapply Hm.
    + apply (I_ready _ HI).
    + apply (I_ordered _ HI).
    + intros p. pose proof (I_once _ HI p) as H1.
      pose proof (count_reg_update p s q _ (Promise Pending (rxs ++ [rx]) org) Hq) as Hreg.
      rewrite count_in_cell_snoc in Hreg.
      change (count_job p (set_promises <[q := Promise Pending (rxs ++ [rx]) org]> s))
        with (count_job p s).
      change (parse_count p (set_promises <[q := Promise Pending (rxs ++ [rx]) org]> s))
        with (parse_count p s).
      destruct (is_parse_rx p rx) eqn:Hp; [|lia].
      apply is_parse_rx_true in Hp as (i & r & ->).
      destruct (Hparse i r p eq_refl) as [Hfr _]. unfold fresh_pipeline in Hfr. lia.
    + intros p Hs (c & v & Hc & Hv). apply (I_done _ HI); [done|].
      destruct (Hcell _ _ Hc) as [[-> ->]|[Hne Hold]]; [done|]. by exists c, v.
Qed.

Lemma log_mutate_inv s p k e :
  Inv s → cell_kind s p = Some KExecutor → cell_kind s e = Some KExternal →
  fresh_pipeline p s →
  Inv (set_trace (λ t, t ++ [EMutate p k e]) s).
Proof.
  intros HI Hp He Hfr.
  pose proof (extends_log s (EMutate p k e) ltac:(done)) as Hext.
  assert (∀ ev', ev' ∈ trace s ++ [EMutate p k e] → ev' ∈ trace s ∨ ev' = EMutate p k e) as Hin'.
  { intros ev' Hin. apply elem_of_app in Hin as [?|Hin]; [by left|].
    right. by apply list_elem_of_singleton in Hin. }
  split.
  - intros q c k' Hq Hin. eapply kont_wf_mono; [done|]. by eapply I_konts.
  - intros k' o Hin. eapply kont_wf_mono; [done|]. by eapply I_jobs.
  - intros a e' Hin. apply (ext_fulfilled _ _ Hext). by eapply I_jall.
  - intros ev' Hin. destruct (Hin' _ Hin) as [Hold| ->].
    + eapply event_wf_mono; [done|]. by eapply I_events.
    + done.
  - apply (I_norej _ HI).
  - apply (I_cache _ HI).
  - intros e' c v Hq Hk Hv. apply elem_of_app. left. by eapply I_ext.
  - intros a c i r p' Hq Hin. destruct (I_link _ HI _ _ _ _ _ Hq Hin) as (es & w & Ho & Hm).
    exists es, w. split; [done|]. intros k' e' He'.
    destruct (Hin' _ He') as [Hold|[= -> -> ->]].
    + destruct (Hm _ _ Hold); [by left|right]. apply elem_of_app. by left.
    + by destruct (fresh_pipeline_reg _ _ _ _ i r Hfr Hq).
  - intros i r p' v Hj k' e' He'. apply elem_of_app. left.
    destruct (Hin' _ He') as [Hold|[= -> -> ->]]; [by eapply I_ready|].
    by destruct (fresh_pipeline_job _ _ i r (Some v) Hfr).
  - apply ordered_snoc; [apply (I_ordered _ HI)|done|].
    intros p' k' e' [= <- <- <-] src t Hin.
    apply (fresh_pipeline_parsed _ _ Hfr). by exists src, t.
  - intros p'. rewrite parse_count_log. simpl.
    pose proof (I_once _ HI p').
    change (count_reg p' (set_trace (λ t, t ++ [EMutate p k e]) s)) with (count_reg p' s).
    change (count_job p' (set_trace (λ t, t ++ [EMutate p k e]) s)) with (count_job p' s). lia.
  - intros p' [id Hs] Hf. eapply parsed_mono; [done|]. apply (I_done _ HI); [|done].
    exists id. destruct (Hin' _ Hs) as [Hold|?]; done.
Qed.

Lemma log_parse_inv s p src t :
  Inv s → cell_kind s p = Some KExecutor → fresh_pipeline p s →
  (∀ k e, EMutate p k e ∈ trace s → EFulfilled e ∈ trace s) →
  Inv (set_trace (λ tr, tr ++ [EParse p src t]) s).
Proof.
  intros HI Hp Hfr Hready.
  pose proof (extends_log s (EParse p src t) ltac:(done)) as Hext.
  assert (∀ ev', ev' ∈ trace s ++ [EParse p src t] → ev' ∈ trace s ∨ ev' = EParse p src t) as Hin'.
  { intros ev' Hin. apply elem_of_app in Hin as [?|Hin]; [by left|].
    right. by apply list_elem_of_singleton in Hin. }
  split.
  - intros q c k' Hq Hin. eapply kont_wf_mono; [done|]. by eapply I_konts.
  - intros k' o Hin. eapply kont_wf_mono; [done|]. by eapply I_jobs.
  - intros a e' Hin. apply (ext_fulfilled _ _ Hext). by eapply I_jall.
  - intros ev' Hin. destruct (Hin' _ Hin) as [Hold| ->].
    + eapply event_wf_mono; [done|]. by eapply I_events.
    + done.
  - apply (I_norej _ HI).
  - apply (I_cache _ HI).
  - intros e' c v Hq Hk Hv. apply elem_of_app. left. by eapply I_ext.
  - intros a c i r p' Hq Hin. destruct (I_link _ HI _ _ _ _ _ Hq Hin) as (es & w & Ho & Hm).
    exists es, w. split; [done|]. intros k' e' He'.
    destruct (Hin' _ He') as [Hold|?]; [|done].
    destruct (Hm _ _ Hold); [by left|right]. apply elem_of_app. by left.
  - intros i r p' v Hj k' e' He'. apply elem_of_app. left.
    destruct (Hin' _ He') as [Hold|?]; [by eapply I_ready|done].
  - apply ordered_snoc; [apply (I_ordered _ HI)| |done].
    intros p' src' t' [= <- <- <-]. apply Hready.
  - intros p'. rewrite parse_count_log. simpl.
    pose proof (I_once _ HI p').
    change (count_reg p' (set_trace (λ tr, tr ++ [EParse p src t]) s)) with (count_reg p' s).
    change (count_job p' (set_trace (λ tr, tr ++ [EParse p src t]) s)) with (count_job p' s).
    case_bool_decide; [subst p'; unfold fresh_pipeline in Hfr|]; lia.
  - intros p' [id Hs] Hf. eapply parsed_mono; [done|]. apply (I_done _ HI); [|done].
    exists id. destruct (Hin' _ Hs) as [Hold|?]; done.
Qed.

Lemma kont_wf_start s p id k :
  kont_wf s k → (∀ q, k = KRender q → q ≠ p) →
  kont_wf (set_trace (λ t, t ++ [EStart p id]) s) k.
Proof.
  destruct k; simpl; try done.
  - intros [Hk (src & t' & Hp)] _. split; [done|]. exists src, t'.
    apply elem_of_app. by left.
  - intros [Hk Hns] Hne. split; [done|]. intros [id' Hin]. simpl in Hin.
    apply elem_of_app in Hin as [Hin|Hin]; [apply Hns; by exists id'|].
    apply list_elem_of_singleton in Hin. injection Hin as -> _. by eapply Hne.
Qed.

(** the start of a pipeline: its promise is pending and no callback renders
    into it *)
Lemma log_start_inv s p id :
  Inv s → cell_kind s p = Some KExecutor → ¬ fulfilled s p →
  (∀ q c, promises s !! q = Some c → RThen (KRender p) ∉ p_reactions c) →
  (∀ o, JThen (KRender p) o ∉ jobs s) →
  Inv (set_trace (λ t, t ++ [EStart p id]) s).
Proof.
  intros HI Hp Hnf Hrx Hjb.
  assert (∀ ev', ev' ∈ trace s ++ [EStart p id] → ev' ∈ trace s ∨ ev' = EStart p id) as Hin'.
  { intros ev' Hin. apply elem_of_app in Hin as [?|Hin]; [by left|].
    right. by apply list_elem_of_singleton in Hin. }
  split.
  - intros q c k Hq Hin. apply kont_wf_start; [exact (I_konts _ HI _ _ _ Hq Hin)|].
    intros q' -> ->. by destruct (Hrx _ _ Hq).
  - intros k o Hin. apply kont_wf_start; [exact (I_jobs _ HI _ _ Hin)|].
    intros q' -> ->. by destruct (Hjb o).
  - apply (I_jall _ HI).
  - intros ev' Hin. destruct (Hin' _ Hin) as [Hold| ->]; [|done].
    pose proof (I_events _ HI _ Hold) as Hwf. by destruct ev'.
  - apply (I_norej _ HI).
  - apply (I_cache _ HI).
  - intros e' c v Hq Hk Hv. apply elem_of_app. left. by eapply I_ext.
  - intros a c i r p' Hq Hin. destruct (I_link _ HI _ _ _ _ _ Hq Hin) as (es & w & Ho & Hm).
    exists es, w. split; [done|]. intros k' e' He'.
    destruct (Hin' _ He') as [Hold|?]; [|done].
    destruct (Hm _ _ Hold); [by left|right]. apply elem_of_app. by left.
  - intros i r p' v Hj k' e' He'. apply elem_of_app. left.
    destruct (Hin' _ He') as [Hold|?]; [|done]. exact (I_ready _ HI _ _ _ _ Hj _ _ Hold).
  - apply ordered_snoc; [apply (I_ordered _ HI)|done..].
  - intros p'. rewrite parse_count_log. simpl.
    pose proof (I_once _ HI p').
    change (count_reg p' (set_trace (λ t, t ++ [EStart p id]) s)) with (count_reg p' s).
    change (count_job p' (set_trace (λ t, t ++ [EStart p id]) s)) with (count_job p' s). lia.
  - intros p' [id' Hs] Hf.
    assert (parsed p' s → parsed p' (set_trace (λ t, t ++ [EStart p id]) s)) as Hmono.
    { intros (src & t' & Hin). exists src, t'. apply elem_of_app. by left. }
    apply Hmono. destruct (Hin' _ Hs) as [Hold|[= -> ->]].
    + apply (I_done _ HI); [by exists id'|done].
    + by destruct Hnf.
Qed.

(** [new Promise(executor)] in [getAST], with the start logged *)
Lemma start_inv s id :
  Inv s →
  Inv (set_trace (λ t, t ++ [EStart (length (promises s)) id])
         (set_promises (λ h, h ++ [Promise Pending [] Executor]) s)).
Proof.
  intros HI. set (c := Promise Pending [] Executor).
  pose proof (alloc_inv s c HI eq_refl (or_introl eq_refl)) as HI1.
  assert (promises (set_promises (λ h, h ++ [c]) s) !! length (promises s) = Some c) as Hc.
  { simpl. by rewrite lookup_app_r, Nat.sub_diag. }
  apply log_start_inv; [done|..].
  - unfold cell_kind. by rewrite Hc.
  - intros (c' & v & Hc' & Hv). rewrite Hc in Hc'. by injection Hc' as <-.
  - intros q c' Hq Hin. simpl in Hq. apply lookup_snoc_Some in Hq as [[_ Hq]|[-> <-]].
    + pose proof (I_konts _ HI _ _ _ Hq Hin) as [Hk _]. apply cell_kind_lt in Hk. lia.
    + by apply elem_of_nil in Hin.
  - intros o Hin. pose proof (I_jobs _ HI _ _ Hin) as [Hk _]. apply cell_kind_lt in Hk. lia.
Qed.

(** an element of a [Promise.all] is accounted for *)
Lemma waiting_inv s a st rxs es w e0 :
  Inv s →
  promises s !! a = Some (Promise st rxs (AllOf es w)) →
  fulfilled s e0 →
  Inv (set_promises <[a := Promise st rxs (AllOf es (filter (λ x, x ≠ e0) w))]> s).
Proof.
  intros HI Ha Hf.
  set (c' := Promise st rxs (AllOf es (filter (λ x, x ≠ e0) w))).
  assert (extends s (set_promises <[a := c']> s)) as Hext by by eapply extends_update.
  assert (∀ q' c, <[a := c']> (promises s) !! q' = Some c →
                  (q' = a ∧ c = c') ∨ (q' ≠ a ∧ promises s !! q' = Some c)) as Hcell.
  { intros q' c Hc.
    apply list_lookup_insert_Some in Hc as [(-> & <- & _)|[? ?]]; [by left|by right]. }
  split.
  - intros q' c k Hc Hin. eapply kont_wf_mono; [done|].
    destruct (Hcell _ _ Hc) as [[-> ->]|[Hne Hold]].
    + exact (I_konts _ HI _ _ _ Ha Hin).
    + exact (I_konts _ HI _ _ _ Hold Hin).
  - intros k o Hin. eapply kont_wf_mono; [done|]. exact (I_jobs _ HI _ _ Hin).
  - intros a' e Hin. apply (ext_fulfilled _ _ Hext). exact (I_jall _ HI _ _ Hin).
  - intros ev Hin. eapply event_wf_mono; [done|]. exact (I_events _ HI _ Hin).
  - intros q' c Hc Horg. destruct (Hcell _ _ Hc) as [[-> ->]|[Hne Hold]]; [done|].
    by eapply I_norej.
  - intros id p Hin. apply (ext_kind _ _ Hext). by eapply I_cache.
  - intros e c v Hc Hk Hv. destruct (Hcell _ _ Hc) as [[-> ->]|[Hne Hold]]; [done|].
    by eapply (I_ext _ HI).
  - intros a' c i r p Hc Hin. destruct (Hcell _ _ Hc) as [[-> ->]|[Hne Hold]];
      [|by eapply (I_link _ HI)].
    destruct (I_link _ HI _ _ _ _ _ Ha Hin) as (es' & w' & [= <- <-] & Hm).
    eexists _, _. split; [done|]. intros k e He.
    destruct (Hm _ _ He) as [Hw|?]; [|by right].
    destruct (decide (e = e0)) as [->|Hne].
    + right. destruct Hf as (c0 & v & Hc0 & Hv).
      pose proof (I_events _ HI _ He) as [_ Hk]. simpl in Hk.
      apply cell_kind_Some in Hk as (c1 & Hc1 & Hk).
      assert (c1 = c0) as -> by congruence. by eapply (I_ext _ HI).
    + left. apply list_elem_of_filter. done.
  - apply (I_ready _ HI).
  - apply (I_ordered _ HI).
  - intros p. pose proof (I_once _ HI p) as H1.
    pose proof (count_reg_update p s a _ c' Ha) as Hreg.
    assert (count_in_cell p c' = count_in_cell p (Promise st rxs (AllOf es w))) as Heq by done.
    change (count_job p (set_promises <[a := c']> s)) with (count_job p s).
    change (parse_count p (set_promises <[a := c']> s)) with (parse_count p s). lia.
  - intros p Hs (c & v & Hc & Hv). apply (I_done _ HI); [done|].
    destruct (Hcell _ _ Hc) as [[-> ->]|[Hne Hold]]; [|by exists c, v].
    by eexists _, v.
Qed.

(** ** The environment: a plugin settles its promise *)

Lemma bind_eq {A B} (m : M A) (f : A → M B) s : bind m f s = f (m s).1 (m s).2.
Proof. unfold bind. by destruct (m s). Qed.

(** evaluate the monad's plumbing, leaving the primitives folded *)
Ltac msimpl :=
  repeat first
    [ rewrite bind_eq
    | progress unfold get, ret, modify, log, then_, new_promise, new_tree,
        update_node, promise_resolve
    | progress cbn beta iota zeta delta [fst snd] ].

Lemma apply_effect_quiet eff s :
  astPromiseCache (apply_effect eff s).2 = astPromiseCache s
  ∧ promises (apply_effect eff s).2 = promises s
  ∧ jobs (apply_effect eff s).2 = jobs s
  ∧ trace (apply_effect eff s).2 = trace s.
Proof. by destruct eff. Qed.

Lemma settle_external_inv s e ok : Inv s → Inv (settle_external e ok s).2.
Proof.
  intros HI. unfold settle_external. msimpl.
  destruct (promises s !! e) as [[[] rxs [| | | |eff|]]|] eqn:He; try done.
  destruct ok; msimpl.
  - (* fulfilled *)
    destruct (apply_effect_quiet eff s) as (Hc & Hp & Hj & Ht).
    set (s1 := (apply_effect eff s).2) in *.
    assert (Inv s1) as HI1 by by eapply (quiet_inv s).
    rewrite settle_eq, Hp, He.
    apply (settled_inv s1 e (Some VUndefined) rxs (External eff) true); try done.
    + by rewrite Hp.
    + intros _ [id Hs]. pose proof (I_events _ HI1 _ Hs) as Hev.
      simpl in Hev. unfold cell_kind in Hev. by rewrite Hp, He in Hev.
  - (* rejected *)
    apply log_benign_inv; [|done]. apply settle_inv; try done; try (by intros [? ?]).
    intros _. unfold cell_kind. by rewrite He.
Qed.

(** ** Loops *)

Lemma mapM_from_ind {A B} (f : nat → A → M B) (P : list B → state → Prop) :
  (∀ k x ys s, P ys s → P (ys ++ [(f k x s).1]) (f k x s).2) →
  ∀ xs k ys s, P ys s → P (ys ++ (mapM_from f k xs s).1) (mapM_from f k xs s).2.
Proof.
  intros Hstep xs. induction xs as [|x xs IH]; intros k ys s HP; simpl.
  - by rewrite app_nil_r.
  - msimpl. specialize (Hstep k x ys s HP).
    specialize (IH (S k) _ _ Hstep). by rewrite <- app_assoc in IH.
Qed.

Lemma forM__ind {A} (f : A → M unit) (P : state → Prop) (xs : list A) :
  (∀ x s, x ∈ xs → P s → P (f x s).2) → ∀ s, P s → P (forM_ f xs s).2.
Proof.
  induction xs as [|x xs IH]; intros Hstep s HP; simpl; [done|]. msimpl.
  apply IH.
  - intros y s' Hy. apply Hstep. by apply list_elem_of_further.
  - apply Hstep; [apply list_elem_of_here|done].
Qed.

(** ** Steps that log nothing and touch no parse callback *)

Lemma tidy_refl s : tidy s s.
Proof. by split. Qed.

Lemma tidy_trans s1 s2 s3 : tidy s1 s2 → tidy s2 s3 → tidy s1 s3.
Proof. intros [] []. split; intros; congruence. Qed.

Lemma tidy_fresh s s' p : tidy s s' → fresh_pipeline p s → fresh_pipeline p s'.
Proof.
  intros [Ht _ Hr Hj]. unfold fresh_pipeline, parse_count. by rewrite Hr, Hj, Ht.
Qed.

Lemma tidy_alloc s c : p_reactions c = [] → tidy s (set_promises (λ h, h ++ [c]) s).
Proof.
  intros Hrx. split; try done. intros p. rewrite count_reg_alloc.
  unfold count_in_cell. rewrite Hrx. simpl. lia.
Qed.

Lemma subscribe_all_tidy s e a : tidy s (subscribe e (RAll a) s).2.
Proof.
  rewrite subscribe_eq. destruct (promises s !! e) as [[st rxs org]|] eqn:He;
    [|apply tidy_refl].
  destruct (outcome st); split; try done.
  - intros p. rewrite count_job_app. simpl. lia.
  - intros p. pose proof (count_reg_update p s e _ (Promise st (rxs ++ [RAll a]) org) He) as H.
    rewrite count_in_cell_snoc in H. simpl in H. lia.
Qed.

Lemma subscribe_other s e rx q :
  q ≠ e → promises (subscribe e rx s).2 !! q = promises s !! q.
Proof.
  intros Hne. rewrite subscribe_eq. destruct (promises s !! e) as [[st rxs org]|]; [|done].
  destruct (outcome st); [done|]. simpl. by apply list_lookup_insert_ne.
Qed.

Lemma subscribe_length s e rx :
  length (promises (subscribe e rx s).2) = length (promises s).
Proof.
  rewrite subscribe_eq. destruct (promises s !! e) as [[st rxs org]|]; [|done].
  destruct (outcome st); [done|]. simpl. by rewrite length_insert.
Qed.

(** ** [Promise.all] *)

Lemma promise_all_spec s es :
  Inv s → (∀ e, e ∈ es → e < length (promises s)) →
  let a := length (promises s) in
  let s' := (promise_all es s).2 in
  (promise_all es s).1 = a
  ∧ Inv s' ∧ extends s s' ∧ tidy s s'
  ∧ ∃ st, promises s' !! a = Some (Promise st [] (AllOf es es))
          ∧ (st ≠ Pending → es = []).
Proof.
  intros HI Hes a s'. subst s'. unfold promise_all. msimpl. fold a.
  set (c := Promise Pending [] (AllOf es es)).
  set (s1 := set_promises (λ h, h ++ [c]) s).
  assert (Inv s1) as HI1 by (apply alloc_inv; [done|done|by left]).
  assert (promises s1 !! a = Some c) as Ha.
  { simpl. by rewrite lookup_app_r, Nat.sub_diag. }
  assert (extends s s1) as Hext1 by apply extends_alloc.
  assert (tidy s s1) as Ht1 by by apply tidy_alloc.
  split; [by destruct es|].
  destruct es as [|e0 es'].
  - (* no element: fulfilled at once *)
    msimpl. fold a. fold s1.
    assert (Inv (settle a (Some VUndefined) s1).2) as HI2.
    { apply settle_inv; try done.
      - intros _. unfold cell_kind. by rewrite Ha.
      - intros _ c' es w Hc Ho. rewrite Ha in Hc. injection Hc as <-. by injection Ho as <- <-.
      - intros _ [id Hs]. pose proof (I_events _ HI1 _ Hs) as Hk. simpl in Hk.
        unfold cell_kind in Hk. by rewrite Ha in Hk. }
    split; [exact HI2|]. split; [|split].
    + eapply extends_trans; [done|]. apply settle_extends.
    + eapply tidy_trans; [done|]. rewrite settle_eq, Ha. split; try done.
      * intros p.
        pose proof (count_reg_update p s1 a _ (Promise (Fulfilled VUndefined) [] (AllOf [] [])) Ha) as H.
        assert (count_in_cell p c = 0) as H0 by done.
        assert (count_in_cell p (Promise (Fulfilled VUndefined) [] (AllOf [] [])) = 0) as H0' by done.
        rewrite H0, H0' in H. unfold count_reg in *. simpl in *. lia.
      * intros p. unfold count_job. simpl. by rewrite app_nil_r.
    + exists (Fulfilled VUndefined). split; [|done]. rewrite settle_eq, Ha. simpl.
      apply list_lookup_insert_eq. by eapply lookup_lt_Some.
  - (* subscribe to every element *)
    msimpl. fold a. fold s1.
    set (P := λ s' : state,
      Inv s' ∧ extends s1 s' ∧ tidy s1 s' ∧ promises s' !! a = Some c
      ∧ length (promises s') = length (promises s1)).
    assert (P (forM_ (λ e, subscribe e (RAll a)) (e0 :: es') s1).2) as (HI2 & Hext2 & Ht2 & Ha2 & _).
    { apply forM__ind.
      - intros e s' He (HI' & Hext' & Ht' & Ha' & Hl'). split; [|split; [|split; [|split]]].
        + apply subscribe_inv; done.
        + eapply extends_trans; [done|]. apply subscribe_extends.
        + eapply tidy_trans; [done|]. apply subscribe_all_tidy.
        + rewrite subscribe_other; [done|]. specialize (Hes _ He). unfold a. lia.
        + by rewrite subscribe_length.
      - split; [done|]. split; [apply extends_refl|]. split; [apply tidy_refl|done]. }
    split; [done|]. split; [by eapply extends_trans|]. split; [by eapply tidy_trans|].
    exists Pending. done.
Qed.

(** ** [getAST] *)

Lemma lookup_new {A} (l : list A) (x : A) : (l ++ [x]) !! length l = Some x.
Proof. by rewrite lookup_app_r, Nat.sub_diag. Qed.

Lemma call_mutate_step s r p k pl ys :
  cell_kind s p = Some KExecutor →
  Inv s ∧ fresh_pipeline p s
    ∧ (∀ k e, EMutate p k e ∈ trace s → e ∈ ys)
    ∧ (∀ e, e ∈ ys → e < length (promises s)) →
  let e := (call_mutate r p k pl s).1 in
  let s' := (call_mutate r p k pl s).2 in
  extends s s' ∧ astPromiseCache s' = astPromiseCache s
  ∧ Inv s' ∧ fresh_pipeline p s'
  ∧ (∀ k e', EMutate p k e' ∈ trace s' → e' ∈ ys ++ [e])
  ∧ (∀ e', e' ∈ ys ++ [e] → e' < length (promises s')).
Proof.
  intros Hp (HI & Hfr & Hm & Hlt). unfold call_mutate.
  destruct (mutateSource pl) as [m|]; msimpl.
  - set (s1 := set_objects (alter (with_src (mut_now m)) r) s).
    set (c := Promise Pending [] (External (OnSource r (mut_later m)))).
    set (s2 := set_promises (λ h, h ++ [c]) s1).
    assert (Inv s1) as HI1 by by apply (quiet_inv s).
    assert (Inv s2) as HI2 by (apply alloc_inv; [done|done|by left]).
    assert (extends s s2) as Hext2.
    { apply (extends_trans s s1); [by apply extends_same|apply extends_alloc]. }
    assert (fresh_pipeline p s2) as Hfr2.
    { apply (tidy_fresh s1 s2); [by apply tidy_alloc|done]. }
    assert (cell_kind s2 (length (promises s)) = Some KExternal) as He.
    { unfold cell_kind. simpl. by rewrite lookup_new. }
    split; [|split; [done|split; [|split; [|split]]]].
    + apply (extends_trans s s2); [done|]. by apply extends_log.
    + apply log_mutate_inv; try done. by apply (ext_kind _ _ Hext2).
    + unfold fresh_pipeline in *. rewrite parse_count_log. simpl.
      change (count_reg p (set_trace _ s2)) with (count_reg p s2).
      change (count_job p (set_trace _ s2)) with (count_job p s2). lia.
    + intros k' e' Hin. simpl in Hin. apply elem_of_app.
      apply elem_of_app in Hin as [Hin|Hin]; [left; by eapply Hm|right].
      apply list_elem_of_singleton in Hin. injection Hin as _ ->. apply list_elem_of_here.
    + intros e' Hin. simpl. rewrite length_app. simpl.
      apply elem_of_app in Hin as [Hin|Hin]; [specialize (Hlt _ Hin); lia|].
      apply list_elem_of_singleton in Hin as ->. simpl. lia.
  - set (c := Promise (Fulfilled VUndefined) [] Resolved).
    split; [apply extends_alloc|]. split; [done|]. split; [|split; [|split]].
    + apply alloc_inv; [done|done|by right].
    + apply (tidy_fresh s _); [by apply tidy_alloc|done].
    + intros k' e' Hin. apply elem_of_app. left. by eapply Hm.
    + intros e' Hin. simpl. rewrite length_app. simpl.
      apply elem_of_app in Hin as [Hin|Hin]; [specialize (Hlt _ Hin); lia|].
      apply list_elem_of_singleton in Hin as ->. simpl. lia.
Qed.

Lemma call_mutate_loop s r p pls k0 :
  Inv s → cell_kind s p = Some KExecutor → fresh_pipeline p s →
  (∀ k e, EMutate p k e ∉ trace s) →
  let ms := (mapM_from (call_mutate r p) k0 pls s).1 in
  let s' := (mapM_from (call_mutate r p) k0 pls s).2 in
  extends s s' ∧ astPromiseCache s' = astPromiseCache s
  ∧ Inv s' ∧ fresh_pipeline p s'
  ∧ (∀ k e, EMutate p k e ∈ trace s' → e ∈ ms)
  ∧ (∀ e, e ∈ ms → e < length (promises s')).
Proof.
  intros HI Hp Hfr Hno.
  apply (mapM_from_ind (call_mutate r p)
    (λ ys s', extends s s' ∧ astPromiseCache s' = astPromiseCache s
              ∧ Inv s' ∧ fresh_pipeline p s'
              ∧ (∀ k e, EMutate p k e ∈ trace s' → e ∈ ys)
              ∧ (∀ e, e ∈ ys → e < length (promises s'))) ) with (ys := []).
  - intros k x ys s' (Hext & Hc & Hrest).
    destruct (call_mutate_step s' r p k x ys) as (Hext' & Hc' & Hrest');
      [by apply (ext_kind _ _ Hext)|done|].
    split; [by eapply extends_trans|]. split; [congruence|done].
  - split; [apply extends_refl|]. split; [done|]. split; [done|]. split; [done|].
    split; [intros k e Hin; by destruct (Hno k e)|]. intros e Hin. by apply elem_of_nil in Hin.
Qed.

Lemma getAST_spec i r s :
  Inv s →
  let p := (getAST i r s).1 in
  let s' := (getAST i r s).2 in
  Inv s' ∧ extends s s' ∧ cell_kind s' p = Some KExecutor.
Proof.
  intros HI. unfold getAST. msimpl.
  destruct (astPromiseCache s !! node_id (the_node s r)) as [p|] eqn:Hhit; msimpl.
  - split; [done|]. split; [apply extends_refl|]. by eapply I_cache.
  - set (id := node_id (the_node s r)). set (p := length (promises s)).
    set (s1 := set_promises (λ h, h ++ [Promise Pending [] Executor]) s).
    set (s2 := set_trace (λ t, t ++ [EStart p id]) s1).
    assert (Inv s2) as HI2 by apply (start_inv s id HI).
    assert (extends s s2) as Hext2 by apply extends_start.
    assert (cell_kind s2 p = Some KExecutor) as Hp2.
    { unfold cell_kind, p. simpl. by rewrite lookup_new. }
    assert (fresh_pipeline p s2) as Hfr2.
    { pose proof (fresh_pipeline_new p s HI ltac:(done)) as Hfr.
      apply (tidy_fresh s s1) in Hfr; [|by apply tidy_alloc].
      unfold fresh_pipeline in *. unfold s2. rewrite parse_count_log. simpl.
      change (count_reg p (set_trace _ s1)) with (count_reg p s1).
      change (count_job p (set_trace _ s1)) with (count_job p s1). lia. }
    assert (∀ k e, EMutate p k e ∉ trace s2) as Hno.
    { intros k e Hin. simpl in Hin. apply elem_of_app in Hin as [Hin|Hin].
      - pose proof (I_events _ HI _ Hin) as [Hk _]. apply cell_kind_lt in Hk. unfold p in Hk. lia.
      - by apply list_elem_of_singleton in Hin. }
    destruct (call_mutate_loop s2 r p (the_plugins s i) 0 HI2 Hp2 Hfr2 Hno)
      as (Hext3 & Hc3 & HI3 & Hfr3 & Hm3 & Hlt3).
    set (ms := (mapM_from (call_mutate r p) 0 (the_plugins s i) s2).1) in *.
    set (s3 := (mapM_from (call_mutate r p) 0 (the_plugins s i) s2).2) in *.
    destruct (promise_all_spec s3 ms HI3 Hlt3) as (Ha & HI4 & Hext4 & Ht4 & st & Hcell & Hst).
    set (a := (promise_all ms s3).1) in *. set (s4 := (promise_all ms s3).2) in *.
    assert (cell_kind s4 p = Some KExecutor) as Hp4.
    { apply (ext_kind _ _ Hext4), (ext_kind _ _ Hext3), Hp2. }
    assert (Inv (subscribe a (RThen (KParse i r p)) s4).2) as HI5.
    { apply subscribe_inv; [done|by intros k [= <-]|].
      intros i' r' p' [= <- <- <-]. split; [by eapply tidy_fresh|].
      exists (Promise st [] (AllOf ms ms)), ms, ms. rewrite Ha. split; [done|]. split; [done|].
      split; [|done]. intros k e Hin. apply (Hm3 k). by rewrite <- (tidy_trace _ _ Ht4). }
    set (s5 := (subscribe a (RThen (KParse i r p)) s4).2) in *.
    assert (extends s s5) as Hext5.
    { apply (extends_trans s s2); [done|]. apply (extends_trans s2 s3); [done|].
      apply (extends_trans s3 s4); [done|]. apply subscribe_extends. }
    assert (cell_kind s5 p = Some KExecutor) as Hp5.
    { apply (ext_kind _ _ (subscribe_extends s4 a _)), Hp4. }
    split; [by apply cache_insert_inv|]. split; [|done].
    apply (extends_trans s s5); [done|]. by apply extends_same.
Qed.

Lemma cell_kind_origin s q c :
  promises s !! q = Some c → cell_kind s q = Some (kind_of (p_origin c)).
Proof. intros Hc. unfold cell_kind. by rewrite Hc. Qed.

(** settling the promise of an [async function] or of a [.then] *)
Lemma settle_plain_inv s q o :
  Inv s → cell_kind s q = Some KAsyncFn ∨ cell_kind s q = Some KDerived →
  Inv (settle q o s).2.
Proof.
  intros HI Hk. apply settle_inv; [done|..].
  - intros _ Hx. destruct Hk; congruence.
  - intros _ Hx. destruct Hk; congruence.
  - intros _ c es w Hc Ho.
    assert (cell_kind s q = Some KAllOf) by (by rewrite (cell_kind_origin _ _ _ Hc), Ho).
    destruct Hk; congruence.
  - intros _ [id Hs]. pose proof (I_events _ HI _ Hs) as Hx. simpl in Hx.
    destruct Hk; congruence.
Qed.

Lemma then_derive_spec s p (mk : pid → kont) :
  Inv s →
  (∀ d s', cell_kind s' d = Some KDerived → kont_wf s' (mk d)) →
  (∀ d i r p', mk d ≠ KParse i r p') →
  Inv (then_derive p mk s).2 ∧ extends s (then_derive p mk s).2.
Proof.
  intros HI Hwf Hnp. unfold then_derive. msimpl.
  set (s1 := set_promises (λ h, h ++ [Promise Pending [] Derived]) s).
  assert (Inv s1) as HI1 by (apply alloc_inv; [done|done|by left]).
  split.
  - apply subscribe_inv; [done| |].
    + intros k [= <-]. apply Hwf. unfold cell_kind. simpl. by rewrite lookup_new.
    + intros i r p' [= Heq]. by destruct (Hnp _ _ _ _ Heq).
  - apply (extends_trans s s1); [apply extends_alloc|apply subscribe_extends].
Qed.

Lemma getHeadings_spec i r s :
  Inv s → Inv (getHeadings i r s).2 ∧ extends s (getHeadings i r s).2
          ∧ cell_kind (getHeadings i r s).2 (getHeadings i r s).1 = Some KAsyncFn.
Proof.
  intros HI. unfold getHeadings. msimpl.
  set (q := length (promises s)).
  set (s1 := set_promises (λ h, h ++ [Promise Pending [] AsyncFn]) s).
  assert (Inv s1) as HI1 by (apply alloc_inv; [done|done|by left]).
  assert (extends s s1) as Hext1 by apply extends_alloc.
  assert (cell_kind s1 q = Some KAsyncFn) as Hq1.
  { unfold cell_kind, q. simpl. by rewrite lookup_new. }
  destruct (node_headings (the_node s r)); msimpl.
  - split; [apply settle_plain_inv; [done|by left]|].
    pose proof (settle_extends s1 q (Some (VNode r))) as Hext2.
    split; [by eapply extends_trans|]. by apply (ext_kind _ _ Hext2).
  - destruct (getAST_spec i r s1 HI1) as (HI2 & Hext2 & Hp2).
    set (p := (getAST i r s1).1) in *. set (s2 := (getAST i r s1).2) in *.
    assert (cell_kind s2 q = Some KAsyncFn) as Hq2 by by apply (ext_kind _ _ Hext2).
    pose proof (subscribe_extends s2 p (RThen (KSetHeadings r q))) as Hext3.
    split; [|split].
    + apply subscribe_inv; [done|by intros k [= <-]|done].
    + apply (extends_trans s s1); [done|]. by apply (extends_trans s1 s2).
    + by apply (ext_kind _ _ Hext3).
Qed.

Lemma set_html_cache_quiet i f s :
  astPromiseCache (set_html_cache i f s).2 = astPromiseCache s
  ∧ promises (set_html_cache i f s).2 = promises s
  ∧ jobs (set_html_cache i f s).2 = jobs s
  ∧ trace (set_html_cache i f s).2 = trace s.
Proof. done. Qed.

Lemma getHTML_spec i r s :
  Inv s → Inv (getHTML i r s).2 ∧ extends s (getHTML i r s).2.
Proof.
  intros HI. unfold getHTML. msimpl.
  destruct (the_html_cache s i !! node_id (the_node s r)) as [q|]; msimpl.
  - split; [done|apply extends_refl].
  - set (q := length (promises s)).
    set (s1 := set_promises (λ h, h ++ [Promise Pending [] Executor]) s).
    assert (Inv s1) as HI1 by (apply alloc_inv; [done|done|by left]).
    assert (extends s s1) as Hext1 by apply extends_alloc.
    assert (cell_kind s1 q = Some KExecutor) as Hq1.
    { unfold cell_kind, q. simpl. by rewrite lookup_new. }
    assert (¬ started q s1) as Hns1.
    { intros Hs. apply (started_lt s _ HI) in Hs. unfold q in Hs. lia. }
    destruct (getAST_spec i r s1 HI1) as (HI2 & Hext2 & Hp2).
    set (p := (getAST i r s1).1) in *. set (s2 := (getAST i r s1).2) in *.
    assert (Inv (subscribe p (RThen (KRender q)) s2).2) as HI3.
    { apply subscribe_inv; [done| |done]. intros k [= <-]. simpl.
      split; [by apply (ext_kind _ _ Hext2)|].
      eapply not_started_mono; [done|by eapply cell_kind_lt|done]. }
    set (s3 := (subscribe p (RThen (KRender q)) s2).2) in *.
    destruct (set_html_cache_quiet i <[node_id (the_node s r) := q]> s3) as (? & ? & ? & ?).
    split; [by apply (quiet_inv s3)|].
    apply (extends_trans s s1); [done|]. apply (extends_trans s1 s2); [done|].
    apply (extends_trans s2 s3); [apply subscribe_extends|by apply extends_same].
Qed.

Section Preservation.
Context `{Libraries}.

(** ** The callbacks *)

Lemma call_annotate_step s r t p k pl ys :
  Inv s ∧ (∀ e, e ∈ ys → e < length (promises s)) →
  let e := (call_annotate r t p k pl s).1 in
  let s' := (call_annotate r t p k pl s).2 in
  extends s s' ∧ Inv s' ∧ (∀ e', e' ∈ ys ++ [e] → e' < length (promises s')).
Proof.
  intros (HI & Hlt). unfold call_annotate.
  destruct (annotate pl) as [a|]; msimpl.
  - set (s1 := set_trees (alter (ann_now a) t) s).
    set (c := Promise Pending [] (External (OnTree t (ann_later a)))).
    set (s2 := set_promises (λ h, h ++ [c]) s1).
    assert (Inv s1) as HI1 by by apply (quiet_inv s).
    assert (Inv s2) as HI2 by (apply alloc_inv; [done|done|by left]).
    split; [|split].
    + apply (extends_trans s s1); [by apply extends_same|].
      apply (extends_trans s1 s2); [apply extends_alloc|by apply extends_log].
    + by apply log_benign_inv.
    + intros e' Hin. simpl. rewrite length_app. simpl.
      apply elem_of_app in Hin as [Hin|Hin]; [specialize (Hlt _ Hin); lia|].
      apply list_elem_of_singleton in Hin as ->. simpl. lia.
  - split; [apply extends_alloc|]. split.
    + apply alloc_inv; [done|done|by right].
    + intros e' Hin. simpl. rewrite length_app. simpl.
      apply elem_of_app in Hin as [Hin|Hin]; [specialize (Hlt _ Hin); lia|].
      apply list_elem_of_singleton in Hin as ->. simpl. lia.
Qed.

Lemma call_annotate_loop s r t p pls k0 :
  Inv s →
  let es := (mapM_from (call_annotate r t p) k0 pls s).1 in
  let s' := (mapM_from (call_annotate r t p) k0 pls s).2 in
  extends s s' ∧ Inv s' ∧ (∀ e, e ∈ es → e < length (promises s')).
Proof.
  intros HI.
  apply (mapM_from_ind (call_annotate r t p)
    (λ ys s', extends s s' ∧ Inv s' ∧ (∀ e, e ∈ ys → e < length (promises s'))))
    with (ys := []).
  - intros k x ys s' (Hext & Hrest).
    destruct (call_annotate_step s' r t p k x ys Hrest) as (Hext' & Hrest').
    split; [by eapply extends_trans|done].
  - split; [apply extends_refl|]. split; [done|]. intros e Hin. by apply elem_of_nil in Hin.
Qed.

Lemma parse_and_annotate_inv i r p s :
  Inv s → cell_kind s p = Some KExecutor → fresh_pipeline p s →
  (∀ k e, EMutate p k e ∈ trace s → EFulfilled e ∈ trace s) →
  Inv (parse_and_annotate i r p s).2.
Proof.
  intros HI Hp Hfr Hready. unfold parse_and_annotate. msimpl.
  set (src := node_src (the_node s r)). set (t := length (trees s)).
  set (s1 := set_trees (λ h, h ++ [remark_parse src]) s).
  set (s2 := set_trace (λ tr, tr ++ [EParse p src t]) s1).
  assert (Inv s1) as HI1 by by apply (quiet_inv s).
  assert (Inv s2) as HI2 by by apply log_parse_inv.
  assert (cell_kind s2 p = Some KExecutor ∧ parsed p s2) as Hwf2.
  { split; [done|]. exists src, t. simpl. apply elem_of_app. right. apply list_elem_of_here. }
  destruct (call_annotate_loop s2 r t p (the_plugins s i) 0 HI2) as (Hext3 & HI3 & Hlt3).
  set (es := (mapM_from (call_annotate r t p) 0 (the_plugins s i) s2).1) in *.
  set (s3 := (mapM_from (call_annotate r t p) 0 (the_plugins s i) s2).2) in *.
  destruct (promise_all_spec s3 es HI3 Hlt3) as (Ha & HI4 & Hext4 & Ht4 & _).
  apply subscribe_inv; [done| |done].
  intros k [= <-]. apply (kont_wf_mono s2 _ (KFinish r t p)); [|done].
  by apply (extends_trans s2 s3).
Qed.

Lemma finish_inv r t p s :
  Inv s → cell_kind s p = Some KExecutor → parsed p s → Inv (finish r t p s).2.
Proof.
  intros HI Hp Hparsed. unfold finish. msimpl.
  set (s1 := set_objects (alter (with_ast t) r) s).
  assert (Inv s1) as HI1 by by apply (quiet_inv s).
  assert (cell_kind s1 p = Some KExecutor) as Hp1 by done.
  apply log_benign_inv; [|done]. apply settle_inv; [done|done|..].
  - intros _ Hx. congruence.
  - intros _ c es w Hc Ho.
    assert (cell_kind s1 p = Some KAllOf) by (by rewrite (cell_kind_origin _ _ _ Hc), Ho).
    congruence.
  - done.
Qed.

Lemma run_callback_inv k v s : Inv s → kont_wf s k → 
  (∀ i r p, k = KParse i r p → fresh_pipeline p s
     ∧ ∀ k' e, EMutate p k' e ∈ trace s → EFulfilled e ∈ trace s) →
  Inv (run_callback k v s).2.
Proof.
  intros HI Hwf Hparse. unfold run_callback. msimpl.
  destruct k as [i r p|r t p|r q|q|d|n d|dp d|d]; simpl in Hwf.
  - destruct (Hparse i r p eq_refl) as [Hfr Hready]. by apply parse_and_annotate_inv.
  - destruct Hwf. by apply finish_inv.
  - assert (∀ o, Inv (settle q o s).2) as Hs by (intros; apply settle_plain_inv; eauto).
    destruct v; try apply Hs. destruct (the_tree s r0); [|apply Hs]. msimpl.
    apply settle_plain_inv; [by apply (quiet_inv s)|by left].
  - destruct v; try done. destruct (the_tree s r); [|done]. msimpl.
    destruct Hwf as [Hk Hns].
    set (s1 := set_objects (alter (with_html (to_html t)) r) s).
    assert (Inv s1) as HI1 by by apply (quiet_inv s).
    assert (cell_kind s1 q = Some KExecutor) as Hk1 by done.
    apply settle_inv; [done|done|..].
    + intros _ Hx. congruence.
    + intros _ c es w Hc Ho.
      assert (cell_kind s1 q = Some KAllOf) by (by rewrite (cell_kind_origin _ _ _ Hc), Ho).
      congruence.
    + intros _ Hs. by destruct Hns.
  - destruct v; apply settle_plain_inv; eauto.
  - destruct v; apply settle_plain_inv; eauto.
  - destruct v; apply settle_plain_inv; eauto.
  - destruct v; apply settle_plain_inv; eauto.
Qed.

Lemma skip_callback_inv k s : Inv s → kont_wf s k → Inv (skip_callback k s).2.
Proof.
  intros HI Hwf. destruct k; simpl in *; try done; apply settle_plain_inv; eauto.
Qed.

Lemma notify_all_inv a e ok s :
  Inv s → (ok = true → fulfilled s e) → Inv (notify_all a e ok s).2.
Proof.
  intros HI Hf. unfold notify_all. msimpl.
  destruct (promises s !! a) as [[st rxs [| | | | |es w]]|] eqn:Ha; try done.
  assert (cell_kind s a = Some KAllOf) as Hk by (unfold cell_kind; by rewrite Ha).
  destruct ok; msimpl.
  - set (w' := filter (λ x, x ≠ e) w).
    set (s1 := set_promises <[a := Promise st rxs (AllOf es w')]> s).
    assert (Inv s1) as HI1 by (apply (waiting_inv s a st rxs es w e); auto).
    assert (promises s1 !! a = Some (Promise st rxs (AllOf es w'))) as Ha1.
    { simpl. apply list_lookup_insert_eq. by eapply lookup_lt_Some. }
    destruct (decide (w' = [])) as [Hw|]; [|done]. msimpl.
    apply settle_inv; [done|done|..].
    + intros _. unfold cell_kind. by rewrite Ha1.
    + intros _ c es' w'' Hc Ho. rewrite Ha1 in Hc. injection Hc as <-.
      simpl in Ho. by injection Ho as _ <-.
    + intros _ [id Hs]. pose proof (I_events _ HI1 _ Hs) as Hx. simpl in Hx.
      unfold cell_kind in Hx. by rewrite Ha1 in Hx.
  - apply settle_inv; try done; try (by intros [? ?]). intros _. congruence.
Qed.

Lemma run_next_inv s : Inv s → Inv (run_next s).2.
Proof.
  intros HI. unfold run_next. msimpl.
  destruct (jobs s) as [|j js] eqn:Hj; [done|]. msimpl.
  set (s0 := set_jobs (λ _, js) s).
  assert (Inv s0) as HI0 by by eapply pop_inv.
  assert (j ∈ jobs s) as Hin by (rewrite Hj; apply list_elem_of_here).
  destruct j as [k [v|]|a e ok]; simpl.
  - apply run_callback_inv; [done|exact (I_jobs _ HI _ _ Hin)|].
    intros i r p ->. split; [|exact (I_ready _ HI _ _ _ _ Hin)].
    pose proof (I_once _ HI p) as H1. unfold fresh_pipeline.
    change (count_reg p s0) with (count_reg p s).
    change (parse_count p s0) with (parse_count p s).
    assert (count_job p s = S (count_job p s0)) as Hc.
    { unfold count_job. simpl. rewrite Hj, filter_cons. simpl.
      by rewrite bool_decide_true. }
    lia.
  - apply skip_callback_inv; [done|exact (I_jobs _ HI _ _ Hin)].
  - apply notify_all_inv; [done|]. intros ->. exact (I_jall _ HI _ _ Hin).
Qed.

(** ** Every step keeps the invariant *)

Lemma guarded_inv {A} s i r (m : M A) :
  Inv s → (Inv s → Inv (m s).2) → Inv (guarded s i r m).
Proof. intros HI Hm. unfold guarded. destruct (decide _); auto. Qed.

Lemma exec_inv a s : Inv s → Inv (exec a s).
Proof.
  intros HI. destruct a; simpl.
  - by apply (quiet_inv s).
  - unfold extendNodeType. destruct (decide _); [|done]. msimpl. by apply (quiet_inv s).
  - unfold onNodeCreate. destruct (decide _); [|done]. by apply cache_delete_inv.
  - apply guarded_inv; [done|]. intros _. apply getAST_spec, HI.
  - apply guarded_inv; [done|]. intros _. apply getHeadings_spec, HI.
  - apply guarded_inv; [done|]. intros _. apply getHTML_spec, HI.
  - apply guarded_inv; [done|]. intros _. unfold html_resolve. msimpl.
    apply then_derive_spec; [apply getHTML_spec, HI|done|done].
  - apply guarded_inv; [done|]. intros _. unfold excerpt_resolve. msimpl.
    apply then_derive_spec; [apply getAST_spec, HI|done|done].
  - apply guarded_inv; [done|]. intros _. unfold headings_resolve. msimpl.
    apply then_derive_spec; [apply getHeadings_spec, HI|done|done].
  - apply guarded_inv; [done|]. intros _. unfold timeToRead_resolve. msimpl.
    apply then_derive_spec; [apply getHTML_spec, HI|done|done].
  - by apply settle_external_inv.
  - by apply settle_external_inv.
  - by apply run_next_inv.
Qed.

Lemma Inv_init : Inv init.
Proof.
  split.
  - intros q c k Hq. by compute in Hq.
  - intros k o Hin. by apply elem_of_nil in Hin.
  - intros a e Hin. by apply elem_of_nil in Hin.
  - intros ev Hin. by apply elem_of_nil in Hin.
  - intros q c Hq. by compute in Hq.
  - intros id p Hin. simpl in Hin. by rewrite lookup_empty in Hin.
  - intros e c v Hq. by compute in Hq.
  - intros a c i r p Hq. by compute in Hq.
  - intros i r p v Hin. by apply elem_of_nil in Hin.
  - intros t1 t2 p src t k e Heq. by destruct t1.
  - intros p. compute. lia.
  - intros p [id Hin]. by apply elem_of_nil in Hin.
Qed.

Lemma run_inv acts s : Inv s → Inv (run acts s).
Proof.
  revert s. induction acts as [|a acts IH]; intros s HI; simpl; [done|].
  apply IH. by apply exec_inv.
Qed.

Lemma reachable_inv s : reachable s → Inv s.
Proof. intros [acts ->]. apply run_inv, Inv_init. Qed.

End Preservation.

(** ** What a step keeps of the caches *)

Lemma calm_refl s : calm s s.
Proof. by split. Qed.

Lemma calm_trans s1 s2 s3 : calm s1 s2 → calm s2 s3 → calm s1 s3.
Proof.
  intros [C1 I1 D1 S1] [C2 I2 D2 S2]. split.
  - congruence.
  - congruence.
  - intros r. by rewrite D2, D1.
  - auto.
Qed.

(** a state with the same cache, instances, objects and trace *)
Lemma calm_same s s' :
  astPromiseCache s' = astPromiseCache s → instances s' = instances s →
  objects s' = objects s → trace s' = trace s → calm s s'.
Proof.
  intros Hc Hi Ho Ht. split; try done.
  - intros r. unfold the_node. by rewrite Ho.
  - intros p id. by rewrite Ht.
Qed.

Lemma calm_log s ev :
  (∀ p id, ev ≠ EStart p id) → calm s (set_trace (λ t, t ++ [ev]) s).
Proof.
  intros Hev. split; try done. intros p id Hin. simpl in Hin.
  apply elem_of_app in Hin as [Hin|Hin]; [done|].
  apply list_elem_of_singleton in Hin. by destruct (Hev p id).
Qed.

Lemma calm_alter s r (f : mnode → mnode) :
  (∀ n, node_id (f n) = node_id n) → calm s (set_objects (alter f r) s).
Proof.
  intros Hf. split; try done. intros r'. unfold the_node. simpl.
  rewrite list_lookup_alter. destruct (decide (r = r')) as [->|]; [|done].
  destruct (objects s !! r'); simpl; [apply Hf|done].
Qed.

Lemma settle_calm s q o : calm s (settle q o s).2.
Proof.
  rewrite settle_eq. destruct (promises s !! q) as [[[] rxs org]|];
    try apply calm_refl. by apply calm_same.
Qed.

Lemma subscribe_calm s q rx : calm s (subscribe q rx s).2.
Proof.
  rewrite subscribe_eq. destruct (promises s !! q) as [[st rxs org]|];
    [|apply calm_refl]. destruct (outcome st); by apply calm_same.
Qed.

Lemma subscribe_trace s q rx : trace (subscribe q rx s).2 = trace s.
Proof.
  rewrite subscribe_eq. destruct (promises s !! q) as [[st rxs org]|]; [|done].
  by destruct (outcome st).
Qed.

Lemma settle_trace s q o : trace (settle q o s).2 = trace s.
Proof.
  rewrite settle_eq. by destruct (promises s !! q) as [[[] rxs org]|].
Qed.

Lemma promise_all_calm s es :
  calm s (promise_all es s).2 ∧ trace (promise_all es s).2 = trace s.
Proof.
  unfold promise_all. msimpl.
  set (s1 := set_promises (λ h, h ++ [Promise Pending [] (AllOf es es)]) s).
  assert (calm s s1) as Hc1 by by apply calm_same.
  destruct es as [|e0 es']; msimpl.
  - split; [|by rewrite settle_trace]. eapply calm_trans; [done|apply settle_calm].
  - apply (forM__ind _ (λ s', calm s s' ∧ trace s' = trace s)); [|done].
    intros e s' _ [Hc Ht]. split; [|by rewrite subscribe_trace].
    eapply calm_trans; [done|apply subscribe_calm].
Qed.

Lemma call_mutate_calm s r p k pl :
  calm s (call_mutate r p k pl s).2
  ∧ (∀ q, parse_count q (call_mutate r p k pl s).2 = parse_count q s)
  ∧ (∀ ev, ev ∈ trace s → ev ∈ trace (call_mutate r p k pl s).2).
Proof.
  unfold call_mutate. destruct (mutateSource pl) as [m|]; msimpl.
  - set (s1 := set_objects (alter (with_src (mut_now m)) r) s).
    set (s2 := set_promises _ s1). split; [|split].
    + apply (calm_trans s s1); [by apply calm_alter|].
      apply (calm_trans s1 s2); [by apply calm_same|]. by apply calm_log.
    + intros q. by rewrite parse_count_log.
    + intros ev Hin. simpl. apply elem_of_app. by left.
  - split; [by apply calm_same|done].
Qed.

Lemma call_mutate_loop_calm s r p pls k0 :
  calm s (mapM_from (call_mutate r p) k0 pls s).2
  ∧ (∀ q, parse_count q (mapM_from (call_mutate r p) k0 pls s).2 = parse_count q s)
  ∧ (∀ ev, ev ∈ trace s → ev ∈ trace (mapM_from (call_mutate r p) k0 pls s).2).
Proof.
  apply (mapM_from_ind (call_mutate r p)
    (λ _ s', calm s s' ∧ (∀ q, parse_count q s' = parse_count q s)
             ∧ (∀ ev, ev ∈ trace s → ev ∈ trace s'))) with (ys := []).
  - intros k x _ s' (Hc & Hp & Ht).
    destruct (call_mutate_calm s' r p k x) as (Hc' & Hp' & Ht').
    split; [by eapply calm_trans|]. split; [|by auto]. intros q. by rewrite Hp', Hp.
  - split; [apply calm_refl|done].
Qed.

Lemma getAST_hit i r s p :
  astPromiseCache s !! node_id (the_node s r) = Some p → getAST i r s = (p, s).
Proof. intros Hhit. unfold getAST. msimpl. by rewrite Hhit. Qed.

(** a miss: the promise is new, the cache gets it, no parse has run *)
Lemma getAST_miss i r s :
  astPromiseCache s !! node_id (the_node s r) = None →
  let id := node_id (the_node s r) in
  let p := length (promises s) in
  let s' := (getAST i r s).2 in
  (getAST i r s).1 = p
  ∧ astPromiseCache s' = <[id := p]> (astPromiseCache s)
  ∧ instances s' = instances s
  ∧ (∀ r', node_id (the_node s' r') = node_id (the_node s r'))
  ∧ (∀ q, parse_count q s' = parse_count q s)
  ∧ (∀ p' id', EStart p' id' ∈ trace s' → EStart p' id' ∈ trace s ∨ (p' = p ∧ id' = id))
  ∧ EStart p id ∈ trace s'.
Proof.
  intros Hmiss. cbv zeta. unfold getAST. msimpl. rewrite Hmiss. msimpl.
  set (id := node_id (the_node s r)). set (p := length (promises s)).
  set (s1 := set_promises (λ h, h ++ [Promise Pending [] Executor]) s).
  set (s2 := set_trace (λ t, t ++ [EStart p id]) s1).
  destruct (call_mutate_loop_calm s2 r p (the_plugins s i) 0) as (Hc3 & Hp3 & Hin3).
  set (ms := (mapM_from (call_mutate r p) 0 (the_plugins s i) s2).1) in *.
  set (s3 := (mapM_from (call_mutate r p) 0 (the_plugins s i) s2).2) in *.
  destruct (promise_all_calm s3 ms) as [Hc4 Ht4].
  set (a := (promise_all ms s3).1) in *. set (s4 := (promise_all ms s3).2) in *.
  pose proof (subscribe_calm s4 a (RThen (KParse i r p))) as Hc5.
  pose proof (subscribe_trace s4 a (RThen (KParse i r p))) as Ht5.
  set (s5 := (subscribe a (RThen (KParse i r p)) s4).2) in *.
  assert (calm s2 s5) as Hc.
  { apply (calm_trans s2 s3); [done|]. by apply (calm_trans s3 s4). }
  assert (trace s5 = trace s3) as Ht by congruence.
  split; [done|]. split; [|split; [|split; [|split; [|split]]]].
  - simpl. by rewrite (calm_cache _ _ Hc).
  - simpl. by rewrite (calm_instances _ _ Hc).
  - intros r'. change (the_node (set_cache _ s5) r') with (the_node s5 r').
    by rewrite (calm_ids _ _ Hc).
  - intros q. change (parse_count q (set_cache _ s5)) with (parse_count q s5).
    unfold parse_count at 1. rewrite Ht. fold (parse_count q s3). rewrite Hp3.
    unfold s2. rewrite parse_count_log. simpl. unfold parse_count, s1. simpl. lia.
  - intros p' id' Hin. simpl in Hin. apply (calm_starts _ _ Hc) in Hin. simpl in Hin.
    apply elem_of_app in Hin as [Hin|Hin]; [by left|].
    apply list_elem_of_singleton in Hin. injection Hin as -> ->. by right.
  - simpl. rewrite Ht. apply Hin3. simpl. apply elem_of_app. right. apply list_elem_of_here.
Qed.

Lemma keeps_refl id s : keeps id s s.
Proof. by intros p Hp. Qed.

Lemma keeps_trans id s1 s2 s3 : keeps id s1 s2 → keeps id s2 s3 → keeps id s1 s3.
Proof.
  intros H1 H2 p Hp. destruct (H1 p Hp) as [Hp2 Hs2]. destruct (H2 p Hp2) as [Hp3 Hs3].
  split; [done|]. auto.
Qed.

Lemma calm_keeps id s s' : calm s s' → keeps id s s'.
Proof.
  intros [Hc _ _ Hs] p Hp. rewrite Hc. split; [done|]. intros p'. apply Hs.
Qed.

Lemma getAST_keeps id i r s : keeps id s (getAST i r s).2.
Proof.
  intros p Hp.
  destruct (astPromiseCache s !! node_id (the_node s r)) as [p0|] eqn:Hhit.
  - by rewrite (getAST_hit i r s p0 Hhit).
  - destruct (getAST_miss i r s Hhit) as (_ & Hc & _ & _ & _ & Hs & _).
    assert (node_id (the_node s r) ≠ id) as Hne.
    { intros Heq. rewrite Heq in Hhit. congruence. }
    rewrite Hc. split; [by rewrite lookup_insert_ne|].
    intros p' Hin. destruct (Hs _ _ Hin) as [?|[_ ?]]; [done|]. by destruct Hne.
Qed.

Lemma then_derive_calm s p mk : calm s (then_derive p mk s).2.
Proof.
  unfold then_derive. msimpl.
  set (s1 := set_promises _ s). apply (calm_trans s s1); [by apply calm_same|].
  apply subscribe_calm.
Qed.

Lemma getHeadings_keeps id i r s : keeps id s (getHeadings i r s).2.
Proof.
  unfold getHeadings. msimpl. set (s1 := set_promises _ s).
  assert (keeps id s s1) as H1 by by apply calm_keeps, calm_same.
  destruct (node_headings (the_node s r)); msimpl.
  - eapply keeps_trans; [done|]. apply calm_keeps, settle_calm.
  - eapply keeps_trans; [done|]. eapply keeps_trans; [apply getAST_keeps|].
    apply calm_keeps, subscribe_calm.
Qed.

Lemma getHTML_keeps id i r s : keeps id s (getHTML i r s).2.
Proof.
  unfold getHTML. msimpl.
  destruct (the_html_cache s i !! node_id (the_node s r)); msimpl; [apply keeps_refl|].
  set (s1 := set_promises _ s).
  assert (keeps id s s1) as H1 by by apply calm_keeps, calm_same.
  eapply keeps_trans; [done|]. eapply keeps_trans; [apply getAST_keeps|].
  eapply keeps_trans; [apply calm_keeps, subscribe_calm|].
  intros p Hp. split; [exact Hp|intros p' Hin; exact Hin].
Qed.

Lemma settle_external_calm s e ok : calm s (settle_external e ok s).2.
Proof.
  unfold settle_external. msimpl.
  destruct (promises s !! e) as [[[] rxs [| | | |eff|]]|]; try apply calm_refl.
  destruct ok; msimpl.
  - set (s1 := (apply_effect eff s).2).
    assert (calm s s1) as H1.
    { unfold s1. destruct eff; simpl; msimpl; [by apply calm_alter|by apply calm_same]. }
    apply (calm_trans s s1); [done|].
    eapply calm_trans; [apply settle_calm|]. by apply calm_log.
  - eapply calm_trans; [apply settle_calm|]. by apply calm_log.
Qed.

Section Epoch.
Context `{Libraries}.

Lemma call_annotate_calm s r t p k pl : calm s (call_annotate r t p k pl s).2.
Proof.
  unfold call_annotate. destruct (annotate pl) as [a|]; msimpl.
  - set (s1 := set_trees _ s). set (s2 := set_promises _ s1).
    apply (calm_trans s s1); [by apply calm_same|].
    apply (calm_trans s1 s2); [by apply calm_same|]. by apply calm_log.
  - by apply calm_same.
Qed.

Lemma parse_and_annotate_calm i r p s : calm s (parse_and_annotate i r p s).2.
Proof.
  unfold parse_and_annotate. msimpl.
  set (s1 := set_trees _ s). set (s2 := set_trace _ s1).
  assert (calm s s2) as H2.
  { apply (calm_trans s s1); [by apply calm_same|]. by apply calm_log. }
  assert (calm s2 (mapM_from (call_annotate r (length (trees s)) p) 0 (the_plugins s i) s2).2) as H3.
  { apply (mapM_from_ind (call_annotate r (length (trees s)) p) (λ _ s', calm s2 s'))
      with (ys := []); [|apply calm_refl].
    intros k x _ s' Hc. eapply calm_trans; [done|apply call_annotate_calm]. }
  eapply calm_trans; [done|]. eapply calm_trans; [done|].
  eapply calm_trans; [apply promise_all_calm|apply subscribe_calm].
Qed.

Lemma finish_calm r t p s : calm s (finish r t p s).2.
Proof.
  unfold finish. msimpl. set (s1 := set_objects _ s).
  apply (calm_trans s s1); [by apply calm_alter|].
  eapply calm_trans; [apply settle_calm|]. by apply calm_log.
Qed.

Lemma run_callback_calm k v s : calm s (run_callback k v s).2.
Proof.
  unfold run_callback. msimpl.
  destruct k; [apply parse_and_annotate_calm|apply finish_calm|..];
    destruct v; try apply settle_calm; try apply calm_refl.
  - destruct (the_tree s r0); msimpl; [|apply settle_calm].
    eapply calm_trans; [|apply settle_calm]. by apply calm_alter.
  - destruct (the_tree s r); msimpl; [|apply calm_refl].
    eapply calm_trans; [|apply settle_calm]. by apply calm_alter.
Qed.

Lemma skip_callback_calm k s : calm s (skip_callback k s).2.
Proof. destruct k; simpl; try apply calm_refl; apply settle_calm. Qed.

Lemma notify_all_calm a e ok s : calm s (notify_all a e ok s).2.
Proof.
  unfold notify_all. msimpl.
  destruct (promises s !! a) as [[st rxs [| | | | |es w]]|]; try apply calm_refl.
  destruct ok; msimpl; [|apply settle_calm].
  set (s1 := set_promises _ s). assert (calm s s1) by by apply calm_same.
  destruct (decide _); msimpl; [|done]. eapply calm_trans; [done|apply settle_calm].
Qed.

Lemma run_next_calm s : calm s (run_next s).2.
Proof.
  unfold run_next. msimpl. destruct (jobs s) as [|j js]; [apply calm_refl|]. msimpl.
  set (s0 := set_jobs _ s). apply (calm_trans s s0); [by apply calm_same|].
  destruct j as [k [v|]|a e ok]; simpl;
    [apply run_callback_calm|apply skip_callback_calm|apply notify_all_calm].
Qed.

Lemma guarded_keeps {A} id s i r (m : M A) :
  keeps id s (m s).2 → keeps id s (guarded s i r m).
Proof. intros Hm. unfold guarded. destruct (decide _); [done|apply keeps_refl]. Qed.

Lemma exec_keeps id a s : ¬ invalidates id a → keeps id s (exec a s).
Proof.
  intros Hni. destruct a; simpl.
  - intros p Hp. split; [exact Hp|intros p' Hin; exact Hin].
  - unfold extendNodeType. destruct (decide _); [|apply keeps_refl]. msimpl.
    intros p Hp. split; [exact Hp|intros p' Hin; exact Hin].
  - unfold onNodeCreate. destruct (decide _) as [Hty|]; [|apply keeps_refl].
    intros p Hp. simpl. split; [|intros p' Hin; exact Hin]. rewrite lookup_delete_ne; [done|].
    intros Heq. apply Hni. by exists n.
  - apply guarded_keeps, getAST_keeps.
  - apply guarded_keeps, getHeadings_keeps.
  - apply guarded_keeps, getHTML_keeps.
  - apply guarded_keeps. unfold html_resolve. msimpl.
    eapply keeps_trans; [apply getHTML_keeps|apply calm_keeps, then_derive_calm].
  - apply guarded_keeps. unfold excerpt_resolve. msimpl.
    eapply keeps_trans; [apply getAST_keeps|apply calm_keeps, then_derive_calm].
  - apply guarded_keeps. unfold headings_resolve. msimpl.
    eapply keeps_trans; [apply getHeadings_keeps|apply calm_keeps, then_derive_calm].
  - apply guarded_keeps. unfold timeToRead_resolve. msimpl.
    eapply keeps_trans; [apply getHTML_keeps|apply calm_keeps, then_derive_calm].
  - apply calm_keeps, settle_external_calm.
  - apply calm_keeps, settle_external_calm.
  - apply calm_keeps, run_next_calm.
Qed.

Lemma run_keeps id acts s :
  (∀ a, a ∈ acts → ¬ invalidates id a) → keeps id s (run acts s).
Proof.
  revert s. induction acts as [|a acts IH]; intros s Hni; simpl; [apply keeps_refl|].
  apply (keeps_trans id s (exec a s)).
  - apply exec_keeps, Hni, list_elem_of_here.
  - apply IH. intros a' Ha'. by apply Hni, list_elem_of_further.
Qed.

End Epoch.

(** ** What a run keeps of the promises and the trace *)

Lemma settle_external_extends s e ok : extends s (settle_external e ok s).2.
Proof.
  unfold settle_external. msimpl.
  destruct (promises s !! e) as [[[] rxs [| | | |eff|]]|] eqn:He;
    try apply extends_refl.
  destruct ok; msimpl.
  - destruct (apply_effect_quiet eff s) as (Hc & Hp & Hj & Ht).
    set (s1 := (apply_effect eff s).2) in *.
    apply (extends_trans s s1); [by apply extends_same|].
    apply (extends_trans s1 (settle e (Some VUndefined) s1).2);
      [apply settle_extends|by apply extends_log].
  - apply (extends_trans s (settle e None s).2);
      [apply settle_extends|by apply extends_log].
Qed.

Section History.
Context `{Libraries}.

Lemma parse_and_annotate_extends i r p s :
  Inv s → cell_kind s p = Some KExecutor → fresh_pipeline p s →
  (∀ k e, EMutate p k e ∈ trace s → EFulfilled e ∈ trace s) →
  extends s (parse_and_annotate i r p s).2.
Proof.
  intros HI Hp Hfr Hready. unfold parse_and_annotate. msimpl.
  set (src := node_src (the_node s r)). set (t := length (trees s)).
  set (s1 := set_trees (λ h, h ++ [remark_parse src]) s).
  set (s2 := set_trace (λ tr, tr ++ [EParse p src t]) s1).
  assert (Inv s1) as HI1 by by apply (quiet_inv s).
  assert (Inv s2) as HI2 by by apply log_parse_inv.
  destruct (call_annotate_loop s2 r t p (the_plugins s i) 0 HI2) as (Hext3 & HI3 & Hlt3).
  set (es := (mapM_from (call_annotate r t p) 0 (the_plugins s i) s2).1) in *.
  set (s3 := (mapM_from (call_annotate r t p) 0 (the_plugins s i) s2).2) in *.
  destruct (promise_all_spec s3 es HI3 Hlt3) as (Ha & HI4 & Hext4 & Ht4 & _).
  apply (extends_trans s s1); [by apply extends_same|].
  apply (extends_trans s1 s2); [by apply extends_log|].
  apply (extends_trans s2 s3); [done|].
  apply (extends_trans s3 (promise_all es s3).2); [done|].
  apply subscribe_extends.
Qed.

Lemma finish_extends r t p s : extends s (finish r t p s).2.
Proof.
  unfold finish. msimpl.
  set (s1 := set_objects (alter (with_ast t) r) s).
  apply (extends_trans s s1); [by apply extends_same|].
  apply (extends_trans s1 (settle p (Some (VNode r)) s1).2);
    [apply settle_extends|by apply extends_log].
Qed.

Lemma run_callback_extends k v s :
  Inv s → kont_wf s k →
  (∀ i r p, k = KParse i r p → fresh_pipeline p s
     ∧ ∀ k' e, EMutate p k' e ∈ trace s → EFulfilled e ∈ trace s) →
  extends s (run_callback k v s).2.
Proof.
  intros HI Hwf Hparse. unfold run_callback. msimpl.
  destruct k as [i r p|r t p|r q|q|d|n d|dp d|d]; simpl in Hwf.
  - destruct (Hparse i r p eq_refl) as [Hfr Hready]. by apply parse_and_annotate_extends.
  - apply finish_extends.
  - destruct v; try apply settle_extends.
    destruct (the_tree s r0); [|apply settle_extends]. msimpl.
    set (s1 := set_objects _ s).
    apply (extends_trans s s1); [by apply extends_same|apply settle_extends].
  - destruct v; try apply extends_refl.
    destruct (the_tree s r); [|apply extends_refl]. msimpl.
    set (s1 := set_objects _ s).
    apply (extends_trans s s1); [by apply extends_same|apply settle_extends].
  - destruct v; apply settle_extends.
  - destruct v; apply settle_extends.
  - destruct v; apply settle_extends.
  - destruct v; apply settle_extends.
Qed.

Lemma skip_callback_extends k s : extends s (skip_callback k s).2.
Proof. destruct k; simpl; try apply extends_refl; apply settle_extends. Qed.

Lemma notify_all_extends a e ok s : extends s (notify_all a e ok s).2.
Proof.
  unfold notify_all. msimpl.
  destruct (promises s !! a) as [[st rxs [| | | | |es w]]|] eqn:Ha;
    try apply extends_refl.
  destruct ok; msimpl; [|apply settle_extends].
  set (w' := filter (λ x, x ≠ e) w).
  set (s1 := set_promises <[a := Promise st rxs (AllOf es w')]> s).
  assert (extends s s1) as H1 by by eapply extends_update.
  destruct (decide (w' = [])); [|done]. msimpl.
  apply (extends_trans s s1); [done|apply settle_extends].
Qed.

Lemma run_next_extends s : Inv s → extends s (run_next s).2.
Proof.
  intros HI. unfold run_next. msimpl.
  destruct (jobs s) as [|j js] eqn:Hj; [apply extends_refl|]. msimpl.
  set (s0 := set_jobs (λ _, js) s).
  assert (Inv s0) as HI0 by by eapply pop_inv.
  assert (j ∈ jobs s) as Hin by (rewrite Hj; apply list_elem_of_here).
  apply (extends_trans s s0); [by apply extends_same|].
  destruct j as [k [v|]|a e ok]; simpl.
  - apply run_callback_extends; [done|exact (I_jobs _ HI _ _ Hin)|].
    intros i r p ->. split; [|exact (I_ready _ HI _ _ _ _ Hin)].
    pose proof (I_once _ HI p) as H1. unfold fresh_pipeline.
    change (count_reg p s0) with (count_reg p s).
    change (parse_count p s0) with (parse_count p s).
    assert (count_job p s = S (count_job p s0)) as Hc.
    { unfold count_job. simpl. rewrite Hj, filter_cons. simpl.
      by rewrite bool_decide_true. }
    lia.
  - apply skip_callback_extends.
  - apply notify_all_extends.
Qed.

Lemma guarded_extends {A} s i r (m : M A) :
  extends s (m s).2 → extends s (guarded s i r m).
Proof. intros Hm. unfold guarded. destruct (decide _); [done|apply extends_refl]. Qed.

Lemma derive_extends (m : M pid) mk s :
  Inv (m s).2 ∧ extends s (m s).2 →
  (∀ d s', cell_kind s' d = Some KDerived → kont_wf s' (mk d)) →
  (∀ d i r p', mk d ≠ KParse i r p') →
  extends s (then_derive (m s).1 mk (m s).2).2.
Proof.
  intros [HI Hext] Hwf Hnp. apply (extends_trans s (m s).2); [done|].
  by apply then_derive_spec.
Qed.

Lemma exec_extends a s : Inv s → extends s (exec a s).
Proof.
  intros HI. destruct a; simpl.
  - by apply extends_same.
  - unfold extendNodeType. destruct (decide _); [|apply extends_refl]. msimpl.
    by apply extends_same.
  - unfold onNodeCreate. destruct (decide _); [|apply extends_refl]. by apply extends_same.
  - apply guarded_extends. apply getAST_spec, HI.
  - apply guarded_extends. apply getHeadings_spec, HI.
  - apply guarded_extends. apply getHTML_spec, HI.
  - apply guarded_extends. unfold html_resolve. msimpl.
    apply derive_extends; [apply getHTML_spec, HI|done|done].
  - apply guarded_extends. unfold excerpt_resolve. msimpl.
    apply derive_extends; [|done|done].
    destruct (getAST_spec i r s HI) as (? & ? & _). done.
  - apply guarded_extends. unfold headings_resolve. msimpl.
    apply derive_extends; [|done|done].
    destruct (getHeadings_spec i r s HI) as (? & ? & _). done.
  - apply guarded_extends. unfold timeToRead_resolve. msimpl.
    apply derive_extends; [apply getHTML_spec, HI|done|done].
  - apply settle_external_extends.
  - apply settle_external_extends.
  - by apply run_next_extends.
Qed.

Lemma run_extends acts s : Inv s → extends s (run acts s).
Proof.
  revert s. induction acts as [|a acts IH]; intros s HI; simpl; [apply extends_refl|].
  apply (extends_trans s (exec a s)); [by apply exec_extends|].
  apply IH. by apply exec_inv.
Qed.

End History.

(** ** A run with one plugin that only mutates the source *)

Section MutateOnly.
Context `{Libraries}.



End MutateOnly.

(** * The pipeline, from the first call to the last callback *)

(** ** One pipeline per cache epoch *)

(** C1: a call of [getAST] on a record whose identifier is in the AST cache
    returns the cached promise and changes nothing; on a miss the call
    returns with a new, still pending promise stored in the cache under the
    identifier, before any parse (which only a later job runs) has taken
    place.  From then on, whatever is executed short of an invalidation of
    the identifier, the entry stays, every call of [getAST] for the
    identifier - from any closure, on any record with that identifier,
    whether the promise is still pending or settled - returns that same
    promise and changes nothing, no pipeline is started for the identifier
    again, and the pipeline of the entry parses at most once. *)
Theorem getAST_one_pipeline_per_epoch `{Libraries}
    (s : state) (i : nat) (r : ref) (acts : list action) :
  let id := node_id (the_node s r) in
  let p := (getAST i r s).1 in
  let s1 := (getAST i r s).2 in
  let s2 := run acts s1 in
  reachable s →
  (∀ a, a ∈ acts → ¬ invalidates id a) →
  (∀ p0, astPromiseCache s !! id = Some p0 → getAST i r s = (p0, s))
  ∧ (astPromiseCache s !! id = None →
       pending s1 p
       ∧ ∀ q, parse_count q s1 = parse_count q s)
  ∧ astPromiseCache s1 !! id = Some p
  ∧ astPromiseCache s2 !! id = Some p
  ∧ (∀ i' r', node_id (the_node s2 r') = id → getAST i' r' s2 = (p, s2))
  ∧ (∀ p', EStart p' id ∈ trace s2 → EStart p' id ∈ trace s1)
  ∧ parse_count p s2 ≤ 1.
Proof.
  intros id p s1 s2 Hreach Hni.
  pose proof (reachable_inv s Hreach) as HI.
  destruct (getAST_spec i r s HI) as (HI1 & Hext & Hkind).
  fold p in Hkind. fold s1 in HI1, Hext, Hkind.
  assert (astPromiseCache s1 !! id = Some p) as Hc1.
  { destruct (astPromiseCache s !! id) as [p0|] eqn:Hhit.
    - unfold s1, p. by rewrite (getAST_hit i r s p0 Hhit).
    - destruct (getAST_miss i r s Hhit) as (Hp & Hc & _).
      unfold s1, p. rewrite Hc, Hp. apply lookup_insert_eq. }
  destruct (run_keeps id acts s1 Hni p Hc1) as [Hc2 Hst].
  fold s2 in Hc2, Hst.
  pose proof (run_inv acts s1 HI1) as HI2. fold s2 in HI2.
  split; [|split; [|split; [|split; [|split; [|split]]]]].
  - intros p0 Hhit. by apply getAST_hit.
  - intros Hmiss.
    destruct (getAST_miss i r s Hmiss) as (Hp & _ & _ & _ & Hpc & _ & Hstart).
    fold p in Hp. fold s1 in Hpc, Hstart. rewrite <- Hp in Hstart.
    split; [|exact Hpc].
    assert (parse_count p s1 = 0) as H0.
    { rewrite Hpc. pose proof (fresh_pipeline_new p s HI) as Hf.
      unfold fresh_pipeline in Hf. rewrite Hp in *. lia. }
    unfold cell_kind in Hkind.
    destruct (promises s1 !! p) as [c|] eqn:Hc; [|done].
    exists c. split; [done|].
    destruct (p_state c) as [|v|] eqn:Hs; [done| |].
    + assert (parsed p s1) as Hpar.
      { apply (I_done _ HI1); [by exists id|by exists c, v]. }
      apply parsed_count in Hpar. lia.
    + simpl in Hkind. destruct (p_origin c) eqn:Ho; try done.
      by destruct (I_norej _ HI1 p c Hc Ho).
  - exact Hc1.
  - exact Hc2.
  - intros i' r' Hid. apply getAST_hit. by rewrite Hid.
  - exact Hst.
  - pose proof (I_once _ HI2 p). lia.
Qed.

Lemma getAST_one_pipeline_per_epoch_witness :
  let s := @run sample_libraries one_record init in
  let acts := OnNodeCreate other_node :: plugin_fulfils ++ [GetAST 0 0] in
  let s2 := @run sample_libraries acts (getAST 0 0 s).2 in
  @reachable sample_libraries s
  ∧ (∀ a, a ∈ acts → ¬ invalidates (node_id (the_node s 0)) a)
  ∧ astPromiseCache s2 !! "a.md" = Some 0
  ∧ parse_count 0 s2 ≤ 1.
Proof.
  intros s acts s2.
  assert (@reachable sample_libraries s) as Hreach by by exists one_record.
  assert (∀ a, a ∈ acts → ¬ invalidates (node_id (the_node s 0)) a) as Hni.
  { intros a Ha (n & -> & Hty & _). unfold acts, plugin_fulfils in Ha. simpl in Ha.
    apply elem_of_cons in Ha as [Ha|Ha]; [injection Ha as ->; discriminate|].
    repeat (apply elem_of_cons in Ha as [Ha|Ha]; [discriminate|]).
    by apply elem_of_nil in Ha. }
  split; [exact Hreach|]. split; [exact Hni|].
  pose proof (@getAST_one_pipeline_per_epoch sample_libraries s 0 0 acts Hreach Hni)
    as (_ & _ & _ & Hc & _ & _ & Hp).
  split; [exact Hc|exact Hp].
Defined.

(** ** A rejected plugin promise *)

(** the promise of a pipeline is never rejected: the executor of line 57
    never calls its [reject] *)
Lemma executor_never_rejected s p :
  Inv s → cell_kind s p = Some KExecutor → ¬ rejected s p.
Proof.
  intros HI Hk (c & Hc & Hr). unfold cell_kind in Hk. rewrite Hc in Hk. simpl in Hk.
  destruct (p_origin c) eqn:Ho; try done.
  by destruct (I_norej _ HI p c Hc Ho).
Qed.

Lemma rejected_mutation_no_parse s p k e :
  Inv s → EMutate p k e ∈ trace s → rejected s e → parse_count p s = 0.
Proof.
  intros HI Hm Hr. apply parse_count_zero. intros (src & t & Hin).
  apply list_elem_of_split in Hin as (t1 & t2 & Heq).
  pose proof (I_ordered _ HI t1 t2 p src t k e Heq Hm) as Hf.
  assert (EFulfilled e ∈ trace s) as Hf'.
  { rewrite Heq. apply elem_of_app. by left. }
  apply (I_events _ HI) in Hf'. simpl in Hf'.
  by destruct (fulfilled_not_rejected s e).
Qed.

Lemma rejected_mutation_pending s p k e :
  Inv s → started p s → EMutate p k e ∈ trace s → rejected s e → pending s p.
Proof.
  intros HI Hs Hm Hr.
  pose proof (rejected_mutation_no_parse s p k e HI Hm Hr) as H0.
  destruct Hs as [id Hs]. pose proof (I_events _ HI _ Hs) as Hk. simpl in Hk.
  pose proof (executor_never_rejected s p HI Hk) as Hnr.
  unfold cell_kind in Hk. destruct (promises s !! p) as [c|] eqn:Hc; [|done].
  exists c. split; [done|].
  destruct (p_state c) as [|v|] eqn:Hst; [done| |].
  - assert (parsed p s) as Hp by (apply (I_done _ HI); [by exists id|by exists c, v]).
    apply parsed_count in Hp. lia.
  - destruct Hnr. by exists c.
Qed.

Section Stuck.
Context `{Libraries}.

(** and nothing that happens later changes that *)
Lemma rejected_mutation_forever s p k e acts :
  Inv s → started p s → EMutate p k e ∈ trace s → rejected s e →
  pending (run acts s) p ∧ parse_count p (run acts s) = 0.
Proof.
  intros HI [id Hs] Hm Hr.
  pose proof (run_inv acts s HI) as HI'. pose proof (run_extends acts s HI) as Hext.
  assert (EMutate p k e ∈ trace (run acts s)) as Hm' by by apply (ext_trace _ _ Hext).
  assert (rejected (run acts s) e) as Hr' by by apply (ext_rejected _ _ Hext).
  split.
  - apply (rejected_mutation_pending _ p k e); [done| |done|done].
    exists id. by apply (ext_trace _ _ Hext).
  - by apply (rejected_mutation_no_parse _ p k e).
Qed.

End Stuck.

(** C2: when a plugin's promise rejects, the pipeline's promise is not
    rejected: it stays pending, and so do the promises of those who wait for
    it.  With the sample libraries and one plugin whose mutate-source promise
    (promise 1) rejects: once the queue is drained, the cache still holds
    promise 0 for the record, promise 0 is pending with the callbacks of the
    two excerpt queries - one made before the rejection, one after - still
    registered on it, the promises of the two queries (3 and 4) are
    pending, and whatever is executed from then on promise 0 stays pending.
    With one plugin whose annotation promise (promise 4) rejects: once the
    queue is drained, promise 0 is pending with both callbacks registered,
    the promises of the two queries (3 and 6) are pending, and promise 0 is
    never rejected.  In both runs the record has no [ast]. *)
Theorem getAST_plugin_rejection_leaves_pending :
  let s := @run sample_libraries plugin_rejects init in
  let s' := @run sample_libraries annotation_rejects init in
  (rejected s 1
   ∧ jobs s = []
   ∧ astPromiseCache s !! "a.md" = Some 0
   ∧ promises s !! 0
     = Some (Promise Pending [RThen (KExcerpt 140 3); RThen (KExcerpt 140 4)] Executor)
   ∧ pending s 3 ∧ pending s 4
   ∧ node_ast (the_node s 0) = None
   ∧ ∀ acts, pending (@run sample_libraries acts s) 0)
  ∧ (rejected s' 4
     ∧ jobs s' = []
     ∧ astPromiseCache s' !! "a.md" = Some 0
     ∧ promises s' !! 0
       = Some (Promise Pending [RThen (KExcerpt 140 3); RThen (KExcerpt 140 6)] Executor)
     ∧ pending s' 3 ∧ pending s' 6
     ∧ node_ast (the_node s' 0) = None
     ∧ ∀ acts, ¬ rejected (@run sample_libraries acts s') 0).
Proof.
  intros s s'.
  assert (Inv s) as HI by apply (@run_inv sample_libraries), Inv_init.
  assert (Inv s') as HI' by apply (@run_inv sample_libraries), Inv_init.
  split.
  - assert (rejected s 1) as Hr by (eexists; split; [vm_compute; reflexivity|reflexivity]).
    split; [exact Hr|]. split; [reflexivity|]. split; [reflexivity|].
    split; [reflexivity|].
    split; [eexists; split; [vm_compute; reflexivity|reflexivity]|].
    split; [eexists; split; [vm_compute; reflexivity|reflexivity]|].
    split; [reflexivity|].
    intros acts.
    apply (@rejected_mutation_forever sample_libraries s 0 0 1 acts HI); [| |exact Hr].
    + exists "a.md". vm_compute. apply list_elem_of_here.
    + vm_compute. apply list_elem_of_further, list_elem_of_here.
  - split; [eexists; split; [vm_compute; reflexivity|reflexivity]|].
    split; [reflexivity|]. split; [reflexivity|]. split; [reflexivity|].
    split; [eexists; split; [vm_compute; reflexivity|reflexivity]|].
    split; [eexists; split; [vm_compute; reflexivity|reflexivity]|].
    split; [reflexivity|].
    intros acts. apply executor_never_rejected.
    + by apply (@run_inv sample_libraries).
    + apply (ext_kind s'); [by apply (@run_extends sample_libraries)|reflexivity].
Qed.

(** ** One parse, after the mutations *)




(** ** A plugin without the annotation capability *)



(** ** Which closures share which cache *)

Lemma getAST_calm i r s : 
  instances (getAST i r s).2 = instances s
  ∧ (∀ r', node_id (the_node (getAST i r s).2 r') = node_id (the_node s r'))
  ∧ astPromiseCache (getAST i r s).2 !! node_id (the_node s r) = Some (getAST i r s).1.
Proof.
  destruct (astPromiseCache s !! node_id (the_node s r)) as [p|] eqn:Hhit.
  - by rewrite (getAST_hit i r s p Hhit).
  - destruct (getAST_miss i r s Hhit) as (Hp & Hc & Hi & Hid & _).
    split; [done|]. split; [done|]. rewrite Hc, Hp. apply lookup_insert_eq.
Qed.

Lemma the_html_cache_alter s i j f :
  the_html_cache
    (set_instances (alter (λ c, Instance (inst_plugins c) (f (htmlPromisesCache c))) i) s) j
  = if decide (j = i) then
      if decide (i < length (instances s)) then f (the_html_cache s i) else ∅
    else the_html_cache s j.
Proof.
  unfold the_html_cache. simpl. destruct (decide (j = i)) as [->|Hne].
  - rewrite list_lookup_alter_eq. destruct (decide _) as [Hlt|Hge].
    + apply lookup_lt_is_Some in Hlt as [c Hc]. by rewrite Hc.
    + rewrite lookup_ge_None_2 by lia. done.
  - by rewrite list_lookup_alter_ne.
Qed.

(** C9, as amended: the AST cache is one map for all the closures that
    [extendNodeType] makes - after a call of [getAST] through closure [i], a
    call through any closure [j] for the same record returns the same
    promise and changes nothing - while each closure has an HTML cache of
    its own: a call of [getHTML] through closure [i] leaves the record's
    promise in the HTML cache of [i] and leaves the HTML cache of every
    other closure as it was. *)
Theorem astPromiseCache_shared_htmlPromisesCache_per_closure
    (s : state) (i j : nat) (r : ref) :
  i < length (instances s) → j ≠ i →
  getAST j r (getAST i r s).2 = ((getAST i r s).1, (getAST i r s).2)
  ∧ the_html_cache (getHTML i r s).2 i !! node_id (the_node s r) = Some (getHTML i r s).1
  ∧ the_html_cache (getHTML i r s).2 j = the_html_cache s j.
Proof.
  intros Hi Hne. split; [|].
  - destruct (getAST_calm i r s) as (_ & Hid & Hc).
    apply getAST_hit. by rewrite Hid.
  - unfold getHTML. msimpl.
    destruct (the_html_cache s i !! node_id (the_node s r)) as [q|] eqn:Hhit; msimpl;
      [done|].
    set (q := length (promises s)).
    set (s1 := set_promises (λ h, h ++ [Promise Pending [] Executor]) s).
    set (s2 := (getAST i r s1).2). set (p := (getAST i r s1).1).
    set (s3 := (subscribe p (RThen (KRender q)) s2).2).
    assert (instances s3 = instances s) as Hinst.
    { unfold s3. rewrite (calm_instances _ _ (subscribe_calm s2 p _)).
      unfold s2. by destruct (getAST_calm i r s1) as (-> & _). }
    unfold set_html_cache. msimpl. rewrite !the_html_cache_alter.
    rewrite decide_True by done. rewrite decide_True by (by rewrite Hinst).
    rewrite decide_False by done.
    unfold the_html_cache. rewrite !Hinst. split; [apply lookup_insert_eq|done].
Qed.

Lemma astPromiseCache_shared_htmlPromisesCache_per_closure_witness :
  let s := @run sample_libraries two_closures init in
  0 < length (instances s) ∧ 1 ≠ 0
  ∧ getAST 1 0 (getAST 0 0 s).2 = (0, (getAST 0 0 s).2)
  ∧ the_html_cache (getHTML 0 0 s).2 1 = ∅.
Proof.
  intros s.
  assert (0 < length (instances s)) as Hi by (vm_compute; lia).
  assert (1 ≠ 0) as Hne by discriminate.
  split; [exact Hi|]. split; [exact Hne|].
  destruct (astPromiseCache_shared_htmlPromisesCache_per_closure s 0 1 0 Hi Hne)
    as (Ha & _ & Hh).
  split; [exact Ha|exact Hh].
Defined.

(** C9 as stated fails for the HTML cache: of two closures, the second does
    not see the entry that [getHTML] made through the first, and makes a
    promise of its own. *)
Lemma htmlPromisesCache_not_shared :
  let s := @run sample_libraries (two_closures ++ [GetHTML 0 0]) init in
  the_html_cache s 0 !! "a.md" = Some 0
  ∧ the_html_cache s 1 !! "a.md" = None
  ∧ (getHTML 0 0 s).1 = 0
  ∧ (getHTML 1 0 s).1 = 3
  ∧ the_html_cache (getHTML 1 0 s).2 1 !! "a.md" = Some 3.
Proof. intros s. repeat split; vm_compute; reflexivity. Qed.

(** * Further properties of the resolvers *)

(** ** Reading time *)

(** X1: the reading time is never below one minute: it is 1 for fewer than
    133 words (where [Math.round] gives 0), and from 133 words on it is the
    whole number of minutes nearest to words / 265 (the quotient is never
    half way, 265 being odd). *)
Theorem timeToRead_nearest_minute `{Libraries} (html : string) :
  let n := Z.of_nat (length (words (sanitizeHTML html sanitize_options))) in
  (1 ≤ timeToRead html
   ∧ (n < 133 → timeToRead html = 1)
   ∧ (133 ≤ n → 2 * Z.abs (avgWPM * timeToRead html - n) < avgWPM))%Z.
Proof.
  intros n. unfold timeToRead. fold n.
  pose proof (Math_round_div_nearest n) as Hnear.
  assert (0 ≤ n)%Z as Hn by (unfold n; lia).
  assert (0 ≤ Math_round_div n avgWPM)%Z as H0.
  { unfold Math_round_div, avgWPM. apply Z.div_pos; lia. }
  unfold avgWPM in *.
  destruct (Z.eqb_spec (Math_round_div n 265) 0) as [Hz|Hnz].
  - rewrite Hz in Hnear. split; [lia|]. split; [done|]. intros Hbig. lia.
  - split; [lia|]. split; [|done]. intros Hsmall.
    assert (Math_round_div n 265 = 0)%Z; [|done].
    unfold Math_round_div. apply Z.div_small. lia.
Qed.

(** ** Excerpts at any [pruneLength] *)

Lemma prune_chars_any (str : list ascii) (len : Z) :
  prune_chars str len = str
  ∨ ∃ k, k + 3 ≤ length str ∧ prune_chars str len = take k str ++ pruneStr.
Proof.
  unfold prune_chars.
  destruct (_ <=? _)%Z; [by left|].
  set (template := prune_template str (to_int32 len)).
  destruct (Nat.ltb_spec (length str) (length (template ++ pruneStr))) as [|Hge];
    [by left|].
  right. exists (length template). split; [|done].
  rewrite length_app in Hge. change (length pruneStr) with 3 in Hge. lia.
Qed.

(** X2: whatever the [pruneLength] - negative, zero or beyond 32 bits - the
    excerpt is the joined text itself or a part of it from the start,
    at least three characters shorter, followed by ["..."]; so it is never
    longer than the text, and a text of fewer than three characters (the
    empty text of a document without text nodes among them) is returned as
    it is. *)
Theorem excerpt_never_longer_than_text (ast : tree) (pruneLength : Z) :
  let text := join " " (visit ast "text" tree_value) in
  (excerpt ast pruneLength = text
   ∨ ∃ k, k + 3 ≤ String.length text
        ∧ excerpt ast pruneLength = substring 0 k text +:+ "...")
  ∧ String.length (excerpt ast pruneLength) ≤ String.length text
  ∧ (String.length text < 3 → excerpt ast pruneLength = text).
Proof.
  intros text. unfold excerpt. fold text. unfold prune.
  destruct (prune_chars_any (list_ascii_of_string text) pruneLength)
    as [->|(k & Hk & ->)].
  - rewrite string_of_list_ascii_of_string. split; [by left|]. split; [lia|done].
  - rewrite list_ascii_of_string_length in Hk.
    rewrite string_of_list_ascii_app, string_of_list_ascii_take.
    split; [right; by exists k|]. split; [|intros; lia].
    rewrite <- (string_of_list_ascii_of_string (substring 0 k text +:+ _)).
    rewrite string_of_list_ascii_length.
    rewrite <- string_of_list_ascii_take, <- string_of_list_ascii_app.
    rewrite list_ascii_of_string_of_list_ascii, length_app, length_take.
    rewrite list_ascii_of_string_length. change (length pruneStr) with 3. lia.
Qed.

(** * Further properties of the closures and their caches *)

(** ** A new closure *)


(** ** The HTML cache of a closure *)

Lemma html_kept_refl s : html_kept s s.
Proof. by intros i id q. Qed.

Lemma html_kept_trans s1 s2 s3 : html_kept s1 s2 → html_kept s2 s3 → html_kept s1 s3.
Proof. intros H1 H2 i id q Hq. by apply H2, H1. Qed.

Lemma html_kept_same s s' : instances s' = instances s → html_kept s s'.
Proof. intros Hi i id q. unfold the_html_cache. by rewrite Hi. Qed.

Lemma calm_html_kept s s' : calm s s' → html_kept s s'.
Proof. intros Hc. apply html_kept_same, Hc. Qed.

Lemma getAST_frame i r s :
  instances (getAST i r s).2 = instances s
  ∧ ∀ r', node_id (the_node (getAST i r s).2 r') = node_id (the_node s r').
Proof.
  destruct (astPromiseCache s !! node_id (the_node s r)) as [p|] eqn:Hhit.
  - by rewrite (getAST_hit i r s p Hhit).
  - by destruct (getAST_miss i r s Hhit) as (_ & _ & Hi & Hid & _).
Qed.

Lemma getHeadings_frame i r s :
  instances (getHeadings i r s).2 = instances s
  ∧ ∀ r', node_id (the_node (getHeadings i r s).2 r') = node_id (the_node s r').
Proof.
  unfold getHeadings. msimpl. set (s1 := set_promises _ s).
  destruct (node_headings (the_node s r)); msimpl.
  - destruct (settle_calm s1 (length (promises s)) (Some (VNode r))) as [_ Hi Hid _].
    split; [by rewrite Hi|]. intros r'. by rewrite Hid.
  - destruct (getAST_frame i r s1) as [Hi Hid].
    destruct (subscribe_calm (getAST i r s1).2 (getAST i r s1).1
                (RThen (KSetHeadings r (length (promises s))))) as [_ Hi' Hid' _].
    split; [by rewrite Hi', Hi|]. intros r'. by rewrite Hid', Hid.
Qed.

(** what [getHTML] does to the HTML caches and the ids *)
Lemma getHTML_frame i r s :
  let id := node_id (the_node s r) in
  let s' := (getHTML i r s).2 in
  (∀ r', node_id (the_node s' r') = node_id (the_node s r'))
  ∧ (∀ j, j ≠ i → the_html_cache s' j = the_html_cache s j)
  ∧ (∀ q, the_html_cache s i !! id = Some q → getHTML i r s = (q, s))
  ∧ (the_html_cache s i !! id = None →
       (getHTML i r s).1 = length (promises s)
       ∧ the_html_cache s' i
         = if decide (i < length (instances s))
           then <[id := length (promises s)]> (the_html_cache s i) else ∅).
Proof.
  intros id s'. subst s'. unfold getHTML. msimpl. fold id.
  destruct (the_html_cache s i !! id) as [q0|] eqn:Hhit; msimpl.
  - split; [done|]. split; [done|]. split; [|done]. by intros q [= ->].
  - set (q := length (promises s)).
    set (s1 := set_promises (λ h, h ++ [Promise Pending [] Executor]) s).
    set (s2 := (getAST i r s1).2). set (p := (getAST i r s1).1).
    set (s3 := (subscribe p (RThen (KRender q)) s2).2).
    destruct (getAST_frame i r s1) as [Hi2 Hid2]. fold s2 in Hi2, Hid2.
    destruct (subscribe_calm s2 p (RThen (KRender q))) as [_ Hi3 Hid3 _].
    fold s3 in Hi3, Hid3.
    assert (instances s3 = instances s) as Hinst by (by rewrite Hi3, Hi2).
    unfold set_html_cache. msimpl.
    split; [|split; [|split; [done|]]].
    + intros r'. unfold the_node. simpl. fold (the_node s3 r'). by rewrite Hid3, Hid2.
    + intros j Hj. rewrite the_html_cache_alter, decide_False by done.
      unfold the_html_cache. by rewrite Hinst.
    + intros _. split; [done|].
      rewrite the_html_cache_alter, decide_True by done. rewrite Hinst.
      destruct (decide _); [|done]. unfold the_html_cache. by rewrite Hinst.
Qed.

Lemma getHTML_html_kept i r s : html_kept s (getHTML i r s).2.
Proof.
  destruct (getHTML_frame i r s) as (_ & Hother & Hhit & Hmiss).
  intros j id q Hq.
  destruct (the_html_cache s i !! node_id (the_node s r)) as [q0|] eqn:Hc.
  - by rewrite (Hhit q0 eq_refl).
  - destruct (decide (j = i)) as [->|Hne]; [|by rewrite Hother].
    destruct (Hmiss eq_refl) as [_ ->].
    destruct (decide (i < length (instances s))) as [Hi|Hi].
    + rewrite lookup_insert_ne; [done|]. intros <-. congruence.
    + unfold the_html_cache in Hq. rewrite lookup_ge_None_2 in Hq by lia.
      simpl in Hq. by rewrite lookup_empty in Hq.
Qed.

(** X4: [getHTML] is memoised per closure: after a call through a closure,
    the promise it returned is in that closure's HTML cache under the
    record's id, and a second call through the same closure returns the
    same promise and changes nothing. *)
Theorem getHTML_memoised (s : state) (i : nat) (r : ref) :
  i < length (instances s) →
  let q := (getHTML i r s).1 in
  let s' := (getHTML i r s).2 in
  the_html_cache s' i !! node_id (the_node s r) = Some q
  ∧ getHTML i r s' = (q, s').
Proof.
  intros Hi q s'.
  destruct (getHTML_frame i r s) as (Hid & _ & Hhit & Hmiss).
  fold s' in Hid, Hmiss.
  assert (the_html_cache s' i !! node_id (the_node s r) = Some q) as Hq.
  { destruct (the_html_cache s i !! node_id (the_node s r)) as [q0|] eqn:Hc.
    - unfold s', q. by rewrite (Hhit q0 eq_refl).
    - destruct (Hmiss eq_refl) as [Hq ->]. rewrite decide_True by done.
      unfold q. rewrite Hq. apply lookup_insert_eq. }
  split; [exact Hq|].
  destruct (getHTML_frame i r s') as (_ & _ & Hhit' & _).
  apply Hhit'. by rewrite Hid.
Qed.

Lemma getHTML_memoised_witness :
  let s := @run sample_libraries two_closures init in
  0 < length (instances s)
  ∧ getHTML 0 0 (getHTML 0 0 s).2 = (0, (getHTML 0 0 s).2).
Proof.
  intros s.
  assert (0 < length (instances s)) as Hi by (vm_compute; lia).
  split; [exact Hi|].
  exact (proj2 (getHTML_memoised s 0 0 Hi)).
Defined.

Section Eviction.
Context `{Libraries}.

Lemma guarded_html_kept {A} s i r (m : M A) :
  html_kept s (m s).2 → html_kept s (guarded s i r m).
Proof. intros Hm. unfold guarded. destruct (decide _); [done|apply html_kept_refl]. Qed.

Lemma exec_html_kept a s : html_kept s (exec a s).
Proof.
  destruct a; simpl.
  - by apply html_kept_same.
  - unfold extendNodeType. destruct (decide _); [|apply html_kept_refl]. msimpl.
    intros i id q Hq. unfold the_html_cache in *. simpl.
    destruct (instances s !! i) as [c|] eqn:Hc.
    + by rewrite (lookup_app_l_Some _ _ _ _ Hc).
    + simpl in Hq. by rewrite lookup_empty in Hq.
  - unfold onNodeCreate. destruct (decide _); [|apply html_kept_refl].
    by apply html_kept_same.
  - apply guarded_html_kept, html_kept_same, getAST_frame.
  - apply guarded_html_kept, html_kept_same, getHeadings_frame.
  - apply guarded_html_kept, getHTML_html_kept.
  - apply guarded_html_kept. unfold html_resolve. msimpl.
    eapply html_kept_trans; [apply getHTML_html_kept|].
    apply calm_html_kept, then_derive_calm.
  - apply guarded_html_kept. unfold excerpt_resolve. msimpl.
    eapply html_kept_trans; [apply html_kept_same, getAST_frame|].
    apply calm_html_kept, then_derive_calm.
  - apply guarded_html_kept. unfold headings_resolve. msimpl.
    eapply html_kept_trans; [apply html_kept_same, getHeadings_frame|].
    apply calm_html_kept, then_derive_calm.
  - apply guarded_html_kept. unfold timeToRead_resolve. msimpl.
    eapply html_kept_trans; [apply getHTML_html_kept|].
    apply calm_html_kept, then_derive_calm.
  - apply calm_html_kept, settle_external_calm.
  - apply calm_html_kept, settle_external_calm.
  - apply calm_html_kept, run_next_calm.
Qed.

Lemma run_html_kept acts s : html_kept s (run acts s).
Proof.
  revert s. induction acts as [|a acts IH]; intros s; simpl; [apply html_kept_refl|].
  eapply html_kept_trans; [apply exec_html_kept|apply IH].
Qed.

(** X5: nothing ever takes an entry out of an HTML cache.  Once a closure
    holds a promise for an id, it holds that promise after anything that is
    executed - the invalidation hook for that id included - and [getHTML]
    through that closure on a record of that id goes on returning it,
    without rendering again. *)
Theorem htmlPromisesCache_never_evicted (s : state) (i : nat) (id : string) (q : pid)
    (acts : list action) :
  the_html_cache s i !! id = Some q →
  let s' := run acts s in
  the_html_cache s' i !! id = Some q
  ∧ ∀ r, node_id (the_node s' r) = id → getHTML i r s' = (q, s').
Proof.
  intros Hq s'. pose proof (run_html_kept acts s i id q Hq) as Hq'. fold s' in Hq'.
  split; [exact Hq'|]. intros r Hid.
  destruct (getHTML_frame i r s') as (_ & _ & Hhit & _). apply Hhit. by rewrite Hid.
Qed.

End Eviction.

Lemma htmlPromisesCache_never_evicted_witness :
  let s := @run sample_libraries (two_closures ++ [GetHTML 0 0]) init in
  let s' := @run sample_libraries [OnNodeCreate sample_node; RunJob; GetAST 0 0] s in
  the_html_cache s 0 !! "a.md" = Some 0
  ∧ astPromiseCache s' !! "a.md" = Some 4
  ∧ getHTML 0 0 s' = (0, s').
Proof.
  intros s s'.
  assert (the_html_cache s 0 !! "a.md" = Some 0) as Hq by reflexivity.
  split; [exact Hq|]. split; [reflexivity|].
  exact (proj2 (@htmlPromisesCache_never_evicted sample_libraries s 0 "a.md" 0
                  [OnNodeCreate sample_node; RunJob; GetAST 0 0] Hq) 0 eq_refl).
Defined.

(** ** The mutate-source phase *)

Lemma alter_with_src (f g : string → string) r (l : list mnode) :
  alter (with_src g) r (alter (with_src f) r l) = alter (with_src (g ∘ f)) r l.
Proof.
  rewrite list_alter_alter_eq. apply list_alter_ext; [|done]. by intros [] _.
Qed.

Lemma alter_with_src_id r (l : list mnode) : alter (with_src (λ src, src)) r l = l.
Proof. apply list_alter_id. by intros []. Qed.

(** the loop of lines 59-72, all of it *)
Lemma call_mutate_loop_eq r p pls k0 s :
  let res := mapM_from (call_mutate r p) k0 pls s in
  res.1 = seq (length (promises s)) (length pls)
  ∧ res.2 =
    set_trace (λ t, t ++ mutate_events p k0 (length (promises s)) pls)
      (set_promises (λ h, h ++ (mutate_cell r <$> pls))
         (set_objects (alter (with_src (mutate_now pls)) r) s)).
Proof.
  revert k0 s. induction pls as [|pl pls IH]; intros k0 s; simpl.
  - split; [done|]. destruct s. unfold set_trace, set_promises, set_objects. simpl.
    by rewrite alter_with_src_id, !app_nil_r.
  - msimpl. specialize (IH (S k0) (call_mutate r p k0 pl s).2).
    destruct IH as [IH1 IH2]. rewrite IH1, IH2. clear IH1 IH2.
    unfold call_mutate, mutate_cell at 2. unfold mutate_now. simpl foldl.
    fold (mutate_now pls).
    destruct s as [c insts ps objs trs js tr].
    destruct (mutateSource pl) as [m|]; msimpl;
      unfold set_trace, set_promises, set_objects; simpl;
      rewrite length_app; simpl; rewrite Nat.add_1_r; (split; [done|]);
      rewrite <- ?app_assoc; simpl; [by rewrite alter_with_src|done].
Qed.

Lemma same_cells_refl n s : same_cells n s s.
Proof. intros q c _ Hc. by exists c. Qed.

Lemma same_cells_trans n s1 s2 s3 :
  same_cells n s1 s2 → same_cells n s2 s3 → same_cells n s1 s3.
Proof.
  intros H1 H2 q c Hq Hc. destruct (H1 q c Hq Hc) as (c' & Hc' & Hs & Ho).
  destruct (H2 q c' Hq Hc') as (c'' & Hc'' & Hs' & Ho'). exists c''.
  split; [done|]. split; congruence.
Qed.

Lemma same_cells_promises n s s' : promises s' = promises s → same_cells n s s'.
Proof. intros Hp q c _ Hc. exists c. by rewrite Hp. Qed.

Lemma same_cells_alloc s c : same_cells (length (promises s)) s
                                (set_promises (λ h, h ++ [c]) s).
Proof. intros q c' Hq Hc. exists c'. simpl. by rewrite lookup_app_l. Qed.

Lemma subscribe_same_cells n s e rx : same_cells n s (subscribe e rx s).2.
Proof.
  rewrite subscribe_eq. destruct (promises s !! e) as [[st rxs org]|] eqn:He;
    [|apply same_cells_refl].
  destruct (outcome st); [by apply same_cells_promises|].
  intros q c _ Hc. simpl. destruct (decide (q = e)) as [->|Hne].
  - rewrite He in Hc. injection Hc as <-. exists (Promise st (rxs ++ [rx]) org).
    split; [|done]. apply list_lookup_insert_eq. by eapply lookup_lt_Some.
  - exists c. by rewrite list_lookup_insert_ne.
Qed.

Lemma settle_same_cells n s q o : n ≤ q → same_cells n s (settle q o s).2.
Proof.
  intros Hq. rewrite settle_eq. destruct (promises s !! q) as [[[] rxs org]|];
    try apply same_cells_refl.
  intros q' c Hq' Hc. exists c. simpl. rewrite list_lookup_insert_ne by lia. done.
Qed.

Lemma same_heap_refl s : same_heap s s.
Proof. done. Qed.

Lemma same_heap_trans s1 s2 s3 : same_heap s1 s2 → same_heap s2 s3 → same_heap s1 s3.
Proof. intros (? & ? & ?) (? & ? & ?). repeat split; congruence. Qed.

Lemma subscribe_same_heap s e rx : same_heap s (subscribe e rx s).2.
Proof.
  rewrite subscribe_eq. destruct (promises s !! e) as [[st rxs org]|]; [|done].
  by destruct (outcome st).
Qed.

Lemma settle_same_heap s q o : same_heap s (settle q o s).2.
Proof. rewrite settle_eq. by destruct (promises s !! q) as [[[] rxs org]|]. Qed.

Lemma promise_all_frame s es :
  same_heap s (promise_all es s).2
  ∧ same_cells (length (promises s)) s (promise_all es s).2.
Proof.
  unfold promise_all. msimpl.
  set (n := length (promises s)).
  set (s1 := set_promises (λ h, h ++ [Promise Pending [] (AllOf es es)]) s).
  assert (same_heap s s1) as Hh1 by done.
  assert (same_cells n s s1) as Hc1 by apply same_cells_alloc.
  destruct es as [|e es]; msimpl.
  - split; [eapply same_heap_trans; [done|apply settle_same_heap]|].
    eapply same_cells_trans; [done|]. by apply settle_same_cells.
  - apply (forM__ind _ (λ s', same_heap s s' ∧ same_cells n s s')); [|done].
    intros x s' _ [Hh Hc]. split.
    + eapply same_heap_trans; [done|apply subscribe_same_heap].
    + eapply same_cells_trans; [done|apply subscribe_same_cells].
Qed.

(** X6: on a miss, [getAST] calls the [mutateSource] of every plugin that
    has one, once, in the order of the configuration, on the record it was
    called with: when it returns, the record's source is what the
    synchronous parts of those calls made of it one after the other, no
    other record and no tree has changed, the calls are on the trace in
    that order, and the promise of plugin [k] - the one [mutateSource]
    returned, pending, or an already fulfilled [Promise.resolve()] - is the
    [k]-th promise after the pipeline's own. *)
Theorem getAST_calls_mutateSource_in_order (i : nat) (r : ref) (s : state) :
  astPromiseCache s !! node_id (the_node s r) = None →
  let p := length (promises s) in
  let pls := the_plugins s i in
  let s' := (getAST i r s).2 in
  objects s' = alter (with_src (mutate_now pls)) r (objects s)
  ∧ trees s' = trees s
  ∧ trace s' = trace s ++ EStart p (node_id (the_node s r)) :: mutate_events p 0 (S p) pls
  ∧ ∀ k pl, pls !! k = Some pl →
      ∃ c, promises s' !! (S p + k) = Some c
           ∧ p_state c = p_state (mutate_cell r pl)
           ∧ p_origin c = p_origin (mutate_cell r pl).
Proof.
  intros Hmiss p pls s'. subst s'. unfold getAST. msimpl. rewrite Hmiss. msimpl.
  fold p. fold pls.
  set (id := node_id (the_node s r)).
  set (s2 := set_trace (λ t, t ++ [EStart p id])
               (set_promises (λ h, h ++ [Promise Pending [] Executor]) s)).
  destruct (call_mutate_loop_eq r p pls 0 s2) as [Hms Hs3].
  set (ms := (mapM_from (call_mutate r p) 0 pls s2).1) in *.
  set (s3 := (mapM_from (call_mutate r p) 0 pls s2).2) in *.
  destruct (promise_all_frame s3 ms) as [(Ho4 & Ht4 & Htr4) Hc4].
  set (a := (promise_all ms s3).1) in *. set (s4 := (promise_all ms s3).2) in *.
  destruct (subscribe_same_heap s4 a (RThen (KParse i r p))) as (Ho5 & Ht5 & Htr5).
  pose proof (subscribe_same_cells (length (promises s3)) s4 a (RThen (KParse i r p)))
    as Hc5.
  set (s5 := (subscribe a (RThen (KParse i r p)) s4).2) in *.
  assert (length (promises s2) = S p) as Hl2.
  { unfold s2. simpl. rewrite length_app. simpl. unfold p. lia. }
  simpl. rewrite Ho5, Ho4, Ht5, Ht4, Htr5, Htr4, Hs3. simpl.
  rewrite length_app. simpl. rewrite Nat.add_1_r. fold p.
  split; [done|]. split; [done|]. split; [by rewrite <- app_assoc|].
  intros k pl Hk. change (S (p + k)) with (S p + k).
  assert (promises s3 !! (S p + k) = Some (mutate_cell r pl)) as Hcell.
  { rewrite Hs3. simpl. rewrite lookup_app_r; [|rewrite length_app; simpl; lia].
    rewrite length_app. simpl.
    replace (S (p + k) - (length (promises s) + 1)) with k by (unfold p; lia).
    by rewrite list_lookup_fmap, Hk. }
  assert (S p + k < length (promises s3)) as Hlt by by eapply lookup_lt_Some.
  destruct (Hc4 _ _ Hlt Hcell) as (c' & Hc' & Hst' & Ho').
  destruct (Hc5 _ _ Hlt Hc') as (c'' & Hc'' & Hst'' & Ho'').
  exists c''. split; [done|]. split; congruence.
Qed.

Lemma getAST_calls_mutateSource_in_order_witness :
  let s := @run sample_libraries one_record init in
  astPromiseCache s !! node_id (the_node s 0) = None
  ∧ objects (getAST 0 0 s).2 = [with_src (λ src, src +:+ "!") sample_node]
  ∧ trace (getAST 0 0 s).2 = [EStart 0 "a.md"; EMutate 0 0 1].
Proof.
  intros s.
  assert (astPromiseCache s !! node_id (the_node s 0) = None) as Hmiss by reflexivity.
  destruct (getAST_calls_mutateSource_in_order 0 0 s Hmiss) as (Ho & _ & Ht & _).
  split; [exact Hmiss|]. split; [exact Ho|exact Ht].
Defined.

(** ** A new pipeline after an invalidation *)

Lemma promise_all_fst es s : (promise_all es s).1 = length (promises s).
Proof. unfold promise_all. msimpl. by destruct es. Qed.

Lemma promise_all_old_cells es s q :
  q < length (promises s) → (∀ e, e ∈ es → q < e) →
  promises (promise_all es s).2 !! q = promises s !! q.
Proof.
  intros Hq Hes. unfold promise_all. msimpl.
  set (s1 := set_promises (λ h, h ++ [Promise Pending [] (AllOf es es)]) s).
  assert (promises s1 !! q = promises s !! q) as H1 by (simpl; by rewrite lookup_app_l).
  destruct es as [|e es]; msimpl.
  - rewrite settle_eq. destruct (promises s1 !! length (promises s)) as [[[] rxs org]|];
      try done. simpl. rewrite list_lookup_insert_ne by lia. done.
  - apply (forM__ind _ (λ s', promises s' !! q = promises s !! q)); [|done].
    intros x s' Hx Hs'. rewrite subscribe_other; [done|]. specialize (Hes _ Hx). lia.
Qed.

Lemma getAST_old_cells i r s q :
  q < length (promises s) → promises (getAST i r s).2 !! q = promises s !! q.
Proof.
  intros Hq. unfold getAST. msimpl.
  destruct (astPromiseCache s !! node_id (the_node s r)); msimpl; [done|].
  set (p := length (promises s)). set (id := node_id (the_node s r)).
  set (s2 := set_trace (λ t, t ++ [EStart p id])
               (set_promises (λ h, h ++ [Promise Pending [] Executor]) s)).
  destruct (call_mutate_loop_eq r p (the_plugins s i) 0 s2) as [Hms Hs3].
  set (ms := (mapM_from (call_mutate r p) 0 (the_plugins s i) s2).1) in *.
  set (s3 := (mapM_from (call_mutate r p) 0 (the_plugins s i) s2).2) in *.
  assert (length (promises s2) = S p) as Hl2.
  { unfold s2. simpl. rewrite length_app. simpl. unfold p. lia. }
  assert (promises s3 !! q = promises s !! q) as H3.
  { rewrite Hs3. simpl. by rewrite <- app_assoc, lookup_app_l. }
  assert (q < length (promises s3)) as Hq3.
  { rewrite Hs3. simpl. rewrite !length_app. lia. }
  change (promises (set_cache ?f ?s0)) with (promises s0).
  rewrite subscribe_other; [|rewrite promise_all_fst; lia].
  rewrite promise_all_old_cells; [done|done|].
  intros e He. rewrite Hms, Hl2 in He. apply elem_of_seq in He. unfold p in He. lia.
Qed.

Lemma getAST_miss_pending i r s :
  Inv s → astPromiseCache s !! node_id (the_node s r) = None →
  pending (getAST i r s).2 (length (promises s)).
Proof.
  intros HI Hmiss. destruct (getAST_spec i r s HI) as (HI1 & _ & Hkind).
  destruct (getAST_miss i r s Hmiss) as (Hp & _ & _ & _ & Hpc & _ & Hstart).
  rewrite Hp in Hkind. set (p := length (promises s)) in *.
  set (s1 := (getAST i r s).2) in *.
  assert (parse_count p s1 = 0) as H0.
  { rewrite Hpc. pose proof (fresh_pipeline_new p s HI) as Hf.
    unfold fresh_pipeline in Hf. lia. }
  unfold cell_kind in Hkind.
  destruct (promises s1 !! p) as [c|] eqn:Hc; [|done].
  exists c. split; [done|].
  destruct (p_state c) as [|v|] eqn:Hs; [done| |].
  - assert (parsed p s1) as Hpar.
    { apply (I_done _ HI1); [by eexists|by exists c, v]. }
    apply parsed_count in Hpar. lia.
  - simpl in Hkind. destruct (p_origin c) eqn:Ho; try done.
    by destruct (I_norej _ HI1 p c Hc Ho).
Qed.

(** X7: after the invalidation hook has been called for a cached id, the
    next [getAST] for a record of that id starts a pipeline of its own: it
    returns a new, pending promise, different from the invalidated one, and
    caches it; the invalidated promise is left exactly as it was, so those
    who wait for it are still served by the old pipeline. *)
Theorem getAST_after_invalidation `{Libraries} (s : state) (n : mnode) (i : nat)
    (r : ref) (p : pid) :
  reachable s →
  node_type n = "MarkdownRemark" →
  node_id (the_node s r) = node_id n →
  astPromiseCache s !! node_id n = Some p →
  let s1 := (onNodeCreate n s).2 in
  let p' := (getAST i r s1).1 in
  let s2 := (getAST i r s1).2 in
  p' = length (promises s) ∧ p' ≠ p
  ∧ astPromiseCache s2 !! node_id n = Some p'
  ∧ EStart p' (node_id n) ∈ trace s2
  ∧ pending s2 p'
  ∧ promises s2 !! p = promises s !! p.
Proof.
  intros Hreach Hty Hid Hp s1 p' s2.
  pose proof (reachable_inv s Hreach) as HI.
  assert (p < length (promises s)) as Hlt.
  { eapply cell_kind_lt. by eapply I_cache. }
  assert (s1 = set_cache (delete (node_id n)) s) as Hs1.
  { unfold s1, onNodeCreate. by rewrite decide_True. }
  assert (Inv s1) as HI1 by (rewrite Hs1; by apply cache_delete_inv).
  assert (astPromiseCache s1 !! node_id (the_node s1 r) = None) as Hmiss.
  { rewrite Hs1. unfold the_node. simpl. fold (the_node s r). rewrite Hid.
    apply lookup_delete_eq. }
  assert (promises s1 = promises s) as Hps by by rewrite Hs1.
  assert (node_id (the_node s1 r) = node_id n) as Hid1 by by rewrite Hs1.
  destruct (getAST_miss i r s1 Hmiss) as (Hp' & Hc & _ & _ & _ & _ & Hstart).
  fold p' in Hp'. fold s2 in Hc, Hstart. rewrite Hps in Hp'.
  rewrite Hps, Hid1, <- Hp' in Hstart. rewrite Hid1, Hps, <- Hp' in Hc.
  split; [exact Hp'|]. split; [lia|]. split; [|split; [exact Hstart|split]].
  - rewrite Hc. apply lookup_insert_eq.
  - rewrite Hp', <- Hps. by apply getAST_miss_pending.
  - unfold s2. rewrite getAST_old_cells; [by rewrite Hps|by rewrite Hps].
Qed.

Lemma getAST_after_invalidation_witness :
  let s := @run sample_libraries (one_record ++ [GetAST 0 0]) init in
  let s2 := (getAST 0 0 (onNodeCreate sample_node s).2).2 in
  @reachable sample_libraries s
  ∧ node_type sample_node = "MarkdownRemark"
  ∧ node_id (the_node s 0) = node_id sample_node
  ∧ astPromiseCache s !! node_id sample_node = Some 0
  ∧ astPromiseCache s2 !! "a.md" = Some 3
  ∧ promises s2 !! 0 = promises s !! 0.
Proof.
  intros s s2.
  assert (@reachable sample_libraries s) as Hreach by by eexists.
  assert (astPromiseCache s !! node_id sample_node = Some 0) as Hp by reflexivity.
  split; [exact Hreach|]. split; [reflexivity|]. split; [reflexivity|].
  split; [exact Hp|].
  destruct (@getAST_after_invalidation sample_libraries s sample_node 0 0 0
              Hreach eq_refl eq_refl Hp) as (_ & _ & Hc & _ & _ & Hold).
  split; [exact Hc|exact Hold].
Defined.

(** ** Reading a field after a write *)

Lemma astPromiseCache_set_cache f s : astPromiseCache (set_cache f s) = f (astPromiseCache s).
Proof. done. Qed.

Lemma astPromiseCache_set_instances f s : astPromiseCache (set_instances f s) = astPromiseCache s.
Proof. done. Qed.

Lemma astPromiseCache_set_promises f s : astPromiseCache (set_promises f s) = astPromiseCache s.
Proof. done. Qed.

Lemma astPromiseCache_set_objects f s : astPromiseCache (set_objects f s) = astPromiseCache s.
Proof. done. Qed.

Lemma astPromiseCache_set_trees f s : astPromiseCache (set_trees f s) = astPromiseCache s.
Proof. done. Qed.

Lemma astPromiseCache_set_jobs f s : astPromiseCache (set_jobs f s) = astPromiseCache s.
Proof. done. Qed.

Lemma astPromiseCache_set_trace f s : astPromiseCache (set_trace f s) = astPromiseCache s.
Proof. done. Qed.

Lemma instances_set_cache f s : instances (set_cache f s) = instances s.
Proof. done. Qed.

Lemma instances_set_instances f s : instances (set_instances f s) = f (instances s).
Proof. done. Qed.

Lemma instances_set_promises f s : instances (set_promises f s) = instances s.
Proof. done. Qed.

Lemma instances_set_objects f s : instances (set_objects f s) = instances s.
Proof. done. Qed.

Lemma instances_set_trees f s : instances (set_trees f s) = instances s.
Proof. done. Qed.

Lemma instances_set_jobs f s : instances (set_jobs f s) = instances s.
Proof. done. Qed.

Lemma instances_set_trace f s : instances (set_trace f s) = instances s.
Proof. done. Qed.

Lemma promises_set_cache f s : promises (set_cache f s) = promises s.
Proof. done. Qed.

Lemma promises_set_instances f s : promises (set_instances f s) = promises s.
Proof. done. Qed.

Lemma promises_set_promises f s : promises (set_promises f s) = f (promises s).
Proof. done. Qed.

Lemma promises_set_objects f s : promises (set_objects f s) = promises s.
Proof. done. Qed.

Lemma promises_set_trees f s : promises (set_trees f s) = promises s.
Proof. done. Qed.

Lemma promises_set_jobs f s : promises (set_jobs f s) = promises s.
Proof. done. Qed.

Lemma promises_set_trace f s : promises (set_trace f s) = promises s.
Proof. done. Qed.

Lemma objects_set_cache f s : objects (set_cache f s) = objects s.
Proof. done. Qed.

Lemma objects_set_instances f s : objects (set_instances f s) = objects s.
Proof. done. Qed.

Lemma objects_set_promises f s : objects (set_promises f s) = objects s.
Proof. done. Qed.

Lemma objects_set_objects f s : objects (set_objects f s) = f (objects s).
Proof. done. Qed.

Lemma objects_set_trees f s : objects (set_trees f s) = objects s.
Proof. done. Qed.

Lemma objects_set_jobs f s : objects (set_jobs f s) = objects s.
Proof. done. Qed.

Lemma objects_set_trace f s : objects (set_trace f s) = objects s.
Proof. done. Qed.

Lemma trees_set_cache f s : trees (set_cache f s) = trees s.
Proof. done. Qed.

Lemma trees_set_instances f s : trees (set_instances f s) = trees s.
Proof. done. Qed.

Lemma trees_set_promises f s : trees (set_promises f s) = trees s.
Proof. done. Qed.

Lemma trees_set_objects f s : trees (set_objects f s) = trees s.
Proof. done. Qed.

Lemma trees_set_trees f s : trees (set_trees f s) = f (trees s).
Proof. done. Qed.

Lemma trees_set_jobs f s : trees (set_jobs f s) = trees s.
Proof. done. Qed.

Lemma trees_set_trace f s : trees (set_trace f s) = trees s.
Proof. done. Qed.

Lemma jobs_set_cache f s : jobs (set_cache f s) = jobs s.
Proof. done. Qed.

Lemma jobs_set_instances f s : jobs (set_instances f s) = jobs s.
Proof. done. Qed.

Lemma jobs_set_promises f s : jobs (set_promises f s) = jobs s.
Proof. done. Qed.

Lemma jobs_set_objects f s : jobs (set_objects f s) = jobs s.
Proof. done. Qed.

Lemma jobs_set_trees f s : jobs (set_trees f s) = jobs s.
Proof. done. Qed.

Lemma jobs_set_jobs f s : jobs (set_jobs f s) = f (jobs s).
Proof. done. Qed.

Lemma jobs_set_trace f s : jobs (set_trace f s) = jobs s.
Proof. done. Qed.

Lemma trace_set_cache f s : trace (set_cache f s) = trace s.
Proof. done. Qed.

Lemma trace_set_instances f s : trace (set_instances f s) = trace s.
Proof. done. Qed.

Lemma trace_set_promises f s : trace (set_promises f s) = trace s.
Proof. done. Qed.

Lemma trace_set_objects f s : trace (set_objects f s) = trace s.
Proof. done. Qed.

Lemma trace_set_trees f s : trace (set_trees f s) = trace s.
Proof. done. Qed.

Lemma trace_set_jobs f s : trace (set_jobs f s) = trace s.
Proof. done. Qed.

Lemma trace_set_trace f s : trace (set_trace f s) = f (trace s).
Proof. done. Qed.

Create Rewrite HintDb fields.
#[export] Hint Rewrite
  astPromiseCache_set_cache astPromiseCache_set_instances astPromiseCache_set_promises
  astPromiseCache_set_objects astPromiseCache_set_trees astPromiseCache_set_jobs
  astPromiseCache_set_trace instances_set_cache instances_set_instances
  instances_set_promises instances_set_objects instances_set_trees
  instances_set_jobs instances_set_trace promises_set_cache
  promises_set_instances promises_set_promises promises_set_objects
  promises_set_trees promises_set_jobs promises_set_trace
  objects_set_cache objects_set_instances objects_set_promises
  objects_set_objects objects_set_trees objects_set_jobs
  objects_set_trace trees_set_cache trees_set_instances
  trees_set_promises trees_set_objects trees_set_trees
  trees_set_jobs trees_set_trace jobs_set_cache
  jobs_set_instances jobs_set_promises jobs_set_objects
  jobs_set_trees jobs_set_jobs jobs_set_trace
  trace_set_cache trace_set_instances trace_set_promises
  trace_set_objects trace_set_trees trace_set_jobs
  trace_set_trace : fields.

(** * The fields of a record that is parsed *)

(** ** Steps of the machine, as equations *)

Lemma then_derive_eq p mk s :
  then_derive p mk s
  = (length (promises s),
     (subscribe p (RThen (mk (length (promises s))))
        (set_promises (λ h, h ++ [Promise Pending [] Derived]) s)).2).
Proof. done. Qed.

Lemma subscribe_fulfilled s q rx c v :
  promises s !! q = Some c → p_state c = Fulfilled v →
  (subscribe q rx s).2 = set_jobs (λ js, js ++ [job_of q (Some v) rx]) s.
Proof. intros Hq Hv. rewrite subscribe_eq, Hq. destruct c. simpl in Hv. by subst. Qed.

Lemma subscribe_pending s q rx rxs org :
  promises s !! q = Some (Promise Pending rxs org) →
  (subscribe q rx s).2 = set_promises <[q := Promise Pending (rxs ++ [rx]) org]> s.
Proof. intros Hq. by rewrite subscribe_eq, Hq. Qed.

Lemma settle_pending s q o rxs org :
  promises s !! q = Some (Promise Pending rxs org) →
  (settle q o s).2
  = set_jobs (λ js, js ++ (job_of q o <$> rxs))
      (set_promises <[q := Promise (settled_state o) [] org]> s).
Proof. intros Hq. by rewrite settle_eq, Hq. Qed.

Lemma lookup_new_2 {A} (l : list A) (x y : A) : (l ++ [x; y]) !! length l = Some x.
Proof. by rewrite lookup_app_r, Nat.sub_diag. Qed.

Lemma lookup_snoc_old {A} (l : list A) (x : A) i y :
  l !! i = Some y → (l ++ [x]) !! i = Some y.
Proof. intros Hi. by rewrite (lookup_app_l_Some _ _ _ _ Hi). Qed.

Lemma insert_new {A} (l : list A) (x y : A) : <[length l := y]> (l ++ [x]) = l ++ [y].
Proof. rewrite insert_app_r_alt by lia. by rewrite Nat.sub_diag. Qed.

Section Parsed.
Context `{Libraries}.

Lemma run_next_cons s j js :
  jobs s = j :: js → (run_next s).2 = (run_job j (set_jobs (λ _, js) s)).2.
Proof. intros Hj. unfold run_next. msimpl. by rewrite Hj. Qed.

Lemma guarded_ok {A} s i r (m : M A) :
  i < length (instances s) → r < length (objects s) → guarded s i r m = (m s).2.
Proof. intros Hi Hr. unfold guarded. by rewrite decide_True. Qed.

(** X8: the excerpt of a record that is parsed.  When the AST cache holds,
    for the record's id, a promise fulfilled with a record that has a tree,
    and no callback is waiting to run, the excerpt field starts no pipeline:
    it returns a new promise which, once the one callback it queued has
    run, is fulfilled with the excerpt of that tree. *)
Theorem excerpt_of_parsed_record (s : state) (i : nat) (r : ref) (pruneLength : Z)
    (p : pid) (c : promise) (n : ref) (ast : tree) :
  i < length (instances s) → r < length (objects s) → jobs s = [] →
  astPromiseCache s !! node_id (the_node s r) = Some p →
  promises s !! p = Some c → p_state c = Fulfilled (VNode n) →
  the_tree s n = Some ast →
  let d := length (promises s) in
  let s' := run [ResolveExcerpt i r pruneLength; RunJob] s in
  (excerpt_resolve i r pruneLength s).1 = d
  ∧ promises s' !! d
    = Some (Promise (Fulfilled (VString (excerpt ast pruneLength))) [] Derived)
  ∧ (∀ q, q < d → promises s' !! q = promises s !! q)
  ∧ jobs s' = []
  ∧ astPromiseCache s' = astPromiseCache s ∧ trace s' = trace s
  ∧ objects s' = objects s ∧ trees s' = trees s.
Proof.
  intros Hi Hr Hj Hp Hc Hv Hast d s'.
  set (s1 := set_promises (λ h, h ++ [Promise Pending [] Derived]) s).
  set (s2 := set_jobs (λ js, js ++ [JThen (KExcerpt pruneLength d) (Some (VNode n))]) s1).
  set (s3 := set_jobs (λ _, []) s2).
  assert (excerpt_resolve i r pruneLength s = (d, s2)) as Hres.
  { unfold excerpt_resolve. msimpl. rewrite (getAST_hit i r s p Hp). msimpl.
    rewrite then_derive_eq. fold d. f_equal. fold s1.
    by rewrite (subscribe_fulfilled s1 p _ c (VNode n)); [|by apply lookup_snoc_old|]. }
  assert (s' = set_jobs (λ js, js ++ [])
                 (set_promises
                    <[d := Promise (Fulfilled (VString (excerpt ast pruneLength))) []
                             Derived]> s3)) as ->.
  { unfold s', run. simpl foldl. unfold exec. rewrite guarded_ok, Hres by done.
    cbn [snd].
    rewrite (run_next_cons s2 (JThen (KExcerpt pruneLength d) (Some (VNode n))) []);
      [|unfold s2; simpl; by rewrite Hj].
    fold s3. assert (the_tree s3 n = Some ast) as Hast3 by done.
    simpl run_job. unfold run_callback. msimpl. rewrite Hast3. simpl fmap.
    by rewrite (settle_pending s3 d _ [] Derived); [|apply lookup_new]. }
  rewrite Hres. split; [done|].
  unfold s3, s2, s1, set_jobs, set_promises.
  cbn [promises jobs astPromiseCache trace objects trees]. unfold d.
  rewrite insert_new.
  split; [apply lookup_new|]. split; [|done].
  intros q Hq. by rewrite lookup_app_l.
Qed.

(** X9: the headings of a record that is parsed and has no headings yet.
    The field starts no pipeline; once the two callbacks it leads to have
    run - the one of [getHeadings], then its own - the record it was called
    on holds the headings of the tree of the record the AST promise was
    fulfilled with, and the promise of the field is fulfilled with those
    headings, filtered by [depth] if it is given. *)
Theorem headings_of_parsed_record (s : state) (i : nat) (r : ref) (depth : option Z)
    (p : pid) (c : promise) (n : ref) (ast : tree) :
  i < length (instances s) → r < length (objects s) → jobs s = [] →
  node_headings (the_node s r) = None →
  astPromiseCache s !! node_id (the_node s r) = Some p →
  promises s !! p = Some c → p_state c = Fulfilled (VNode n) →
  the_tree s n = Some ast →
  let q := length (promises s) in
  let d := S (length (promises s)) in
  let s' := run [ResolveHeadings i r depth; RunJob; RunJob] s in
  (headings_resolve i r depth s).1 = d
  ∧ promises s' !! q = Some (Promise (Fulfilled (VNode r)) [] AsyncFn)
  ∧ promises s' !! d
    = Some (Promise (Fulfilled (VHeadings (filter_headings depth (headings_of ast))))
              [] Derived)
  ∧ objects s' = alter (with_headings (headings_of ast)) r (objects s)
  ∧ jobs s' = []
  ∧ astPromiseCache s' = astPromiseCache s ∧ trace s' = trace s
  ∧ trees s' = trees s.
Proof.
  intros Hi Hr Hj Hnone Hp Hc Hv Hast q d s'.
  set (s1 := set_promises (λ h, h ++ [Promise Pending [] AsyncFn]) s).
  set (s2 := set_jobs (λ js, js ++ [JThen (KSetHeadings r q) (Some (VNode n))]) s1).
  set (s3 := set_promises (λ h, h ++ [Promise Pending [] Derived]) s2).
  set (s4 := set_promises
               <[q := Promise Pending [RThen (KHeadingsField depth d)] AsyncFn]> s3).
  assert (length (promises s2) = d) as Hl2.
  { unfold s2, s1. simpl. rewrite length_app. simpl. unfold d. lia. }
  assert (getHeadings i r s = (q, s2)) as Hget.
  { unfold getHeadings. msimpl. rewrite Hnone. fold q. fold s1. msimpl.
    rewrite (getAST_hit i r s1 p) by done. msimpl. f_equal.
    by rewrite (subscribe_fulfilled s1 p _ c (VNode n)); [|by apply lookup_snoc_old|]. }
  assert (headings_resolve i r depth s = (d, s4)) as Hres.
  { unfold headings_resolve. msimpl. rewrite Hget. msimpl.
    rewrite then_derive_eq, Hl2. f_equal. fold s3.
    rewrite (subscribe_pending s3 q _ [] AsyncFn); [done|].
    unfold s3, s2, s1. simpl. apply lookup_snoc_old, lookup_new. }
  set (s5 := set_jobs (λ _, []) s4).
  set (s6 := set_objects (alter (with_headings (headings_of ast)) r) s5).
  set (s7 := set_jobs (λ js, js ++ [JThen (KHeadingsField depth d) (Some (VNode r))])
               (set_promises <[q := Promise (Fulfilled (VNode r)) [] AsyncFn]> s6)).
  set (s8 := set_jobs (λ _, []) s7).
  assert (node_headings (the_node s8 r) = Some (headings_of ast)) as Hhd.
  { unfold the_node, s8, s7, s6. simpl. rewrite list_lookup_alter_eq.
    apply lookup_lt_is_Some in Hr as [x Hx]. by rewrite Hx. }
  assert (s' = set_jobs (λ js, js ++ [])
                 (set_promises
                    <[d := Promise (Fulfilled (VHeadings
                                     (filter_headings depth (headings_of ast)))) []
                             Derived]> s8)) as ->.
  { unfold s', run. simpl foldl. unfold exec. rewrite guarded_ok, Hres by done.
    cbn [snd].
    rewrite (run_next_cons s4 (JThen (KSetHeadings r q) (Some (VNode n))) []);
      [|unfold s4, s3, s2, s1; simpl; by rewrite Hj].
    fold s5. assert (the_tree s5 n = Some ast) as Hast5 by done.
    simpl run_job. unfold run_callback. msimpl. rewrite Hast5. msimpl. fold s6.
    rewrite (settle_pending s6 q _ [RThen (KHeadingsField depth d)] AsyncFn);
      [|unfold s6, s5, s4; simpl; apply list_lookup_insert_eq;
        unfold s3, s2, s1; simpl; rewrite !length_app; simpl; unfold q; lia].
    change (job_of q (Some (VNode r)) <$> [RThen (KHeadingsField depth d)])
      with [JThen (KHeadingsField depth d) (Some (VNode r))].
    change (settled_state (Some (VNode r))) with (Fulfilled (VNode r)). fold s7.
    rewrite (run_next_cons s7 (JThen (KHeadingsField depth d) (Some (VNode r))) []);
      [|done].
    fold s8. simpl run_job. unfold run_callback. msimpl. rewrite Hhd. simpl fmap.
    rewrite (settle_pending s8 d _ [] Derived); [done|].
    unfold s8, s7, s6, s5, s4, s3, s2, s1. simpl.
    rewrite list_lookup_insert_ne by (unfold q, d; lia).
    rewrite list_lookup_insert_ne by (unfold q, d; lia).
    unfold d. rewrite <- (Nat.add_1_r (length (promises s))).
    replace (length (promises s) + 1) with (length (promises s ++ [Promise Pending [] AsyncFn]))
      by (rewrite length_app; simpl; lia).
    apply lookup_new. }
  rewrite Hres. split; [done|].
  unfold s8, s7, s6, s5, s4, s3, s2, s1. autorewrite with fields.
  split; [|split; [|done]].
  - rewrite list_lookup_insert_ne by (unfold q, d; lia).
    apply list_lookup_insert_eq. rewrite length_insert, !length_app. simpl. unfold q. lia.
  - apply list_lookup_insert_eq.
    rewrite !length_insert, !length_app. simpl. unfold d. lia.
Qed.

(** a field that only waits for a promise that is already fulfilled *)
Lemma derive_from_fulfilled (s : state) (q : pid) (c : promise) (v w : value)
    (mk : pid → kont) :
  jobs s = [] → promises s !! q = Some c → p_state c = Fulfilled v →
  let d := length (promises s) in
  (∀ s0, objects s0 = objects s →
         run_callback (mk d) v s0 = settle d (Some w) s0) →
  (then_derive q mk s).1 = d
  ∧ (run_next (then_derive q mk s).2).2
    = set_promises (λ h, h ++ [Promise (Fulfilled w) [] Derived]) s.
Proof.
  intros Hj Hq Hv d Hcall. rewrite then_derive_eq. fold d. split; [done|]. cbn [snd].
  set (s1 := set_promises (λ h, h ++ [Promise Pending [] Derived]) s).
  rewrite (subscribe_fulfilled s1 q _ c v); [|by apply lookup_snoc_old|done].
  set (s2 := set_jobs _ s1).
  rewrite (run_next_cons s2 (JThen (mk d) (Some v)) []);
    [|unfold s2; simpl; by rewrite Hj].
  simpl run_job. rewrite Hcall by done.
  rewrite (settle_pending _ d _ [] Derived); [|apply lookup_new].
  destruct s as [ca ins ps obs trs js tr]. simpl in Hj. subst js.
  unfold s2, s1, set_jobs, set_promises. simpl. unfold d. simpl. by rewrite insert_new.
Qed.

(** X10: the headings of a record that already has them.  The field does
    not look at the AST cache and starts no pipeline, whether or not the
    record's id has been invalidated since: once its one callback has run,
    its promise is fulfilled with the headings the record holds, filtered by
    [depth] if it is given, and nothing but the two new promises has
    changed. *)
Theorem headings_of_record_with_headings (s : state) (i : nat) (r : ref)
    (depth : option Z) (hs : list heading) :
  i < length (instances s) → r < length (objects s) → jobs s = [] →
  node_headings (the_node s r) = Some hs →
  (headings_resolve i r depth s).1 = S (length (promises s))
  ∧ run [ResolveHeadings i r depth; RunJob] s
    = set_promises
        (λ h, h ++ [Promise (Fulfilled (VNode r)) [] AsyncFn;
                    Promise (Fulfilled (VHeadings (filter_headings depth hs))) []
                      Derived]) s.
Proof.
  intros Hi Hr Hj Hhs.
  set (s2 := set_promises (λ h, h ++ [Promise (Fulfilled (VNode r)) [] AsyncFn]) s).
  assert (getHeadings i r s = (length (promises s), s2)) as Hget.
  { unfold getHeadings. msimpl. rewrite Hhs. msimpl. f_equal.
    rewrite (settle_pending _ (length (promises s)) _ [] AsyncFn); [|apply lookup_new].
    destruct s as [ca ins ps obs trs js tr]. simpl in Hj. subst js.
    unfold s2, set_jobs, set_promises. simpl. by rewrite insert_new. }
  assert (length (promises s2) = S (length (promises s))) as Hl2.
  { unfold s2. simpl. rewrite length_app. simpl. lia. }
  destruct (derive_from_fulfilled s2 (length (promises s))
              (Promise (Fulfilled (VNode r)) [] AsyncFn) (VNode r)
              (VHeadings (filter_headings depth hs)) (KHeadingsField depth))
    as [Hd Hrun]; [done|apply lookup_new|done|..].
  { intros s0 Ho. unfold run_callback. msimpl.
    assert (the_node s0 r = the_node s r) as -> by (unfold the_node; by rewrite Ho).
    by rewrite Hhs. }
  rewrite Hl2 in Hd.
  unfold headings_resolve. msimpl. rewrite Hget. msimpl. split; [exact Hd|].
  unfold run. simpl foldl. unfold exec. rewrite guarded_ok by done.
  unfold headings_resolve. msimpl. rewrite Hget. msimpl. rewrite Hrun.
  destruct s. unfold s2, set_promises. simpl. by rewrite <- app_assoc.
Qed.

(** what [getHTML] does the first time for a record that is parsed *)
Lemma getHTML_parsed (s : state) (i : nat) (r : ref) (p : pid) (c : promise) (n : ref) :
  the_html_cache s i !! node_id (the_node s r) = None →
  astPromiseCache s !! node_id (the_node s r) = Some p →
  promises s !! p = Some c → p_state c = Fulfilled (VNode n) →
  let q := length (promises s) in
  getHTML i r s
  = (q, (set_html_cache i <[node_id (the_node s r) := q]>
           (set_jobs (λ js, js ++ [JThen (KRender q) (Some (VNode n))])
              (set_promises (λ h, h ++ [Promise Pending [] Executor]) s))).2).
Proof.
  intros Hmiss Hp Hc Hv q. unfold getHTML. msimpl. rewrite Hmiss. msimpl. fold q.
  set (s1 := set_promises (λ h, h ++ [Promise Pending [] Executor]) s).
  rewrite (getAST_hit i r s1 p) by done. msimpl.
  by rewrite (subscribe_fulfilled s1 p _ c (VNode n)); [|by apply lookup_snoc_old|].
Qed.

(** a field that waits for the HTML of a record that is parsed and that the
    closure has not rendered yet *)
Lemma field_of_parsed_record (s : state) (i : nat) (r : ref) (p : pid) (c : promise)
    (n : ref) (ast : tree) (mk : pid → kont) (w : value) :
  jobs s = [] →
  the_html_cache s i !! node_id (the_node s r) = None →
  astPromiseCache s !! node_id (the_node s r) = Some p →
  promises s !! p = Some c → p_state c = Fulfilled (VNode n) →
  the_tree s n = Some ast →
  let q := length (promises s) in
  let d := S (length (promises s)) in
  (∀ s0, node_html (the_node s0 n) = Some (to_html ast) →
         run_callback (mk d) (VNode n) s0 = settle d (Some w) s0) →
  let s1 := (then_derive (getHTML i r s).1 mk (getHTML i r s).2).2 in
  let s' := (run_next (run_next s1).2).2 in
  (then_derive (getHTML i r s).1 mk (getHTML i r s).2).1 = d
  ∧ promises s' = promises s ++ [Promise (Fulfilled (VNode n)) [] Executor;
                                 Promise (Fulfilled w) [] Derived]
  ∧ objects s' = alter (with_html (to_html ast)) n (objects s)
  ∧ instances s'
    = alter (λ c, Instance (inst_plugins c)
                    (<[node_id (the_node s r) := q]> (htmlPromisesCache c))) i
        (instances s)
  ∧ jobs s' = []
  ∧ astPromiseCache s' = astPromiseCache s ∧ trace s' = trace s
  ∧ trees s' = trees s.
Proof.
  intros Hj Hmiss Hp Hc Hv Hast q d Hcall s1' s'.
  set (id := node_id (the_node s r)).
  set (bump := λ c0 : instance,
         Instance (inst_plugins c0) (<[id := q]> (htmlPromisesCache c0))).
  assert (is_Some (objects s !! n)) as [x Hx].
  { unfold the_tree, the_node in Hast. destruct (objects s !! n); [done|]. done. }
  set (s1 := set_promises (λ h, h ++ [Promise Pending [] Executor]) s).
  set (s2 := set_jobs (λ js, js ++ [JThen (KRender q) (Some (VNode n))]) s1).
  set (s3 := set_instances (alter bump i) s2).
  set (s4 := set_promises (λ h, h ++ [Promise Pending [] Derived]) s3).
  set (s5 := set_promises <[q := Promise Pending [RThen (mk d)] Executor]> s4).
  set (s6 := set_jobs (λ _, []) s5).
  set (s7 := set_objects (alter (with_html (to_html ast)) n) s6).
  set (s8 := set_jobs (λ js, js ++ [JThen (mk d) (Some (VNode n))])
               (set_promises <[q := Promise (Fulfilled (VNode n)) [] Executor]> s7)).
  set (s9 := set_jobs (λ _, []) s8).
  assert (length (promises s3) = d) as Hl3.
  { unfold s3, s2, s1. autorewrite with fields. rewrite length_app. simpl. unfold d. lia. }
  assert (getHTML i r s = (q, s3)) as Hget by by apply (getHTML_parsed s i r p c n).
  assert (promises s4 !! q = Some (Promise Pending [] Executor)) as Hq4.
  { unfold s4, s3, s2, s1. autorewrite with fields. apply lookup_snoc_old, lookup_new. }
  assert (then_derive (getHTML i r s).1 mk (getHTML i r s).2 = (d, s5)) as Hres.
  { rewrite Hget. cbn [fst snd]. rewrite then_derive_eq, Hl3. f_equal. fold s4.
    by rewrite (subscribe_pending s4 q _ [] Executor Hq4), app_nil_l. }
  assert (q < length (promises s4)) as Hlt4 by by eapply lookup_lt_Some.
  assert (promises s4 !! d = Some (Promise Pending [] Derived)) as Hd4.
  { unfold s4. autorewrite with fields. rewrite <- Hl3. apply lookup_new. }
  assert (q ≠ d) as Hqd by (unfold q, d; lia).
  assert (s' = set_jobs (λ js, js ++ [])
                 (set_promises <[d := Promise (Fulfilled w) [] Derived]> s9)) as ->.
  { unfold s', s1'. rewrite Hres. cbn [snd].
    rewrite (run_next_cons s5 (JThen (KRender q) (Some (VNode n))) []);
      [|unfold s5, s4, s3, s2, s1; autorewrite with fields; by rewrite Hj].
    fold s6. assert (the_tree s6 n = Some ast) as Hast6 by done.
    simpl run_job. unfold run_callback at 1. msimpl. rewrite Hast6. msimpl. fold s7.
    rewrite (settle_pending s7 q _ [RThen (mk d)] Executor);
      [|unfold s7, s6, s5; autorewrite with fields; by apply list_lookup_insert_eq].
    change (job_of q (Some (VNode n)) <$> [RThen (mk d)])
      with [JThen (mk d) (Some (VNode n))].
    change (settled_state (Some (VNode n))) with (Fulfilled (VNode n)). fold s8.
    rewrite (run_next_cons s8 (JThen (mk d) (Some (VNode n))) []);
      [|unfold s8, s7, s6; by autorewrite with fields].
    fold s9. simpl run_job. rewrite Hcall.
    2:{ unfold the_node, s9, s8, s7. autorewrite with fields.
        unfold s6, s5, s4, s3, s2, s1. autorewrite with fields.
        by rewrite list_lookup_alter_eq, Hx. }
    rewrite (settle_pending s9 d _ [] Derived); [done|].
    unfold s9, s8, s7, s6, s5. autorewrite with fields.
    by rewrite !list_lookup_insert_ne. }
  rewrite Hres. split; [done|].
  unfold s9, s8, s7, s6, s5. autorewrite with fields.
  assert (promises s4 = promises s ++ [Promise Pending [] Executor; Promise Pending [] Derived])
    as Hps4.
  { unfold s4, s3, s2, s1. autorewrite with fields. by rewrite <- app_assoc. }
  split; [|unfold s4, s3, s2, s1; by autorewrite with fields].
  rewrite Hps4. unfold q, d.
  rewrite insert_app_r_alt, Nat.sub_diag by lia. simpl.
  rewrite insert_app_r_alt, Nat.sub_diag by lia. simpl.
  rewrite insert_app_r_alt by lia.
  by replace (S (length (promises s)) - length (promises s)) with 1 by lia.
Qed.

(** X11: the [html] field of a record that is parsed and that the closure
    has not rendered yet.  It starts no pipeline; once the two callbacks it
    leads to have run - the one of [getHTML], then its own - the record the
    AST promise was fulfilled with holds the HTML of its tree, the closure's
    HTML cache holds the promise of [getHTML] for the record's id, and the
    promise of the field is fulfilled with that HTML. *)
Theorem html_of_parsed_record (s : state) (i : nat) (r : ref) (p : pid) (c : promise)
    (n : ref) (ast : tree) :
  i < length (instances s) → r < length (objects s) → jobs s = [] →
  the_html_cache s i !! node_id (the_node s r) = None →
  astPromiseCache s !! node_id (the_node s r) = Some p →
  promises s !! p = Some c → p_state c = Fulfilled (VNode n) →
  the_tree s n = Some ast →
  let q := length (promises s) in
  let s' := run [ResolveHtml i r; RunJob; RunJob] s in
  (html_resolve i r s).1 = S q
  ∧ promises s' = promises s ++ [Promise (Fulfilled (VNode n)) [] Executor;
                                 Promise (Fulfilled (VString (to_html ast))) [] Derived]
  ∧ node_html (the_node s' n) = Some (to_html ast)
  ∧ the_html_cache s' i !! node_id (the_node s r) = Some q
  ∧ jobs s' = []
  ∧ astPromiseCache s' = astPromiseCache s ∧ trace s' = trace s
  ∧ trees s' = trees s.
Proof.
  intros Hi Hr Hj Hmiss Hp Hc Hv Hast q s'.
  destruct (field_of_parsed_record s i r p c n ast KHtmlField (VString (to_html ast))
              Hj Hmiss Hp Hc Hv Hast)
    as (Hd & Hps & Ho & Hin & Hjs & Hca & Htr & Hts).
  { intros s0 Hh. unfold run_callback. msimpl. by rewrite Hh. }
  assert (s' = (run_next (run_next
                  (then_derive (getHTML i r s).1 KHtmlField (getHTML i r s).2).2).2).2)
    as ->.
  { unfold s', run. simpl foldl. unfold exec. rewrite guarded_ok by done.
    unfold html_resolve. by msimpl. }
  assert ((html_resolve i r s).1 = S q) as Hd' by (unfold html_resolve; by msimpl).
  split; [exact Hd'|]. split; [exact Hps|]. split; [|split; [|done]].
  - unfold the_node. rewrite Ho, list_lookup_alter_eq.
    assert (is_Some (objects s !! n)) as [x Hx].
    { unfold the_tree, the_node in Hast. destruct (objects s !! n); [done|]. done. }
    by rewrite Hx.
  - unfold the_html_cache. rewrite Hin, list_lookup_alter_eq.
    apply lookup_lt_is_Some in Hi as [x Hx]. rewrite Hx. simpl.
    apply lookup_insert_eq.
Qed.

(** X12: the [timeToRead] field of a record that is parsed and that the
    closure has not rendered yet: like the [html] field it has the record
    rendered and cached, and its promise is fulfilled with the reading time
    of that HTML. *)
Theorem timeToRead_of_parsed_record (s : state) (i : nat) (r : ref) (p : pid)
    (c : promise) (n : ref) (ast : tree) :
  i < length (instances s) → r < length (objects s) → jobs s = [] →
  the_html_cache s i !! node_id (the_node s r) = None →
  astPromiseCache s !! node_id (the_node s r) = Some p →
  promises s !! p = Some c → p_state c = Fulfilled (VNode n) →
  the_tree s n = Some ast →
  let q := length (promises s) in
  let s' := run [ResolveTimeToRead i r; RunJob; RunJob] s in
  (timeToRead_resolve i r s).1 = S q
  ∧ promises s' = promises s ++ [Promise (Fulfilled (VNode n)) [] Executor;
                                 Promise (Fulfilled (VInt (timeToRead (to_html ast))))
                                   [] Derived]
  ∧ node_html (the_node s' n) = Some (to_html ast)
  ∧ the_html_cache s' i !! node_id (the_node s r) = Some q
  ∧ jobs s' = []
  ∧ astPromiseCache s' = astPromiseCache s ∧ trace s' = trace s
  ∧ trees s' = trees s.
Proof.
  intros Hi Hr Hj Hmiss Hp Hc Hv Hast q s'.
  destruct (field_of_parsed_record s i r p c n ast KTimeToRead
              (VInt (timeToRead (to_html ast))) Hj Hmiss Hp Hc Hv Hast)
    as (Hd & Hps & Ho & Hin & Hjs & Hca & Htr & Hts).
  { intros s0 Hh. unfold run_callback. msimpl. by rewrite Hh. }
  assert (s' = (run_next (run_next
                  (then_derive (getHTML i r s).1 KTimeToRead (getHTML i r s).2).2).2).2)
    as ->.
  { unfold s', run. simpl foldl. unfold exec. rewrite guarded_ok by done.
    unfold timeToRead_resolve. by msimpl. }
  assert ((timeToRead_resolve i r s).1 = S q) as Hd' by (unfold timeToRead_resolve; by msimpl).
  split; [exact Hd'|]. split; [exact Hps|]. split; [|split; [|done]].
  - unfold the_node. rewrite Ho, list_lookup_alter_eq.
    assert (is_Some (objects s !! n)) as [x Hx].
    { unfold the_tree, the_node in Hast. destruct (objects s !! n); [done|]. done. }
    by rewrite Hx.
  - unfold the_html_cache. rewrite Hin, list_lookup_alter_eq.
    apply lookup_lt_is_Some in Hi as [x Hx]. rewrite Hx. simpl.
    apply lookup_insert_eq.
Qed.

(** X13: the [html] and [timeToRead] fields of a record the closure has
    rendered.  When the closure's HTML cache holds, for the record's id, a
    promise fulfilled with a record that has its HTML, either field neither
    renders nor looks at the AST cache - whatever has happened to the tree
    or to the AST cache since: once its one callback has run, its promise is
    fulfilled with that HTML, or with its reading time, and nothing but the
    new promise has changed. *)
Theorem fields_of_rendered_record (s : state) (i : nat) (r : ref) (q : pid)
    (c : promise) (n : ref) (html : string) :
  i < length (instances s) → r < length (objects s) → jobs s = [] →
  the_html_cache s i !! node_id (the_node s r) = Some q →
  promises s !! q = Some c → p_state c = Fulfilled (VNode n) →
  node_html (the_node s n) = Some html →
  run [ResolveHtml i r; RunJob] s
  = set_promises (λ h, h ++ [Promise (Fulfilled (VString html)) [] Derived]) s
  ∧ run [ResolveTimeToRead i r; RunJob] s
    = set_promises (λ h, h ++ [Promise (Fulfilled (VInt (timeToRead html))) [] Derived]) s.
Proof.
  intros Hi Hr Hj Hq Hc Hv Hh.
  destruct (getHTML_frame i r s) as (_ & _ & Hhit & _).
  specialize (Hhit q Hq).
  assert (∀ s0, objects s0 = objects s → node_html (the_node s0 n) = Some html) as Hh0.
  { intros s0 Ho. unfold the_node. rewrite Ho. exact Hh. }
  split.
  - destruct (derive_from_fulfilled s q c (VNode n) (VString html) KHtmlField Hj Hc Hv)
      as [_ Hrun].
    { intros s0 Ho. unfold run_callback. msimpl. by rewrite (Hh0 s0 Ho). }
    unfold run. simpl foldl. unfold exec. rewrite guarded_ok by done.
    unfold html_resolve. msimpl. rewrite Hhit. msimpl. exact Hrun.
  - destruct (derive_from_fulfilled s q c (VNode n) (VInt (timeToRead html))
                KTimeToRead Hj Hc Hv) as [_ Hrun].
    { intros s0 Ho. unfold run_callback. msimpl. by rewrite (Hh0 s0 Ho). }
    unfold run. simpl foldl. unfold exec. rewrite guarded_ok by done.
    unfold timeToRead_resolve. msimpl. rewrite Hhit. msimpl. exact Hrun.
Qed.

End Parsed.

(** ** The same, on the sample record *)

Lemma excerpt_of_parsed_record_witness :
  let s := @run sample_libraries parsed_record init in
  let s' := @run sample_libraries [ResolveExcerpt 0 0 5%Z; RunJob] s in
  0 < length (instances s) ∧ 0 < length (objects s) ∧ jobs s = []
  ∧ astPromiseCache s !! node_id (the_node s 0) = Some 0
  ∧ promises s !! 0 = Some (Promise (Fulfilled (VNode 0)) [] Executor)
  ∧ the_tree s 0 = Some (sample_parse "Hello, world!?")
  ∧ promises s' !! 5 = Some (Promise (Fulfilled (VString "Hello...")) [] Derived).
Proof.
  intros s s'.
  assert (0 < length (instances s)) as Hi by (vm_compute; lia).
  assert (0 < length (objects s)) as Hr by (vm_compute; lia).
  assert (jobs s = []) as Hj by reflexivity.
  assert (astPromiseCache s !! node_id (the_node s 0) = Some 0) as Hp by reflexivity.
  assert (promises s !! 0 = Some (Promise (Fulfilled (VNode 0)) [] Executor)) as Hc
    by reflexivity.
  assert (the_tree s 0 = Some (sample_parse "Hello, world!?")) as Hast by reflexivity.
  repeat (split; [assumption|]).
  exact (proj1 (proj2 (@excerpt_of_parsed_record sample_libraries s 0 0 5%Z 0 _ 0 _
                         Hi Hr Hj Hp Hc eq_refl Hast))).
Defined.

Lemma headings_of_parsed_record_witness :
  let s := @run sample_libraries parsed_record init in
  let s' := @run sample_libraries [ResolveHeadings 0 0 None; RunJob; RunJob] s in
  0 < length (instances s) ∧ 0 < length (objects s) ∧ jobs s = []
  ∧ node_headings (the_node s 0) = None
  ∧ astPromiseCache s !! node_id (the_node s 0) = Some 0
  ∧ promises s !! 0 = Some (Promise (Fulfilled (VNode 0)) [] Executor)
  ∧ the_tree s 0 = Some (sample_parse "Hello, world!?")
  ∧ promises s' !! 6 = Some (Promise (Fulfilled (VHeadings [])) [] Derived).
Proof.
  intros s s'.
  assert (0 < length (instances s)) as Hi by (vm_compute; lia).
  assert (0 < length (objects s)) as Hr by (vm_compute; lia).
  assert (jobs s = []) as Hj by reflexivity.
  assert (node_headings (the_node s 0) = None) as Hn by reflexivity.
  assert (astPromiseCache s !! node_id (the_node s 0) = Some 0) as Hp by reflexivity.
  assert (promises s !! 0 = Some (Promise (Fulfilled (VNode 0)) [] Executor)) as Hc
    by reflexivity.
  assert (the_tree s 0 = Some (sample_parse "Hello, world!?")) as Hast by reflexivity.
  repeat (split; [assumption|]).
  exact (proj1 (proj2 (proj2 (@headings_of_parsed_record sample_libraries s 0 0 None 0 _
                                0 _ Hi Hr Hj Hn Hp Hc eq_refl Hast)))).
Defined.

Lemma headings_of_record_with_headings_witness :
  let s := @run sample_libraries
             (parsed_record ++ [ResolveHeadings 0 0 None; RunJob; RunJob]) init in
  0 < length (instances s) ∧ 0 < length (objects s) ∧ jobs s = []
  ∧ node_headings (the_node s 0) = Some []
  ∧ @run sample_libraries [ResolveHeadings 0 0 (Some 2%Z); RunJob] s
    = set_promises
        (λ h, h ++ [Promise (Fulfilled (VNode 0)) [] AsyncFn;
                    Promise (Fulfilled (VHeadings [])) [] Derived]) s.
Proof.
  intros s.
  assert (0 < length (instances s)) as Hi by (vm_compute; lia).
  assert (0 < length (objects s)) as Hr by (vm_compute; lia).
  assert (jobs s = []) as Hj by reflexivity.
  assert (node_headings (the_node s 0) = Some []) as Hn by reflexivity.
  repeat (split; [assumption|]).
  exact (proj2 (@headings_of_record_with_headings sample_libraries s 0 0 (Some 2%Z) []
                  Hi Hr Hj Hn)).
Defined.

Lemma html_of_parsed_record_witness :
  let s := @run sample_libraries parsed_record init in
  let s' := @run sample_libraries [ResolveHtml 0 0; RunJob; RunJob] s in
  0 < length (instances s) ∧ 0 < length (objects s) ∧ jobs s = []
  ∧ the_html_cache s 0 !! node_id (the_node s 0) = None
  ∧ astPromiseCache s !! node_id (the_node s 0) = Some 0
  ∧ promises s !! 0 = Some (Promise (Fulfilled (VNode 0)) [] Executor)
  ∧ the_tree s 0 = Some (sample_parse "Hello, world!?")
  ∧ node_html (the_node s' 0) = Some (sample_render (sample_parse "Hello, world!?")).
Proof.
  intros s s'.
  assert (0 < length (instances s)) as Hi by (vm_compute; lia).
  assert (0 < length (objects s)) as Hr by (vm_compute; lia).
  assert (jobs s = []) as Hj by reflexivity.
  assert (the_html_cache s 0 !! node_id (the_node s 0) = None) as Hm by reflexivity.
  assert (astPromiseCache s !! node_id (the_node s 0) = Some 0) as Hp by reflexivity.
  assert (promises s !! 0 = Some (Promise (Fulfilled (VNode 0)) [] Executor)) as Hc
    by reflexivity.
  assert (the_tree s 0 = Some (sample_parse "Hello, world!?")) as Hast by reflexivity.
  repeat (split; [assumption|]).
  exact (proj1 (proj2 (proj2 (@html_of_parsed_record sample_libraries s 0 0 0 _ 0 _
                                Hi Hr Hj Hm Hp Hc eq_refl Hast)))).
Defined.

Lemma timeToRead_of_parsed_record_witness :
  let s := @run sample_libraries parsed_record init in
  let s' := @run sample_libraries [ResolveTimeToRead 0 0; RunJob; RunJob] s in
  0 < length (instances s) ∧ 0 < length (objects s) ∧ jobs s = []
  ∧ the_html_cache s 0 !! node_id (the_node s 0) = None
  ∧ astPromiseCache s !! node_id (the_node s 0) = Some 0
  ∧ promises s !! 0 = Some (Promise (Fulfilled (VNode 0)) [] Executor)
  ∧ the_tree s 0 = Some (sample_parse "Hello, world!?")
  ∧ promises s' !! 6 = Some (Promise (Fulfilled (VInt 1)) [] Derived).
Proof.
  intros s s'.
  assert (0 < length (instances s)) as Hi by (vm_compute; lia).
  assert (0 < length (objects s)) as Hr by (vm_compute; lia).
  assert (jobs s = []) as Hj by reflexivity.
  assert (the_html_cache s 0 !! node_id (the_node s 0) = None) as Hm by reflexivity.
  assert (astPromiseCache s !! node_id (the_node s 0) = Some 0) as Hp by reflexivity.
  assert (promises s !! 0 = Some (Promise (Fulfilled (VNode 0)) [] Executor)) as Hc
    by reflexivity.
  assert (the_tree s 0 = Some (sample_parse "Hello, world!?")) as Hast by reflexivity.
  repeat (split; [assumption|]).
  pose proof (proj1 (proj2 (@timeToRead_of_parsed_record sample_libraries s 0 0 0 _ 0 _
                              Hi Hr Hj Hm Hp Hc eq_refl Hast))) as Hps.
  fold s' in Hps. rewrite Hps. reflexivity.
Defined.

Lemma fields_of_rendered_record_witness :
  let s := @run sample_libraries (parsed_record ++ [ResolveHtml 0 0; RunJob; RunJob]) init in
  let html := sample_render (sample_parse "Hello, world!?") in
  0 < length (instances s) ∧ 0 < length (objects s) ∧ jobs s = []
  ∧ the_html_cache s 0 !! node_id (the_node s 0) = Some 5
  ∧ promises s !! 5 = Some (Promise (Fulfilled (VNode 0)) [] Executor)
  ∧ node_html (the_node s 0) = Some html
  ∧ @run sample_libraries [ResolveHtml 0 0; RunJob] s
    = set_promises (λ h, h ++ [Promise (Fulfilled (VString html)) [] Derived]) s.
Proof.
  intros s html.
  assert (0 < length (instances s)) as Hi by (vm_compute; lia).
  assert (0 < length (objects s)) as Hr by (vm_compute; lia).
  assert (jobs s = []) as Hj by reflexivity.
  assert (the_html_cache s 0 !! node_id (the_node s 0) = Some 5) as Hq by reflexivity.
  assert (promises s !! 5 = Some (Promise (Fulfilled (VNode 0)) [] Executor)) as Hc
    by reflexivity.
  assert (node_html (the_node s 0) = Some html) as Hh by reflexivity.
  repeat (split; [assumption|]).
  exact (proj1 (@fields_of_rendered_record sample_libraries s 0 0 5 _ 0 html
                  Hi Hr Hj Hq Hc eq_refl Hh)).
Defined.

(** * What the promises carry *)

(** ** Records and trees that only gain *)

Lemma grows_refl s : grows s s.
Proof. by split. Qed.

Lemma grows_trans s1 s2 s3 : grows s1 s2 → grows s2 s3 → grows s1 s3.
Proof. intros [] []. split; try lia; auto. Qed.

Lemma grows_same s s' : objects s' = objects s → trees s' = trees s → grows s s'.
Proof.
  intros Ho Ht. split; unfold has_tree, has_html, has_headings, the_tree, the_node;
    rewrite ?Ho, ?Ht; auto.
Qed.

Lemma has_tree_lt s n : has_tree s n → n < length (objects s).
Proof.
  unfold has_tree, the_tree, the_node. intros Hn. apply lookup_lt_is_Some.
  destruct (objects s !! n); [done|]. simpl in Hn. by destruct Hn.
Qed.

Lemma has_tree_intro s r t :
  r < length (objects s) → node_ast (the_node s r) = Some t → t < length (trees s) →
  has_tree s r.
Proof.
  intros Hr Ha Ht. unfold has_tree, the_tree. rewrite Ha. simpl.
  by apply lookup_lt_is_Some.
Qed.

Lemma grows_new_node s n : grows s (set_objects (λ l, l ++ [n]) s).
Proof.
  assert (∀ r, r < length (objects s) →
            the_node (set_objects (λ l, l ++ [n]) s) r = the_node s r) as Hsame.
  { intros r Hr. unfold the_node. simpl. by rewrite lookup_app_l. }
  assert (∀ r, objects s !! r = None → the_node s r = MNode "" "" "" None None None) as Hdef.
  { intros r Hr. unfold the_node. by rewrite Hr. }
  split; simpl; [rewrite length_app; lia|done|..].
  - intros r Hr. pose proof (has_tree_lt _ _ Hr) as Hlt.
    unfold has_tree, the_tree in *. rewrite Hsame by done. exact Hr.
  - intros r Hr. unfold has_html in *.
    destruct (objects s !! r) eqn:E.
    + rewrite Hsame; [done|]. by eapply lookup_lt_Some.
    + rewrite (Hdef r E) in Hr. by destruct Hr.
  - intros r Hr. unfold has_headings in *.
    destruct (objects s !! r) eqn:E.
    + rewrite Hsame; [done|]. by eapply lookup_lt_Some.
    + rewrite (Hdef r E) in Hr. by destruct Hr.
Qed.

(** a record updated in place by a function that takes no field away *)
Lemma grows_alter s r (f : mnode → mnode) :
  (∀ x, node_ast (f x) = node_ast x
        ∨ ∃ t, node_ast (f x) = Some t ∧ t < length (trees s)) →
  (∀ x, is_Some (node_html x) → is_Some (node_html (f x))) →
  (∀ x, is_Some (node_headings x) → is_Some (node_headings (f x))) →
  grows s (set_objects (alter f r) s).
Proof.
  intros Ha Hh Hd.
  assert (∀ r', the_node (set_objects (alter f r) s) r'
                = if decide (r' = r) then
                    match objects s !! r with Some x => f x | None => the_node s r' end
                  else the_node s r') as Hnode.
  { intros r'. unfold the_node. simpl. destruct (decide (r' = r)) as [->|Hne].
    - rewrite list_lookup_alter_eq. by destruct (objects s !! r).
    - by rewrite list_lookup_alter_ne. }
  split; simpl; [by rewrite length_alter|done|..].
  - intros n Hn. unfold has_tree, the_tree in *. rewrite Hnode.
    destruct (decide (n = r)) as [->|]; [|done].
    unfold the_node in Hn.
    destruct (objects s !! r) as [x|] eqn:E; [|simpl in Hn; by destruct Hn].
    simpl in Hn. destruct (Ha x) as [->|(t & -> & Ht)]; [done|].
    simpl. by apply lookup_lt_is_Some.
  - intros n Hn. unfold has_html in *. rewrite Hnode.
    destruct (decide (n = r)) as [->|]; [|done].
    unfold the_node in Hn.
    destruct (objects s !! r) as [x|] eqn:E; [|simpl in Hn; by destruct Hn]. by apply Hh.
  - intros n Hn. unfold has_headings in *. rewrite Hnode.
    destruct (decide (n = r)) as [->|]; [|done].
    unfold the_node in Hn.
    destruct (objects s !! r) as [x|] eqn:E; [|simpl in Hn; by destruct Hn]. by apply Hd.
Qed.

Lemma grows_new_tree s t : grows s (set_trees (λ h, h ++ [t]) s).
Proof.
  split; simpl; [done|rewrite length_app; lia|..]; try done.
  intros n. unfold has_tree, the_tree. simpl.
  change (the_node (set_trees _ s) n) with (the_node s n).
  destruct (node_ast (the_node s n)) as [a|]; simpl; [|done].
  intros [x Hx]. exists x. by apply lookup_app_l_Some.
Qed.

Lemma grows_alter_tree s t (f : tree → tree) : grows s (set_trees (alter f t) s).
Proof.
  split; simpl; [done|by rewrite length_alter|..]; try done.
  intros n. unfold has_tree, the_tree. simpl.
  change (the_node (set_trees _ s) n) with (the_node s n).
  destruct (node_ast (the_node s n)) as [a|]; simpl; [|done].
  intros Hx. apply lookup_lt_is_Some. rewrite length_alter. by apply lookup_lt_is_Some.
Qed.

(** ** The roles of the promises do not change *)

Lemma started_mono s s' q : extends s s' → started q s → started q s'.
Proof. intros Hext [id Hin]. exists id. by apply (ext_trace _ _ Hext). Qed.

Lemma is_ast_mono s s' q : extends s s' → is_ast s q → is_ast s' q.
Proof. intros Hext [Hk Hs]. split; [by apply (ext_kind _ _ Hext)|by eapply started_mono]. Qed.

Lemma is_html_mono s s' q : extends s s' → is_html s q → is_html s' q.
Proof.
  intros Hext [Hk Hs]. split; [by apply (ext_kind _ _ Hext)|].
  intros Hs'. destruct (ext_started _ _ Hext q Hs') as [|Hge]; [done|].
  apply cell_kind_lt in Hk. lia.
Qed.

Lemma is_hd_mono s s' q : extends s s' → is_hd s q → is_hd s' q.
Proof. intros Hext Hk. by apply (ext_kind _ _ Hext). Qed.

Lemma cell_kind_back s s' q κ :
  extends s s' → q < length (promises s) → cell_kind s' q = Some κ → cell_kind s q = Some κ.
Proof.
  intros Hext Hq Hk. apply lookup_lt_is_Some in Hq as [c Hc].
  pose proof (cell_kind_origin s q c Hc) as Hk0.
  pose proof (ext_kind _ _ Hext _ _ Hk0) as Hk1. congruence.
Qed.

Lemma is_ast_back s s' q :
  extends s s' → q < length (promises s) → is_ast s' q → is_ast s q.
Proof.
  intros Hext Hq [Hk Hs]. split; [by eapply cell_kind_back|].
  destruct (ext_started _ _ Hext q Hs) as [|Hge]; [done|lia].
Qed.

Lemma is_html_back s s' q :
  extends s s' → q < length (promises s) → is_html s' q → is_html s q.
Proof.
  intros Hext Hq [Hk Hs]. split; [by eapply cell_kind_back|].
  intros Hs0. apply Hs. by eapply started_mono.
Qed.

Lemma is_hd_back s s' q :
  extends s s' → q < length (promises s) → is_hd s' q → is_hd s q.
Proof. intros Hext Hq Hk. by eapply cell_kind_back. Qed.

Lemma carries_mono s s' v (P : state → ref → Prop) :
  (∀ n, P s n → P s' n) → carries s v P → carries s' v P.
Proof. intros HP (n & -> & Hn). exists n. auto. Qed.

Lemma value_ok_mono s s' q v :
  extends s s' → grows s s' → q < length (promises s) →
  value_ok s q v → value_ok s' q v.
Proof.
  intros Hext Hg Hq (Ha & Hh & Hd). split; [|split].
  - intros Hq'. eapply carries_mono; [apply Hg|]. apply Ha. by eapply is_ast_back.
  - intros Hq'. eapply carries_mono; [apply Hg|]. apply Hh. by eapply is_html_back.
  - intros Hq'. eapply carries_mono; [apply Hg|]. apply Hd. by eapply is_hd_back.
Qed.

Lemma reg_ok_mono s s' q k :
  extends s s' → grows s s' → reg_ok s q k → reg_ok s' q k.
Proof.
  intros Hext Hg. pose proof (g_objects _ _ Hg). pose proof (g_trees _ _ Hg).
  destruct k; simpl.
  - intros [? ?]. split; [lia|by eapply started_mono].
  - intros (? & ? & ?). split; [lia|]. split; [lia|by eapply started_mono].
  - intros [? ?]. split; [by eapply is_ast_mono|lia].
  - by apply is_ast_mono.
  - by apply is_html_mono.
  - by apply is_ast_mono.
  - by apply is_hd_mono.
  - by apply is_html_mono.
Qed.

Lemma job_ok_mono s s' k o :
  extends s s' → grows s s' → job_ok s k o → job_ok s' k o.
Proof.
  intros Hext Hg. pose proof (g_objects _ _ Hg). pose proof (g_trees _ _ Hg).
  destruct k; simpl.
  - intros [? ?]. split; [lia|by eapply started_mono].
  - intros (? & ? & ?). split; [lia|]. split; [lia|by eapply started_mono].
  - intros [(v & -> & Hv) ?]. split; [|lia]. exists v. split; [done|].
    eapply carries_mono; [apply Hg|done].
  - intros (v & -> & Hv). exists v. split; [done|]. eapply carries_mono; [apply Hg|done].
  - intros (v & -> & Hv). exists v. split; [done|]. eapply carries_mono; [apply Hg|done].
  - intros (v & -> & Hv). exists v. split; [done|]. eapply carries_mono; [apply Hg|done].
  - intros (v & -> & Hv). exists v. split; [done|]. eapply carries_mono; [apply Hg|done].
  - intros (v & -> & Hv). exists v. split; [done|]. eapply carries_mono; [apply Hg|done].
Qed.

(** a callback that is registered where it may be, once the promise settles *)
Lemma reg_ok_job s q k o :
  reg_ok s q k →
  (∀ v, o = Some v → value_ok s q v) →
  (o = None → cell_kind s q = Some KExternal ∨ cell_kind s q = Some KAllOf) →
  job_ok s k o.
Proof.
  intros Hreg Hv Hn.
  assert (∀ P : Prop, is_ast s q → o = None → P) as Hna.
  { intros P [Hk _] ->. destruct Hn as [|]; [done|congruence|congruence]. }
  assert (∀ P : Prop, is_html s q → o = None → P) as Hnh.
  { intros P [Hk _] ->. destruct Hn as [|]; [done|congruence|congruence]. }
  assert (∀ P : Prop, is_hd s q → o = None → P) as Hnd.
  { intros P Hk ->. unfold is_hd in Hk. destruct Hn as [|]; [done|congruence|congruence]. }
  destruct k; simpl in *; try done.
  - destruct Hreg as [Ha Hr]. split; [|done].
    destruct o as [v|]; [|by eapply Hna]. exists v. split; [done|]. by apply (Hv v).
  - destruct o as [v|]; [|by eapply Hna]. exists v. split; [done|]. by apply (Hv v).
  - destruct o as [v|]; [|by eapply Hnh]. exists v. split; [done|]. by apply (Hv v).
  - destruct o as [v|]; [|by eapply Hna]. exists v. split; [done|]. by apply (Hv v).
  - destruct o as [v|]; [|by eapply Hnd]. exists v. split; [done|]. by apply (Hv v).
  - destruct o as [v|]; [|by eapply Hnh]. exists v. split; [done|]. by apply (Hv v).
Qed.

(** ** A step, by what it adds *)

Lemma Sound_step s s' :
  Sound s → extends s s' → grows s s' →
  (∀ q c' k, promises s' !! q = Some c' → RThen k ∈ p_reactions c' →
     (∃ c, promises s !! q = Some c ∧ RThen k ∈ p_reactions c) ∨ reg_ok s' q k) →
  (∀ k o, JThen k o ∈ jobs s' → JThen k o ∈ jobs s ∨ job_ok s' k o) →
  (∀ q c' v, promises s' !! q = Some c' → p_state c' = Fulfilled v →
     (∃ c, promises s !! q = Some c ∧ p_state c = Fulfilled v) ∨ value_ok s' q v) →
  (∀ q, rejected s' q →
     rejected s q ∨ cell_kind s' q = Some KExternal ∨ cell_kind s' q = Some KAllOf) →
  (∀ id p, astPromiseCache s' !! id = Some p →
     astPromiseCache s !! id = Some p ∨ started p s') →
  (∀ i id q, the_html_cache s' i !! id = Some q →
     the_html_cache s i !! id = Some q ∨ is_html s' q) →
  Sound s'.
Proof.
  intros HS Hext Hg Hreg Hjob Hval Hrej Hcache Hhtml. split.
  - intros q c' k Hq Hin. destruct (Hreg q c' k Hq Hin) as [(c & Hc & Hin')|]; [|done].
    eapply reg_ok_mono; [done|done|]. by eapply (S_reg _ HS).
  - intros k o Hin. destruct (Hjob k o Hin) as [Hin'|]; [|done].
    eapply job_ok_mono; [done|done|]. by apply (S_job _ HS).
  - intros q c' v Hq Hv. destruct (Hval q c' v Hq Hv) as [(c & Hc & Hv')|]; [|done].
    eapply value_ok_mono; [done|done|by eapply lookup_lt_Some|]. by eapply (S_val _ HS).
  - intros q Hr. destruct (Hrej q Hr) as [Hr'|]; [|done].
    destruct (S_rej _ HS q Hr') as [Hk|Hk]; [left|right]; by apply (ext_kind _ _ Hext).
  - intros id p Hp. destruct (Hcache id p Hp) as [Hp'|]; [|done].
    eapply started_mono; [done|]. by eapply (S_cache _ HS).
  - intros i id q Hq. destruct (Hhtml i id q Hq) as [Hq'|]; [|done].
    eapply is_html_mono; [done|]. by eapply (S_html _ HS).
Qed.

(** ** The primitives *)

Lemma Sound_quiet s s' :
  Sound s → extends s s' → grows s s' →
  promises s' = promises s → jobs s' = jobs s →
  astPromiseCache s' = astPromiseCache s → instances s' = instances s → Sound s'.
Proof.
  intros HS Hext Hg Hp Hj Hc Hi. apply (Sound_step s s' HS Hext Hg).
  - intros q c' k Hq Hin. left. exists c'. by rewrite <- Hp.
  - intros k o Hin. left. by rewrite <- Hj.
  - intros q c' v Hq Hv. left. exists c'. by rewrite <- Hp.
  - intros q (c & Hq & Hr). left. exists c. by rewrite <- Hp.
  - intros id p Hq. left. by rewrite <- Hc.
  - intros i id q Hq. left. unfold the_html_cache in *. by rewrite <- Hi.
Qed.

Lemma log_sound s ev :
  (∀ p id, ev ≠ EStart p id) → Sound s → Sound (set_trace (λ t, t ++ [ev]) s).
Proof.
  intros Hev HS.
  apply (Sound_quiet s _ HS); [by apply extends_log|by apply grows_same|done..].
Qed.

Lemma alloc_sound s c :
  Sound s → p_reactions c = [] →
  (p_state c = Pending
   ∨ (p_state c ≠ Rejected ∧ kind_of (p_origin c) ≠ KExecutor
      ∧ kind_of (p_origin c) ≠ KAsyncFn)) →
  Sound (set_promises (λ h, h ++ [c]) s).
Proof.
  intros HS Hrx Hst.
  apply (Sound_step s _ HS (extends_alloc s c)); [by apply grows_same|..]; simpl.
  - intros q c' k Hq Hin. apply lookup_snoc_Some in Hq as [[_ Hq]|[_ <-]].
    + left. by exists c'.
    + rewrite Hrx in Hin. by apply elem_of_nil in Hin.
  - intros k o Hin. by left.
  - intros q c' v Hq Hv. apply lookup_snoc_Some in Hq as [[_ Hq]|[-> <-]].
    + left. by exists c'.
    + right. destruct Hst as [Hst|(_ & Hne & Hna)]; [congruence|].
      assert (cell_kind (set_promises (λ h, h ++ [c]) s) (length (promises s))
              = Some (kind_of (p_origin c))) as Hk.
      { unfold cell_kind. simpl. by rewrite lookup_new. }
      split; [|split]; unfold is_ast, is_html, is_hd; rewrite Hk.
      * intros [[= Hx] _]. by destruct Hne.
      * intros [[= Hx] _]. by destruct Hne.
      * intros [= Hx]. by destruct Hna.
  - intros q (c' & Hq & Hr). apply lookup_snoc_Some in Hq as [[_ Hq]|[_ <-]].
    + left. by exists c'.
    + destruct Hst as [Hst|(Hnr & _)]; congruence.
  - intros id p Hp. by left.
  - intros i id q Hq. by left.
Qed.

Lemma start_sound s id :
  Sound s →
  Sound (set_trace (λ t, t ++ [EStart (length (promises s)) id])
           (set_promises (λ h, h ++ [Promise Pending [] Executor]) s)).
Proof.
  intros HS.
  apply (Sound_step s _ HS (extends_start s _ id)); [by apply grows_same|..]; simpl.
  - intros q c' k Hq Hin. apply lookup_snoc_Some in Hq as [[_ Hq]|[_ <-]].
    + left. by exists c'.
    + by apply elem_of_nil in Hin.
  - intros k o Hin. by left.
  - intros q c' v Hq Hv. apply lookup_snoc_Some in Hq as [[_ Hq]|[_ <-]]; [|done].
    left. by exists c'.
  - intros q (c' & Hq & Hr). apply lookup_snoc_Some in Hq as [[_ Hq]|[_ <-]]; [|done].
    left. by exists c'.
  - intros id' p Hp. by left.
  - intros i id' q Hq. by left.
Qed.

Lemma settle_sound s q o :
  Sound s →
  (∀ v, o = Some v → value_ok s q v) →
  (o = None → cell_kind s q = Some KExternal ∨ cell_kind s q = Some KAllOf) →
  Sound (settle q o s).2.
Proof.
  intros HS Hv Hn. pose proof (settle_extends s q o) as Hext. revert Hext.
  rewrite settle_eq. destruct (promises s !! q) as [[[] rxs org]|] eqn:Hq; try done.
  intros Hext.
  set (s' := set_jobs _ _) in *.
  assert (grows s s') as Hg by by apply grows_same.
  assert (q < length (promises s)) as Hlt by by eapply lookup_lt_Some.
  assert (promises s' !! q = Some (Promise (settled_state o) [] org)) as Hq'.
  { simpl. by apply list_lookup_insert_eq. }
  assert (∀ q', q' ≠ q → promises s' !! q' = promises s !! q') as Hother.
  { intros q' Hne. simpl. by apply list_lookup_insert_ne. }
  apply (Sound_step s s' HS Hext Hg).
  - intros q' c' k Hc' Hin. destruct (decide (q' = q)) as [->|Hne].
    + rewrite Hq' in Hc'. injection Hc' as <-. by apply elem_of_nil in Hin.
    + left. exists c'. by rewrite <- Hother.
  - intros k o' Hin. simpl in Hin. apply elem_of_app in Hin as [Hin|Hin]; [by left|].
    right. apply list_elem_of_fmap in Hin as (rx & Hrx & Hin).
    destruct rx as [k'|a]; [|done]. injection Hrx as -> ->.
    apply (reg_ok_job s' q).
    + eapply reg_ok_mono; [done|done|]. by eapply (S_reg _ HS).
    + intros v Hov. eapply value_ok_mono; [done|done|done|by apply Hv].
    + intros Ho. destruct (Hn Ho) as [Hk|Hk]; [left|right]; by apply (ext_kind _ _ Hext).
  - intros q' c' v Hc' Hst. destruct (decide (q' = q)) as [->|Hne].
    + right. rewrite Hq' in Hc'. injection Hc' as <-. simpl in Hst.
      destruct o as [v'|]; [|done]. injection Hst as ->.
      eapply value_ok_mono; [done|done|done|by apply Hv].
    + left. exists c'. by rewrite <- Hother.
  - intros q' (c' & Hc' & Hst). destruct (decide (q' = q)) as [->|Hne].
    + right. rewrite Hq' in Hc'. injection Hc' as <-. simpl in Hst.
      destruct o as [v'|]; [done|].
      destruct (Hn eq_refl) as [Hk|Hk]; [left|right]; by apply (ext_kind _ _ Hext).
    + left. exists c'. by rewrite <- Hother.
  - intros id p Hp. by left.
  - intros i id q' Hq0. by left.
Qed.

Lemma subscribe_sound s q rx :
  Sound s → (∀ k, rx = RThen k → reg_ok s q k) → Sound (subscribe q rx s).2.
Proof.
  intros HS Hreg. pose proof (subscribe_extends s q rx) as Hext. revert Hext.
  rewrite subscribe_eq. destruct (promises s !! q) as [[st rxs org]|] eqn:Hq; [|done].
  destruct (outcome st) as [o|] eqn:Ho; intros Hext.
  - (* settled: the callback is queued *)
    set (s' := set_jobs _ _) in *.
    apply (Sound_step s s' HS Hext); [by apply grows_same|..].
    + intros q' c' k Hc' Hin. left. by exists c'.
    + intros k o' Hin. simpl in Hin. apply elem_of_app in Hin as [Hin|Hin]; [by left|].
      right. apply list_elem_of_singleton in Hin.
      destruct rx as [k'|a]; [|done]. injection Hin as -> ->.
      apply (reg_ok_job s' q).
      * eapply reg_ok_mono; [done|by apply grows_same|]. by apply Hreg.
      * intros v ->. destruct st; try done. injection Ho as <-.
        eapply value_ok_mono; [done|by apply grows_same|by eapply lookup_lt_Some|].
        by eapply (S_val _ HS).
      * intros ->. destruct st; try done.
        assert (rejected s q) as Hr by by eexists.
        destruct (S_rej _ HS q Hr) as [Hk|Hk]; [left|right]; by apply (ext_kind _ _ Hext).
    + intros q' c' v Hc' Hv. left. by exists c'.
    + intros q' (c' & Hc' & Hr). left. by exists c'.
    + intros id p Hp. by left.
    + intros i id q' Hq'. by left.
  - (* pending: the callback is registered *)
    set (s' := set_promises _ _) in *.
    assert (st = Pending) as -> by by destruct st.
    assert (q < length (promises s)) as Hlt by by eapply lookup_lt_Some.
    assert (promises s' !! q = Some (Promise Pending (rxs ++ [rx]) org)) as Hq'.
    { simpl. by apply list_lookup_insert_eq. }
    assert (∀ q', q' ≠ q → promises s' !! q' = promises s !! q') as Hother.
    { intros q' Hne. simpl. by apply list_lookup_insert_ne. }
    apply (Sound_step s s' HS Hext); [by apply grows_same|..].
    + intros q' c' k Hc' Hin. destruct (decide (q' = q)) as [->|Hne].
      * rewrite Hq' in Hc'. injection Hc' as <-. simpl in Hin.
        apply elem_of_app in Hin as [Hin|Hin]; [left; by eexists|].
        apply list_elem_of_singleton in Hin. right.
        eapply reg_ok_mono; [done|by apply grows_same|]. by apply Hreg.
      * left. exists c'. by rewrite <- Hother.
    + intros k o Hin. by left.
    + intros q' c' v Hc' Hv. destruct (decide (q' = q)) as [->|Hne].
      * rewrite Hq' in Hc'. by injection Hc' as <-.
      * left. exists c'. by rewrite <- Hother.
    + intros q' (c' & Hc' & Hr). destruct (decide (q' = q)) as [->|Hne].
      * rewrite Hq' in Hc'. by injection Hc' as <-.
      * left. exists c'. by rewrite <- Hother.
    + intros id p Hp. by left.
    + intros i id q' Hq0. by left.
Qed.

Lemma Sound_cells s s' :
  Sound s → extends s s' → grows s s' →
  promises s' = promises s → (∀ j, j ∈ jobs s' → j ∈ jobs s) →
  (∀ id p, astPromiseCache s' !! id = Some p →
     astPromiseCache s !! id = Some p ∨ started p s') →
  (∀ i id q, the_html_cache s' i !! id = Some q →
     the_html_cache s i !! id = Some q ∨ is_html s' q) →
  Sound s'.
Proof.
  intros HS Hext Hg Hp Hj Hc Hh. apply (Sound_step s s' HS Hext Hg).
  - intros q c' k Hq Hin. left. exists c'. by rewrite <- Hp.
  - intros k o Hin. left. by apply Hj.
  - intros q c' v Hq Hv. left. exists c'. by rewrite <- Hp.
  - intros q (c & Hq & Hr). left. exists c. by rewrite <- Hp.
  - exact Hc.
  - exact Hh.
Qed.

Lemma cache_sound s (f : gmap string pid → gmap string pid) :
  Sound s →
  (∀ id p, f (astPromiseCache s) !! id = Some p →
           astPromiseCache s !! id = Some p ∨ started p s) →
  Sound (set_cache f s).
Proof.
  intros HS Hf.
  apply (Sound_cells s _ HS); [by apply extends_same|by apply grows_same|done|done|..].
  - exact Hf.
  - intros i id q Hq. by left.
Qed.

Lemma html_cache_sound s i id q :
  Sound s → is_html s q → Sound (set_html_cache i <[id := q]> s).2.
Proof.
  intros HS Hq. unfold set_html_cache. msimpl.
  apply (Sound_cells s _ HS); [by apply extends_same|by apply grows_same|done|done|..].
  - intros id' p Hp. by left.
  - intros j id' q' Hq'. rewrite the_html_cache_alter in Hq'.
    destruct (decide (j = i)) as [->|]; [|by left].
    destruct (decide (i < length (instances s))); [|by rewrite lookup_empty in Hq'].
    destruct (decide (id' = id)) as [->|Hne].
    + rewrite lookup_insert_eq in Hq'. injection Hq' as <-. by right.
    + rewrite lookup_insert_ne in Hq' by done. by left.
Qed.

Lemma new_closure_sound s pls :
  Sound s → Sound (set_instances (λ l, l ++ [Instance pls ∅]) s).
Proof.
  intros HS.
  apply (Sound_cells s _ HS); [by apply extends_same|by apply grows_same|done|done|..].
  - intros id p Hp. by left.
  - intros j id q Hq. left. unfold the_html_cache in *. simpl in Hq.
    destruct (decide (j < length (instances s))) as [Hj|Hj].
    + by rewrite lookup_app_l in Hq.
    + rewrite lookup_app_r in Hq by lia.
      destruct (j - length (instances s)) as [|m]; simpl in Hq;
        by rewrite lookup_empty in Hq.
Qed.

Lemma pop_sound s j js : Sound s → jobs s = j :: js → Sound (set_jobs (λ _, js) s).
Proof.
  intros HS Hj.
  apply (Sound_cells s _ HS); [by apply extends_same|by apply grows_same|done|..].
  - intros j' Hin. rewrite Hj. by apply list_elem_of_further.
  - intros id p Hp. by left.
  - intros i id q Hq. by left.
Qed.

(** the elements a [Promise.all] still waits for *)
Lemma waiting_sound s a st rxs es w w' :
  Sound s → promises s !! a = Some (Promise st rxs (AllOf es w)) →
  Sound (set_promises <[a := Promise st rxs (AllOf es w')]> s).
Proof.
  intros HS Ha. set (s' := set_promises _ s).
  assert (a < length (promises s)) as Hlt by by eapply lookup_lt_Some.
  assert (promises s' !! a = Some (Promise st rxs (AllOf es w'))) as Ha'.
  { simpl. by apply list_lookup_insert_eq. }
  assert (∀ q', q' ≠ a → promises s' !! q' = promises s !! q') as Hother.
  { intros q' Hne. simpl. by apply list_lookup_insert_ne. }
  apply (Sound_step s s' HS); [by eapply extends_update|by apply grows_same|..].
  - intros q' c' k Hc' Hin. left. destruct (decide (q' = a)) as [->|Hne].
    + rewrite Ha' in Hc'. injection Hc' as <-. by eexists.
    + exists c'. by rewrite <- Hother.
  - intros k o Hin. by left.
  - intros q' c' v Hc' Hv. left. destruct (decide (q' = a)) as [->|Hne].
    + rewrite Ha' in Hc'. injection Hc' as <-. by eexists.
    + exists c'. by rewrite <- Hother.
  - intros q' (c' & Hc' & Hr). left. destruct (decide (q' = a)) as [->|Hne].
    + rewrite Ha' in Hc'. injection Hc' as <-. by eexists.
    + exists c'. by rewrite <- Hother.
  - intros id p Hp. by left.
  - intros i id q Hq. by left.
Qed.

(** ** Later states *)

Lemma later_refl s : later s s.
Proof. split; [apply extends_refl|apply grows_refl]. Qed.

Lemma later_trans s1 s2 s3 : later s1 s2 → later s2 s3 → later s1 s3.
Proof.
  intros [] []. split; [by eapply extends_trans|by eapply grows_trans].
Qed.

Lemma later_started s s' q : later s s' → started q s → started q s'.
Proof. intros [Hext _]. by apply started_mono. Qed.

Lemma later_objects s s' r : later s s' → r < length (objects s) → r < length (objects s').
Proof. intros [_ Hg] Hr. pose proof (g_objects _ _ Hg). lia. Qed.

Lemma later_trees s s' t : later s s' → t < length (trees s) → t < length (trees s').
Proof. intros [_ Hg] Hr. pose proof (g_trees _ _ Hg). lia. Qed.

Lemma later_kind s s' q κ : later s s' → cell_kind s q = Some κ → cell_kind s' q = Some κ.
Proof. intros [Hext _]. by apply (ext_kind _ _ Hext). Qed.

Lemma later_alloc s c : later s (set_promises (λ h, h ++ [c]) s).
Proof. split; [apply extends_alloc|by apply grows_same]. Qed.

Lemma later_log s ev :
  (∀ p id, ev ≠ EStart p id) → later s (set_trace (λ t, t ++ [ev]) s).
Proof. intros Hev. split; [by apply extends_log|by apply grows_same]. Qed.

Lemma later_settle s q o : later s (settle q o s).2.
Proof.
  split; [apply settle_extends|].
  destruct (settle_same_heap s q o) as (Ho & Ht & _). by apply grows_same.
Qed.

Lemma later_subscribe s q rx : later s (subscribe q rx s).2.
Proof.
  split; [apply subscribe_extends|].
  destruct (subscribe_same_heap s q rx) as (Ho & Ht & _). by apply grows_same.
Qed.

Lemma later_heap s s' :
  promises s' = promises s → trace s' = trace s → grows s s' → later s s'.
Proof. intros Hp Ht Hg. split; [by apply extends_same|done]. Qed.

Lemma value_ok_other s q v κ :
  cell_kind s q = Some κ → κ ≠ KExecutor → κ ≠ KAsyncFn → value_ok s q v.
Proof.
  intros Hk Hne Hna. split; [|split]; unfold is_ast, is_html, is_hd; rewrite Hk.
  - intros [[= Hx] _]. by destruct Hne.
  - intros [[= Hx] _]. by destruct Hne.
  - intros [= Hx]. by destruct Hna.
Qed.

(** ** [Promise.all] *)

Lemma promise_all_sound s es :
  Sound s → Sound (promise_all es s).2 ∧ later s (promise_all es s).2.
Proof.
  intros HS. unfold promise_all. msimpl.
  set (a := length (promises s)).
  set (s1 := set_promises (λ h, h ++ [Promise Pending [] (AllOf es es)]) s).
  assert (Sound s1) as HS1 by (apply alloc_sound; [done|done|by left]).
  assert (later s s1) as HL1 by apply later_alloc.
  assert (cell_kind s1 a = Some KAllOf) as Hk.
  { unfold cell_kind, s1, a. simpl. by rewrite lookup_new. }
  destruct es as [|e es]; msimpl.
  - split.
    + apply settle_sound; [done| |done]. intros v _. by eapply value_ok_other.
    + eapply later_trans; [done|apply later_settle].
  - apply (forM__ind _ (λ s', Sound s' ∧ later s s')); [|done].
    intros x s' _ [HS' HL']. split.
    + by apply subscribe_sound.
    + eapply later_trans; [done|apply later_subscribe].
Qed.

(** ** [getAST] *)

Lemma call_mutate_sound s r p k pl :
  Sound s → Sound (call_mutate r p k pl s).2 ∧ later s (call_mutate r p k pl s).2.
Proof.
  intros HS. unfold call_mutate. destruct (mutateSource pl) as [m|]; msimpl.
  - set (s1 := set_objects (alter (with_src (mut_now m)) r) s).
    assert (grows s s1) as Hg1.
    { apply grows_alter; [by left|done|done]. }
    assert (later s s1) as HL1 by by apply later_heap.
    assert (Sound s1) as HS1 by by apply (Sound_quiet s _ HS); [apply HL1|..].
    set (s2 := set_promises _ s1).
    assert (Sound s2) as HS2 by (apply alloc_sound; [done|done|by left]).
    split; [by apply log_sound|].
    eapply later_trans; [done|]. eapply later_trans; [apply later_alloc|].
    by apply later_log.
  - split; [|apply later_alloc].
    apply alloc_sound; [done|done|]. right. done.
Qed.

Lemma call_mutate_loop_sound s r p pls k0 :
  Sound s →
  Sound (mapM_from (call_mutate r p) k0 pls s).2
  ∧ later s (mapM_from (call_mutate r p) k0 pls s).2.
Proof.
  intros HS.
  apply (mapM_from_ind (call_mutate r p) (λ _ s', Sound s' ∧ later s s'))
    with (ys := []); [|split; [done|apply later_refl]].
  intros k x _ s' [HS' HL']. destruct (call_mutate_sound s' r p k x HS') as [HS'' HL''].
  split; [done|by eapply later_trans].
Qed.

Lemma getAST_sound i r s :
  Sound s → r < length (objects s) →
  Sound (getAST i r s).2 ∧ later s (getAST i r s).2
  ∧ started (getAST i r s).1 (getAST i r s).2.
Proof.
  intros HS Hr. unfold getAST. msimpl.
  destruct (astPromiseCache s !! node_id (the_node s r)) as [p|] eqn:Hhit; msimpl.
  - split; [done|]. split; [apply later_refl|]. by eapply (S_cache _ HS).
  - set (id := node_id (the_node s r)). set (p := length (promises s)).
    set (s2 := set_trace (λ t, t ++ [EStart p id])
                 (set_promises (λ h, h ++ [Promise Pending [] Executor]) s)).
    assert (Sound s2) as HS2 by apply start_sound, HS.
    assert (later s s2) as HL2.
    { split; [apply extends_start|by apply grows_same]. }
    assert (started p s2) as Hst2.
    { exists id. simpl. apply elem_of_app. right. apply list_elem_of_here. }
    destruct (call_mutate_loop_sound s2 r p (the_plugins s i) 0 HS2) as [HS3 HL3].
    set (ms := (mapM_from (call_mutate r p) 0 (the_plugins s i) s2).1) in *.
    set (s3 := (mapM_from (call_mutate r p) 0 (the_plugins s i) s2).2) in *.
    destruct (promise_all_sound s3 ms HS3) as [HS4 HL4].
    set (a := (promise_all ms s3).1) in *. set (s4 := (promise_all ms s3).2) in *.
    assert (later s s4) as HL04.
    { eapply later_trans; [done|]. by eapply later_trans. }
    assert (started p s4) as Hst4.
    { eapply later_started; [|done]. by eapply later_trans. }
    assert (Sound (subscribe a (RThen (KParse i r p)) s4).2) as HS5.
    { apply subscribe_sound; [done|]. intros k [= <-]. simpl.
      split; [by eapply later_objects|done]. }
    pose proof (later_subscribe s4 a (RThen (KParse i r p))) as HL5.
    set (s5 := (subscribe a (RThen (KParse i r p)) s4).2) in *.
    assert (started p s5) as Hst5 by by eapply later_started.
    split; [|split].
    + apply cache_sound; [done|]. intros id' p' Hp'.
      destruct (decide (id' = id)) as [->|Hne].
      * rewrite lookup_insert_eq in Hp'. injection Hp' as <-. by right.
      * rewrite lookup_insert_ne in Hp' by done. by left.
    + eapply later_trans; [done|]. eapply later_trans; [done|].
      apply later_heap; [done|done|by apply grows_same].
    + done.
Qed.

(** ** [getHeadings], [getHTML] and the fields *)

Lemma getAST_is_ast i r s :
  Inv s → Sound s → r < length (objects s) → is_ast (getAST i r s).2 (getAST i r s).1.
Proof.
  intros HI HS Hr. destruct (getAST_spec i r s HI) as (_ & _ & Hk).
  destruct (getAST_sound i r s HS Hr) as (_ & _ & Hst). by split.
Qed.

Lemma getHeadings_sound i r s :
  Inv s → Sound s → r < length (objects s) →
  Sound (getHeadings i r s).2 ∧ later s (getHeadings i r s).2
  ∧ is_hd (getHeadings i r s).2 (getHeadings i r s).1.
Proof.
  intros HI HS Hr. unfold getHeadings. msimpl.
  set (q := length (promises s)).
  set (s1 := set_promises (λ h, h ++ [Promise Pending [] AsyncFn]) s).
  assert (Inv s1) as HI1 by (apply alloc_inv; [done|done|by left]).
  assert (Sound s1) as HS1 by (apply alloc_sound; [done|done|by left]).
  assert (later s s1) as HL1 by apply later_alloc.
  assert (is_hd s1 q) as Hq1.
  { unfold is_hd, cell_kind, s1, q. simpl. by rewrite lookup_new. }
  destruct (node_headings (the_node s r)) as [hs|] eqn:Hhs; msimpl.
  - split; [|split].
    + apply settle_sound; [done| |done]. intros v [= <-].
      split; [|split].
      * intros [Hk _]. unfold is_hd in Hq1. congruence.
      * intros [Hk _]. unfold is_hd in Hq1. congruence.
      * intros _. exists r. split; [done|]. unfold has_headings.
        change (the_node s1 r) with (the_node s r). by rewrite Hhs.
    + eapply later_trans; [done|apply later_settle].
    + eapply is_hd_mono; [apply later_settle|done].
  - destruct (getAST_sound i r s1 HS1 Hr) as (HS2 & HL2 & Hst2).
    pose proof (getAST_is_ast i r s1 HI1 HS1 Hr) as Hp2.
    set (p := (getAST i r s1).1) in *. set (s2 := (getAST i r s1).2) in *.
    split; [|split].
    + apply subscribe_sound; [done|]. intros k [= <-]. simpl.
      split; [done|]. eapply later_objects; [done|]. done.
    + eapply later_trans; [done|]. eapply later_trans; [done|apply later_subscribe].
    + eapply is_hd_mono; [apply later_subscribe|]. eapply is_hd_mono; [apply HL2|done].
Qed.

Lemma getHTML_sound i r s :
  Inv s → Sound s → r < length (objects s) →
  Sound (getHTML i r s).2 ∧ later s (getHTML i r s).2
  ∧ is_html (getHTML i r s).2 (getHTML i r s).1.
Proof.
  intros HI HS Hr. unfold getHTML. msimpl.
  destruct (the_html_cache s i !! node_id (the_node s r)) as [q0|] eqn:Hhit; msimpl.
  - split; [done|]. split; [apply later_refl|]. by eapply (S_html _ HS).
  - set (q := length (promises s)).
    set (s1 := set_promises (λ h, h ++ [Promise Pending [] Executor]) s).
    assert (Inv s1) as HI1 by (apply alloc_inv; [done|done|by left]).
    assert (Sound s1) as HS1 by (apply alloc_sound; [done|done|by left]).
    assert (later s s1) as HL1 by apply later_alloc.
    assert (is_html s1 q) as Hq1.
    { split; [unfold cell_kind, s1, q; simpl; by rewrite lookup_new|].
      intros Hst. apply (started_lt s q HI) in Hst. unfold q in Hst. lia. }
    destruct (getAST_sound i r s1 HS1 Hr) as (HS2 & HL2 & Hst2).
    pose proof (getAST_is_ast i r s1 HI1 HS1 Hr) as Hp2.
    set (p := (getAST i r s1).1) in *. set (s2 := (getAST i r s1).2) in *.
    assert (Sound (subscribe p (RThen (KRender q)) s2).2) as HS3.
    { apply subscribe_sound; [done|]. by intros k [= <-]. }
    pose proof (later_subscribe s2 p (RThen (KRender q))) as HL3.
    set (s3 := (subscribe p (RThen (KRender q)) s2).2) in *.
    assert (is_html s3 q) as Hq3.
    { eapply is_html_mono; [apply HL3|]. eapply is_html_mono; [apply HL2|done]. }
    split; [by apply html_cache_sound|]. split.
    + eapply later_trans; [done|]. eapply later_trans; [done|].
      eapply later_trans; [done|].
      apply later_heap; [done|done|by apply grows_same].
    + done.
Qed.

Lemma then_derive_sound s p (mk : pid → kont) :
  Sound s → (∀ d, reg_ok s p (mk d)) →
  Sound (then_derive p mk s).2 ∧ later s (then_derive p mk s).2.
Proof.
  intros HS Hreg. unfold then_derive. msimpl.
  set (s1 := set_promises (λ h, h ++ [Promise Pending [] Derived]) s).
  assert (Sound s1) as HS1 by (apply alloc_sound; [done|done|by left]).
  assert (later s s1) as HL1 by apply later_alloc.
  split.
  - apply subscribe_sound; [done|]. intros k [= <-].
    eapply reg_ok_mono; [apply HL1|apply HL1|apply Hreg].
  - eapply later_trans; [done|apply later_subscribe].
Qed.

Section Soundness.
Context `{Libraries}.

(** ** The callbacks *)

Lemma call_annotate_sound s r t p k pl :
  Sound s → Sound (call_annotate r t p k pl s).2 ∧ later s (call_annotate r t p k pl s).2.
Proof.
  intros HS. unfold call_annotate. destruct (annotate pl) as [a|]; msimpl.
  - set (s1 := set_trees (alter (ann_now a) t) s).
    assert (later s s1) as HL1 by (apply later_heap; [done|done|apply grows_alter_tree]).
    assert (Sound s1) as HS1 by by apply (Sound_quiet s _ HS); [apply HL1|apply HL1|..].
    set (s2 := set_promises _ s1).
    assert (Sound s2) as HS2 by (apply alloc_sound; [done|done|by left]).
    split; [by apply log_sound|].
    eapply later_trans; [done|]. eapply later_trans; [apply later_alloc|].
    by apply later_log.
  - split; [|apply later_alloc]. apply alloc_sound; [done|done|]. by right.
Qed.

Lemma parse_and_annotate_sound i r p s :
  Sound s → r < length (objects s) → started p s →
  Sound (parse_and_annotate i r p s).2.
Proof.
  intros HS Hr Hst. unfold parse_and_annotate. msimpl.
  set (src := node_src (the_node s r)). set (t := length (trees s)).
  set (s1 := set_trees (λ h, h ++ [remark_parse src]) s).
  assert (later s s1) as HL1 by (apply later_heap; [done|done|apply grows_new_tree]).
  assert (Sound s1) as HS1 by by apply (Sound_quiet s _ HS); [apply HL1|apply HL1|..].
  assert (t < length (trees s1)) as Ht1.
  { unfold s1, t. simpl. rewrite length_app. simpl. lia. }
  set (s2 := set_trace (λ tr, tr ++ [EParse p src t]) s1).
  assert (Sound s2) as HS2 by by apply log_sound.
  assert (later s s2) as HL2 by (eapply later_trans; [done|by apply later_log]).
  assert (Sound (mapM_from (call_annotate r t p) 0 (the_plugins s i) s2).2
          ∧ later s2 (mapM_from (call_annotate r t p) 0 (the_plugins s i) s2).2)
    as [HS3 HL3].
  { apply (mapM_from_ind (call_annotate r t p) (λ _ s', Sound s' ∧ later s2 s'))
      with (ys := []); [|split; [done|apply later_refl]].
    intros k x _ s' [HS' HL']. destruct (call_annotate_sound s' r t p k x HS') as [? ?].
    split; [done|by eapply later_trans]. }
  set (es := (mapM_from (call_annotate r t p) 0 (the_plugins s i) s2).1) in *.
  set (s3 := (mapM_from (call_annotate r t p) 0 (the_plugins s i) s2).2) in *.
  destruct (promise_all_sound s3 es HS3) as [HS4 HL4].
  assert (later s (promise_all es s3).2) as HL04.
  { eapply later_trans; [done|]. by eapply later_trans. }
  apply subscribe_sound; [done|]. intros k [= <-]. simpl.
  split; [by eapply later_objects|]. split; [|by eapply later_started].
  assert (later s1 (promise_all es s3).2) as HL14.
  { apply (later_trans s1 s2); [by apply later_log|]. by apply (later_trans s2 s3). }
  by eapply later_trees.
Qed.

Lemma finish_sound r t p s :
  Sound s → cell_kind s p = Some KExecutor →
  r < length (objects s) → t < length (trees s) → started p s →
  Sound (finish r t p s).2.
Proof.
  intros HS Hk Hr Ht Hst. unfold finish. msimpl.
  set (s1 := set_objects (alter (with_ast t) r) s).
  assert (later s s1) as HL1.
  { apply later_heap; [done|done|]. apply grows_alter; [|done|done].
    intros x. right. by exists t. }
  assert (Sound s1) as HS1 by by apply (Sound_quiet s _ HS); [apply HL1|apply HL1|..].
  apply log_sound; [done|]. apply settle_sound; [done| |done].
  intros v [= <-]. split; [|split].
  - intros _. exists r. split; [done|].
    apply (has_tree_intro s1 r t); [by eapply later_objects| |by eapply later_trees].
    unfold the_node, s1. simpl. rewrite list_lookup_alter_eq.
    apply lookup_lt_is_Some in Hr as [x Hx]. by rewrite Hx.
  - intros [_ Hns]. destruct Hns. by eapply later_started.
  - intros Hhd. unfold is_hd in Hhd.
    pose proof (later_kind _ _ _ _ HL1 Hk). congruence.
Qed.

Lemma carries_tree s v : carries s v has_tree → ∃ n ast, v = VNode n ∧ the_tree s n = Some ast.
Proof. intros (n & -> & [ast Hast]). by exists n, ast. Qed.

Lemma run_callback_sound k v s :
  Sound s → kont_wf s k → job_ok s k (Some v) → Sound (run_callback k v s).2.
Proof.
  intros HS Hwf Hjob. unfold run_callback. msimpl.
  destruct k as [i r p|r t p|r q|q|d|n d|dp d|d]; simpl in Hwf, Hjob.
  - destruct Hjob. by apply parse_and_annotate_sound.
  - destruct Hwf, Hjob as (? & ? & ?). by apply finish_sound.
  - destruct Hjob as [(v' & [= <-] & Hv) Hr].
    apply carries_tree in Hv as (n & ast & -> & Hast). rewrite Hast. msimpl.
    set (s1 := set_objects (alter (with_headings (headings_of ast)) r) s).
    assert (later s s1) as HL1.
    { apply later_heap; [done|done|]. apply grows_alter; [by left|done|done]. }
    assert (Sound s1) as HS1 by by apply (Sound_quiet s _ HS); [apply HL1|apply HL1|..].
    apply settle_sound; [done| |done]. intros v [= <-]. split; [|split].
    + intros [Hk _]. pose proof (later_kind _ _ _ _ HL1 Hwf). congruence.
    + intros [Hk _]. pose proof (later_kind _ _ _ _ HL1 Hwf). congruence.
    + intros _. exists r. split; [done|]. unfold has_headings, the_node, s1. simpl.
      rewrite list_lookup_alter_eq. apply lookup_lt_is_Some in Hr as [x Hx].
      by rewrite Hx.
  - destruct Hjob as (v' & [= <-] & Hv). pose proof Hv as Hv0.
    apply carries_tree in Hv as (n & ast & -> & Hast). rewrite Hast. msimpl.
    destruct Hv0 as (n' & [= <-] & Hn). apply has_tree_lt in Hn.
    set (s1 := set_objects (alter (with_html (to_html ast)) n) s).
    assert (later s s1) as HL1.
    { apply later_heap; [done|done|]. apply grows_alter; [by left|done|done]. }
    assert (Sound s1) as HS1 by by apply (Sound_quiet s _ HS); [apply HL1|apply HL1|..].
    destruct Hwf as [Hk Hns].
    apply settle_sound; [done| |done]. intros v [= <-]. split; [|split].
    + intros [_ Hst]. by destruct Hns.
    + intros _. exists n. split; [done|]. unfold has_html, the_node, s1. simpl.
      rewrite list_lookup_alter_eq. apply lookup_lt_is_Some in Hn as [x Hx].
      by rewrite Hx.
    + intros Hhd. unfold is_hd in Hhd.
      pose proof (later_kind _ _ _ _ HL1 Hk). congruence.
  - destruct Hjob as (v' & [= <-] & n & -> & Hn).
    apply settle_sound; [done| |done]. intros v _. by eapply value_ok_other.
  - destruct Hjob as (v' & [= <-] & Hv).
    apply carries_tree in Hv as (n' & ast & -> & Hast). rewrite Hast.
    apply settle_sound; [done| |done]. intros v _. by eapply value_ok_other.
  - destruct Hjob as (v' & [= <-] & n & -> & [hs Hn]). rewrite Hn.
    apply settle_sound; [done| |done]. intros v _. by eapply value_ok_other.
  - destruct Hjob as (v' & [= <-] & n & -> & [h Hn]). rewrite Hn.
    apply settle_sound; [done| |done]. intros v _. by eapply value_ok_other.
Qed.

Lemma skip_callback_sound k s : Sound s → job_ok s k None → Sound (skip_callback k s).2.
Proof.
  intros HS Hjob. destruct k; simpl in *; try done.
  - by destruct Hjob as [(? & ? & _) _].
  - by destruct Hjob as (? & ? & _).
  - by destruct Hjob as (? & ? & _).
  - by destruct Hjob as (? & ? & _).
  - by destruct Hjob as (? & ? & _).
Qed.

Lemma notify_all_sound a e ok s : Sound s → Sound (notify_all a e ok s).2.
Proof.
  intros HS. unfold notify_all. msimpl.
  destruct (promises s !! a) as [[st rxs [| | | | |es w]]|] eqn:Ha; try done.
  assert (cell_kind s a = Some KAllOf) as Hk by (unfold cell_kind; by rewrite Ha).
  destruct ok; msimpl.
  - set (w' := filter (λ x, x ≠ e) w).
    set (s1 := set_promises <[a := Promise st rxs (AllOf es w')]> s).
    assert (Sound s1) as HS1 by by eapply waiting_sound.
    destruct (decide (w' = [])); [|done]. msimpl.
    assert (cell_kind s1 a = Some KAllOf) as Hk1.
    { unfold cell_kind, s1. simpl. rewrite list_lookup_insert_eq; [done|].
      by eapply lookup_lt_Some. }
    apply settle_sound; [done| |done]. intros v _. by eapply value_ok_other.
  - apply settle_sound; [done|done|]. intros _. by right.
Qed.

Lemma run_next_sound s : Inv s → Sound s → Sound (run_next s).2.
Proof.
  intros HI HS. unfold run_next. msimpl.
  destruct (jobs s) as [|j js] eqn:Hj; [done|]. msimpl.
  set (s0 := set_jobs (λ _, js) s).
  assert (Sound s0) as HS0 by by eapply pop_sound.
  assert (j ∈ jobs s) as Hin by (rewrite Hj; apply list_elem_of_here).
  destruct j as [k [v|]|a e ok]; simpl.
  - apply run_callback_sound; [done|exact (I_jobs _ HI _ _ Hin)|].
    exact (S_job _ HS _ _ Hin).
  - apply skip_callback_sound; [done|]. exact (S_job _ HS _ _ Hin).
  - by apply notify_all_sound.
Qed.

Lemma settle_external_sound s e ok : Sound s → Sound (settle_external e ok s).2.
Proof.
  intros HS. unfold settle_external. msimpl.
  destruct (promises s !! e) as [[[] rxs [| | | |eff|]]|] eqn:He; try done.
  assert (cell_kind s e = Some KExternal) as Hk by (unfold cell_kind; by rewrite He).
  destruct ok; msimpl.
  - destruct (apply_effect_quiet eff s) as (Hc & Hp & Hj & Ht).
    set (s1 := (apply_effect eff s).2) in *.
    assert (grows s s1) as Hg1.
    { unfold s1. destruct eff as [r f|t f]; simpl; msimpl.
      - apply grows_alter; [by left|done|done].
      - apply grows_alter_tree. }
    assert (instances s1 = instances s) as Hi1 by (unfold s1; by destruct eff).
    assert (Sound s1) as HS1.
    { apply (Sound_quiet s _ HS); [by apply extends_same|done..]. }
    assert (cell_kind s1 e = Some KExternal) as Hk1 by (unfold cell_kind; by rewrite Hp, He).
    apply log_sound; [done|]. apply settle_sound; [done| |done].
    intros v _. by eapply value_ok_other.
  - apply log_sound; [done|]. apply settle_sound; [done|done|]. intros _. by left.
Qed.

(** ** Every step *)

Lemma guarded_sound {A} s i r (m : M A) :
  Sound s → (r < length (objects s) → Sound (m s).2) → Sound (guarded s i r m).
Proof. intros HS Hm. unfold guarded. destruct (decide _) as [[_ Hr]|]; auto. Qed.

Lemma exec_sound a s : Inv s → Sound s → Sound (exec a s).
Proof.
  intros HI HS. destruct a; simpl.
  - apply (Sound_quiet s _ HS); [by apply extends_same|apply grows_new_node|done..].
  - unfold extendNodeType. destruct (decide _); [|done]. msimpl. by apply new_closure_sound.
  - unfold onNodeCreate. destruct (decide _); [|done]. msimpl.
    apply cache_sound; [done|]. intros id p Hp. left.
    by apply lookup_delete_Some in Hp as [_ Hp].
  - apply guarded_sound; [done|]. intros Hr. by apply getAST_sound.
  - apply guarded_sound; [done|]. intros Hr. by apply getHeadings_sound.
  - apply guarded_sound; [done|]. intros Hr. by apply getHTML_sound.
  - apply guarded_sound; [done|]. intros Hr. unfold html_resolve. msimpl.
    destruct (getHTML_sound i r s HI HS Hr) as (HS' & _ & Hq).
    by apply then_derive_sound.
  - apply guarded_sound; [done|]. intros Hr. unfold excerpt_resolve. msimpl.
    destruct (getAST_sound i r s HS Hr) as (HS' & _ & _).
    pose proof (getAST_is_ast i r s HI HS Hr) as Hp.
    by apply then_derive_sound.
  - apply guarded_sound; [done|]. intros Hr. unfold headings_resolve. msimpl.
    destruct (getHeadings_sound i r s HI HS Hr) as (HS' & _ & Hq).
    by apply then_derive_sound.
  - apply guarded_sound; [done|]. intros Hr. unfold timeToRead_resolve. msimpl.
    destruct (getHTML_sound i r s HI HS Hr) as (HS' & _ & Hq).
    by apply then_derive_sound.
  - by apply settle_external_sound.
  - by apply settle_external_sound.
  - by apply run_next_sound.
Qed.

Lemma Sound_init : Sound init.
Proof.
  split.
  - intros q c k Hq. by compute in Hq.
  - intros k o Hin. by apply elem_of_nil in Hin.
  - intros q c v Hq. by compute in Hq.
  - intros q (c & Hq & _). by compute in Hq.
  - intros id p Hp. simpl in Hp. by rewrite lookup_empty in Hp.
  - intros i id q Hq. unfold the_html_cache in Hq. simpl in Hq.
    by rewrite lookup_empty in Hq.
Qed.

Lemma run_sound acts s : Inv s → Sound s → Sound (run acts s).
Proof.
  revert s. induction acts as [|a acts IH]; intros s HI HS; simpl; [done|].
  apply IH; [by apply exec_inv|by apply exec_sound].
Qed.

Lemma reachable_sound s : reachable s → Sound s.
Proof. intros [acts ->]. apply run_sound; [apply Inv_init|apply Sound_init]. Qed.

End Soundness.

(** ** What follows for the caches and the fields *)

Lemma not_rejected_pending_or_fulfilled s q :
  q < length (promises s) → ¬ rejected s q →
  pending s q ∨ ∃ c v, promises s !! q = Some c ∧ p_state c = Fulfilled v.
Proof.
  intros Hq Hnr. apply lookup_lt_is_Some in Hq as [c Hc].
  destruct (p_state c) as [|v|] eqn:Hst.
  - left. by exists c.
  - right. by exists c, v.
  - destruct Hnr. by exists c.
Qed.

Lemma Sound_not_rejected s q κ :
  Sound s → cell_kind s q = Some κ → κ ≠ KExternal → κ ≠ KAllOf → ¬ rejected s q.
Proof. intros HS Hk Hne Hna Hr. destruct (S_rej _ HS q Hr); congruence. Qed.

(** X14: in every state that can be reached, an entry of the AST cache is
    the promise of a pipeline that [getAST] started, and that promise is
    either pending or fulfilled with a record whose [ast] is a parsed tree,
    after exactly one parse; it is never rejected. *)
Theorem astPromiseCache_entry_state `{Libraries} (s : state) (id : string) (p : pid) :
  reachable s → astPromiseCache s !! id = Some p →
  started p s
  ∧ ¬ rejected s p
  ∧ (pending s p
     ∨ ∃ c n t ast, promises s !! p = Some c ∧ p_state c = Fulfilled (VNode n)
                    ∧ node_ast (the_node s n) = Some t ∧ trees s !! t = Some ast
                    ∧ parse_count p s = 1).
Proof.
  intros Hreach Hp.
  pose proof (reachable_inv s Hreach) as HI. pose proof (reachable_sound s Hreach) as HS.
  pose proof (I_cache _ HI _ _ Hp) as Hk. pose proof (S_cache _ HS _ _ Hp) as Hst.
  assert (¬ rejected s p) as Hnr by by eapply Sound_not_rejected.
  split; [done|]. split; [done|].
  destruct (not_rejected_pending_or_fulfilled s p) as [|(c & v & Hc & Hv)];
    [by eapply cell_kind_lt|done|by left|right].
  destruct (S_val _ HS p c v Hc Hv) as (Ha & _ & _).
  destruct (Ha (conj Hk Hst)) as (n & -> & [ast Hast]).
  unfold the_tree in Hast. destruct (node_ast (the_node s n)) as [t|] eqn:Ht; [|done].
  exists c, n, t, ast. split; [done|]. split; [done|]. split; [done|]. split; [done|].
  assert (parsed p s) as Hpar by (apply (I_done _ HI); [done|by exists c, (VNode n)]).
  apply parsed_count in Hpar. pose proof (I_once _ HI p). lia.
Qed.

Lemma astPromiseCache_entry_state_witness :
  let s := @run sample_libraries parsed_record init in
  @reachable sample_libraries s
  ∧ astPromiseCache s !! "a.md" = Some 0
  ∧ started 0 s ∧ ¬ rejected s 0.
Proof.
  intros s.
  assert (@reachable sample_libraries s) as Hreach by by eexists.
  assert (astPromiseCache s !! "a.md" = Some 0) as Hp by reflexivity.
  split; [exact Hreach|]. split; [exact Hp|].
  destruct (@astPromiseCache_entry_state sample_libraries s "a.md" 0 Hreach Hp)
    as (Hst & Hnr & _).
  split; [exact Hst|exact Hnr].
Defined.

(** X15: in every state that can be reached, an entry of a closure's HTML
    cache is a promise that is either pending or fulfilled with a record
    that has its [html]; it is never rejected. *)
Theorem htmlPromisesCache_entry_state `{Libraries} (s : state) (i : nat) (id : string)
    (q : pid) :
  reachable s → the_html_cache s i !! id = Some q →
  ¬ rejected s q
  ∧ (pending s q
     ∨ ∃ c n html, promises s !! q = Some c ∧ p_state c = Fulfilled (VNode n)
                   ∧ node_html (the_node s n) = Some html).
Proof.
  intros Hreach Hq. pose proof (reachable_sound s Hreach) as HS.
  pose proof (S_html _ HS _ _ _ Hq) as Hh. pose proof Hh as [Hk _].
  assert (¬ rejected s q) as Hnr by by eapply Sound_not_rejected.
  split; [done|].
  destruct (not_rejected_pending_or_fulfilled s q) as [|(c & v & Hc & Hv)];
    [by eapply cell_kind_lt|done|by left|right].
  destruct (S_val _ HS q c v Hc Hv) as (_ & Hv' & _).
  destruct (Hv' Hh) as (n & -> & [html Hhtml]). by exists c, n, html.
Qed.

Lemma htmlPromisesCache_entry_state_witness :
  let s := @run sample_libraries (parsed_record ++ [ResolveHtml 0 0; RunJob; RunJob]) init in
  @reachable sample_libraries s
  ∧ the_html_cache s 0 !! "a.md" = Some 5
  ∧ ¬ rejected s 5.
Proof.
  intros s.
  assert (@reachable sample_libraries s) as Hreach by by eexists.
  assert (the_html_cache s 0 !! "a.md" = Some 5) as Hq by reflexivity.
  split; [exact Hreach|]. split; [exact Hq|].
  exact (proj1 (@htmlPromisesCache_entry_state sample_libraries s 0 "a.md" 5 Hreach Hq)).
Defined.





(** * The annotation phase *)

Section Annotation.
Context `{Libraries}.

(** the loop of lines 107-121, all of it *)
Lemma call_annotate_loop_eq r t p pls k0 s :
  let res := mapM_from (call_annotate r t p) k0 pls s in
  res.1 = seq (length (promises s)) (length pls)
  ∧ res.2 =
    set_trace (λ tr, tr ++ annotate_events p k0 (length (promises s)) pls)
      (set_promises (λ h, h ++ (annotate_cell t <$> pls))
         (set_trees (alter (annotate_now pls) t) s)).
Proof.
  revert k0 s. induction pls as [|pl pls IH]; intros k0 s; simpl.
  - split; [done|]. destruct s. unfold set_trace, set_promises, set_trees. simpl.
    rewrite !app_nil_r. f_equal. symmetry. by apply list_alter_id.
  - msimpl. specialize (IH (S k0) (call_annotate r t p k0 pl s).2).
    destruct IH as [IH1 IH2]. rewrite IH1, IH2. clear IH1 IH2.
    unfold call_annotate, annotate_cell at 2. unfold annotate_now. simpl foldl.
    fold (annotate_now pls).
    destruct s as [c insts ps objs trs js tr].
    destruct (annotate pl) as [a|]; msimpl;
      unfold set_trace, set_promises, set_trees; simpl;
      rewrite length_app; simpl; rewrite Nat.add_1_r; (split; [done|]);
      rewrite <- ?app_assoc; simpl; [by rewrite list_alter_alter_eq|done].
Qed.

(** X18: what the callback of line 73 does when it runs.  It parses the
    source the record has at that moment, calls the annotation function of
    every plugin that is one, once, in the order of the configuration, all
    on that one tree, and leaves the records as they are - the record's
    [ast] is not set yet.  The new tree is what the synchronous parts of
    those calls made of the parse one after the other; the parse and the
    calls are on the trace in that order; the promise of plugin [k] - the
    one its call returned, pending, or an already fulfilled
    [Promise.resolve()] - is the [k]-th new promise. *)
Theorem parse_callback_annotates_in_order (i : nat) (r : ref) (p : pid) (s : state) :
  let src := node_src (the_node s r) in
  let t := length (trees s) in
  let q := length (promises s) in
  let pls := the_plugins s i in
  let s' := (parse_and_annotate i r p s).2 in
  trees s' = trees s ++ [annotate_now pls (remark_parse src)]
  ∧ objects s' = objects s
  ∧ trace s' = trace s ++ EParse p src t :: annotate_events p 0 q pls
  ∧ ∀ k pl, pls !! k = Some pl →
      ∃ c, promises s' !! (q + k) = Some c
           ∧ p_state c = p_state (annotate_cell t pl)
           ∧ p_origin c = p_origin (annotate_cell t pl).
Proof.
  intros src t q pls s'. subst s'. unfold parse_and_annotate. msimpl.
  fold src. fold t. fold pls.
  set (s2 := set_trace (λ tr, tr ++ [EParse p src t])
               (set_trees (λ h, h ++ [remark_parse src]) s)).
  destruct (call_annotate_loop_eq r t p pls 0 s2) as [Hes Hs3].
  set (es := (mapM_from (call_annotate r t p) 0 pls s2).1) in *.
  set (s3 := (mapM_from (call_annotate r t p) 0 pls s2).2) in *.
  destruct (promise_all_frame s3 es) as [(Ho4 & Ht4 & Htr4) Hc4].
  set (a := (promise_all es s3).1) in *. set (s4 := (promise_all es s3).2) in *.
  destruct (subscribe_same_heap s4 a (RThen (KFinish r t p))) as (Ho5 & Ht5 & Htr5).
  pose proof (subscribe_same_cells (length (promises s3)) s4 a (RThen (KFinish r t p)))
    as Hc5.
  set (s5 := (subscribe a (RThen (KFinish r t p)) s4).2) in *.
  rewrite Ho5, Ho4, Ht5, Ht4, Htr5, Htr4, Hs3. unfold s2. autorewrite with fields.
  fold q.
  split; [|split; [done|split; [by rewrite <- app_assoc|]]].
  - unfold t. rewrite alter_app_r_alt by lia. by rewrite Nat.sub_diag.
  - intros k pl Hk.
    assert (promises s3 !! (q + k) = Some (annotate_cell t pl)) as Hcell.
    { rewrite Hs3. unfold s2. autorewrite with fields. fold q.
      unfold q. rewrite lookup_app_r by lia.
      replace (length (promises s) + k - length (promises s)) with k by lia.
      by rewrite list_lookup_fmap, Hk. }
    assert (q + k < length (promises s3)) as Hlt by by eapply lookup_lt_Some.
    destruct (Hc4 _ _ Hlt Hcell) as (c' & Hc' & Hst' & Ho').
    destruct (Hc5 _ _ Hlt Hc') as (c'' & Hc'' & Hst'' & Ho'').
    exists c''. split; [done|]. split; congruence.
Qed.

End Annotation.

(** * The annotation phase: the second barrier *)

(** a step described by what it adds *)
Lemma Barrier_step s s' evs :
  Barrier s →
  (∀ q κ, cell_kind s q = Some κ → cell_kind s' q = Some κ) →
  trace s' = trace s ++ evs →
  (∀ p k e, EAnnotate p k e ∈ evs → False) →
  (∀ p, EResolve p ∈ evs →
     parsed p s ∧ ∀ k e, EAnnotate p k e ∈ trace s → EFulfilled e ∈ trace s) →
  (∀ a c' r t p, promises s' !! a = Some c' → RThen (KFinish r t p) ∈ p_reactions c' →
     (∃ c, promises s !! a = Some c ∧ RThen (KFinish r t p) ∈ p_reactions c
           ∧ p_origin c' = p_origin c)
     ∨ ∃ es w, p_origin c' = AllOf es w
               ∧ ∀ k e, EAnnotate p k e ∈ trace s → e ∈ w ∨ EFulfilled e ∈ trace s) →
  (∀ r t p v, JThen (KFinish r t p) (Some v) ∈ jobs s' →
     JThen (KFinish r t p) (Some v) ∈ jobs s
     ∨ ∀ k e, EAnnotate p k e ∈ trace s → EFulfilled e ∈ trace s) →
  (∀ p c' v, promises s' !! p = Some c' → p_origin c' = Executor →
     p_state c' = Fulfilled v → started p s' →
     (∃ c, promises s !! p = Some c ∧ p_origin c = Executor
           ∧ p_state c = Fulfilled v ∧ started p s)
     ∨ EResolve p ∈ trace s') →
  Barrier s'.
Proof.
  intros HB Hk Htr Hna Hres Hlink Hready Hdone.
  assert (∀ p k e, EAnnotate p k e ∈ trace s' → EAnnotate p k e ∈ trace s) as Hold.
  { intros p k e Hin. rewrite Htr in Hin. apply elem_of_app in Hin as [?|Hin]; [done|].
    by destruct (Hna _ _ _ Hin). }
  assert (∀ ev, ev ∈ trace s → ev ∈ trace s') as Hmono.
  { intros ev Hin. rewrite Htr. apply elem_of_app. by left. }
  split.
  - intros a c' r t p Hc Hin.
    destruct (Hlink _ _ _ _ _ Hc Hin) as [(c & Hc0 & Hin0 & Ho)|(es & w & Ho & Hw)].
    + destruct (B_link _ HB _ _ _ _ _ Hc0 Hin0) as (es & w & Ho' & Hw).
      exists es, w. split; [congruence|].
      intros k e He. destruct (Hw k e (Hold _ _ _ He)); auto.
    + exists es, w. split; [done|].
      intros k e He. destruct (Hw k e (Hold _ _ _ He)); auto.
  - intros r t p v Hin k e He. apply Hmono.
    destruct (Hready _ _ _ _ Hin) as [Hj|Hall].
    + by eapply (B_ready _ HB); [|apply Hold].
    + by eapply Hall, Hold.
  - intros t1 t2 p Heq. rewrite Htr in Heq.
    apply app_eq_inv in Heq as [(k0 & H1 & H2)|(k0 & H1 & H2)].
    + destruct k0 as [|x k0]; simpl in H2.
      * rewrite app_nil_r in H1. subst t1.
        destruct (Hres p) as [Hp Hall]; [rewrite <- H2; apply list_elem_of_here|].
        split; [done|]. intros k e He. by eapply Hall, Hold.
      * injection H2 as <- ->.
        destruct (B_ordered _ HB t1 k0 p H1) as [Hp Hall].
        split; [done|]. intros k e He. by eapply Hall, Hold.
    + destruct (Hres p) as [(src & t & Hp) Hall];
        [rewrite H2; apply elem_of_app; right; apply list_elem_of_here|].
      subst t1. split.
      * exists src, t. apply elem_of_app. by left.
      * intros k e He. apply elem_of_app. left. by eapply Hall, Hold.
  - intros p k e He. destruct (B_annot _ HB _ _ _ (Hold _ _ _ He)) as [(src & t & Hp) Hke].
    split; [exists src, t; by apply Hmono|by apply Hk].
  - intros p c' v Hc Ho Hst Hs.
    destruct (Hdone _ _ _ Hc Ho Hst Hs) as [(c & Hc0 & Ho0 & Hst0 & Hs0)|?]; [|done].
    apply Hmono. by eapply (B_done _ HB).
Qed.

(** new promises nobody waits for, new events that are plain, no new job *)
Lemma Barrier_grow s s' cs evs :
  Barrier s →
  promises s' = promises s ++ cs →
  (∀ c, c ∈ cs → p_reactions c = [] ∧ (p_state c = Pending ∨ p_origin c ≠ Executor)) →
  (∀ j, j ∈ jobs s' → j ∈ jobs s) →
  trace s' = trace s ++ evs →
  (∀ ev, ev ∈ evs → plain ev) →
  (∀ p id, EStart p id ∈ evs → ¬ fulfilled s' p) →
  Barrier s'.
Proof.
  intros HB Hp Hcs Hj Htr Hpl Hst.
  assert (∀ q c, promises s' !! q = Some c →
            promises s !! q = Some c ∨ c ∈ cs) as Hcell.
  { intros q c Hc. rewrite Hp in Hc. apply lookup_app_Some in Hc as [?|[_ Hc]]; [by left|].
    right. by eapply list_elem_of_lookup_2. }
  apply (Barrier_step s s' evs HB); [|done|..].
  - intros q κ. unfold cell_kind. rewrite Hp.
    destruct (promises s !! q) as [c|] eqn:Hc; [|done].
    by rewrite (lookup_app_l_Some _ _ _ _ Hc).
  - intros p k e Hin. exact (Hpl _ Hin).
  - intros p Hin. destruct (Hpl _ Hin).
  - intros a c' r t p Hc Hin. destruct (Hcell _ _ Hc) as [Hc0|Hnew].
    + left. by exists c'.
    + destruct (Hcs _ Hnew) as [Hrx _]. rewrite Hrx in Hin. by apply elem_of_nil in Hin.
  - intros r t p v Hin. left. by apply Hj.
  - intros p c' v Hc Ho Hv [id Hs]. destruct (Hcell _ _ Hc) as [Hc0|Hnew].
    + left. exists c'. split; [done|]. split; [done|]. split; [done|].
      exists id. rewrite Htr in Hs. apply elem_of_app in Hs as [?|Hs]; [done|].
      destruct (Hst _ _ Hs). by exists c', v.
    + destruct (Hcs _ Hnew) as [_ [Hx|Hx]]; congruence.
Qed.

Lemma same_barrier s s' :
  Barrier s → promises s' = promises s → jobs s' = jobs s → trace s' = trace s →
  Barrier s'.
Proof.
  intros HB Hp Hj Ht. apply (Barrier_grow s s' [] [] HB).
  - by rewrite app_nil_r.
  - intros c Hc. by apply elem_of_nil in Hc.
  - intros j. by rewrite Hj.
  - by rewrite app_nil_r.
  - intros ev Hev. by apply elem_of_nil in Hev.
  - intros p id Hev. by apply elem_of_nil in Hev.
Qed.

Lemma alloc_barrier s c :
  Barrier s → p_reactions c = [] → p_state c = Pending ∨ p_origin c ≠ Executor →
  Barrier (set_promises (λ h, h ++ [c]) s).
Proof.
  intros HB Hrx Hst. apply (Barrier_grow s _ [c] [] HB); try done.
  - intros c' ->%list_elem_of_singleton. done.
  - by rewrite app_nil_r.
  - intros ev Hev. by apply elem_of_nil in Hev.
  - intros p id Hev. by apply elem_of_nil in Hev.
Qed.

Lemma log_barrier s ev :
  Barrier s → plain ev → (∀ p id, ev = EStart p id → ¬ fulfilled s p) →
  Barrier (set_trace (λ t, t ++ [ev]) s).
Proof.
  intros HB Hpl Hst. apply (Barrier_grow s _ [] [ev] HB); try done.
  - by rewrite app_nil_r.
  - intros c Hc. by apply elem_of_nil in Hc.
  - by intros ev' ->%list_elem_of_singleton.
  - intros p id Hev%list_elem_of_singleton. by eapply Hst.
Qed.

Lemma pop_barrier s j js :
  Barrier s → jobs s = j :: js → Barrier (set_jobs (λ _, js) s).
Proof.
  intros HB Hj. apply (Barrier_grow s _ [] [] HB); try done.
  - by rewrite app_nil_r.
  - intros c Hc. by apply elem_of_nil in Hc.
  - intros j' Hin. rewrite Hj. by apply list_elem_of_further.
  - by rewrite app_nil_r.
  - intros ev Hev. by apply elem_of_nil in Hev.
  - intros p id Hev. by apply elem_of_nil in Hev.
Qed.

(** [subscribe]: the callback of line 122 goes on a [Promise.all] of the
    annotation promises of its pipeline *)
Lemma subscribe_barrier s q rx :
  Barrier s →
  (∀ r t p, rx = RThen (KFinish r t p) →
     ∃ c es, promises s !! q = Some c ∧ p_origin c = AllOf es es
             ∧ (p_state c ≠ Pending → es = [])
             ∧ ∀ k e, EAnnotate p k e ∈ trace s → e ∈ es) →
  Barrier (subscribe q rx s).2.
Proof.
  intros HB Hrx.
  apply (Barrier_step s _ [] HB).
  - apply (ext_kind _ _ (subscribe_extends s q rx)).
  - by rewrite subscribe_trace, app_nil_r.
  - intros p k e Hin. by apply elem_of_nil in Hin.
  - intros p Hin. by apply elem_of_nil in Hin.
  - intros a c' r t p Hc Hin. rewrite subscribe_eq in Hc.
    destruct (promises s !! q) as [[st rxs org]|] eqn:Hq; [|left; by exists c'].
    destruct (outcome st); [left; by exists c'|]. simpl in Hc.
    apply list_lookup_insert_Some in Hc as [(-> & <- & _)|[_ Hc]]; [|left; by exists c'].
    simpl in Hin. apply elem_of_app in Hin as [?|Hin].
    + left. by exists (Promise st rxs org).
    + apply list_elem_of_singleton in Hin.
      destruct (Hrx r t p) as (c & es & Hc & Ho & _ & Hes); [done|].
      assert (c = Promise st rxs org) as -> by congruence. simpl in Ho.
      right. exists es, es. split; [done|]. intros k e He. left. by eapply Hes.
  - intros r t p v Hin. rewrite subscribe_eq in Hin.
    destruct (promises s !! q) as [[st rxs org]|] eqn:Hq; [|by left].
    destruct (outcome st) as [o|] eqn:Hout; [|by left]. simpl in Hin.
    apply elem_of_app in Hin as [?|Hin]; [by left|]. right.
    apply list_elem_of_singleton in Hin. symmetry in Hin.
    apply job_of_then in Hin as [-> _].
    destruct (Hrx r t p) as (c & es & Hc & _ & Hst & Hes); [done|].
    assert (c = Promise st rxs org) as -> by congruence. simpl in Hst.
    assert (es = []) as Hnil.
    { apply Hst. intros Hpend. by rewrite Hpend in Hout. }
    rewrite Hnil in Hes.
    intros k e He. specialize (Hes _ _ He). by apply elem_of_nil in Hes.
  - intros p c' v Hc Ho Hv Hs. left.
    assert (started p s) as Hs0.
    { destruct Hs as [id Hs]. exists id. by rewrite subscribe_trace in Hs. }
    rewrite subscribe_eq in Hc.
    destruct (promises s !! q) as [[st rxs org]|] eqn:Hq; [|by exists c'].
    destruct (outcome st) eqn:Hout; [by exists c'|]. simpl in Hc.
    apply list_lookup_insert_Some in Hc as [(-> & <- & _)|[_ Hc]]; [|by exists c'].
    apply outcome_None in Hout. subst st. done.
Qed.

(** [settle], where the promise is not a started pipeline's and, if a
    [Promise.all], waits for nothing any more *)
Lemma settle_barrier s q o :
  Barrier s →
  (∀ c es w, promises s !! q = Some c → p_origin c = AllOf es w → o = None ∨ w = []) →
  (∀ c, promises s !! q = Some c → p_origin c = Executor → o = None ∨ ¬ started q s) →
  Barrier (settle q o s).2.
Proof.
  intros HB Hall Hex.
  apply (Barrier_step s _ [] HB).
  - apply (ext_kind _ _ (settle_extends s q o)).
  - by rewrite settle_trace, app_nil_r.
  - intros p k e Hin. by apply elem_of_nil in Hin.
  - intros p Hin. by apply elem_of_nil in Hin.
  - intros a c' r t p Hc Hin. left. rewrite settle_eq in Hc.
    destruct (promises s !! q) as [[[] rxs org]|] eqn:Hq; try by exists c'.
    simpl in Hc.
    apply list_lookup_insert_Some in Hc as [(-> & <- & _)|[_ Hc]]; [|by exists c'].
    simpl in Hin. by apply elem_of_nil in Hin.
  - intros r t p v Hin. rewrite settle_eq in Hin.
    destruct (promises s !! q) as [[[] rxs org]|] eqn:Hq; try by left.
    simpl in Hin. apply elem_of_app in Hin as [?|Hin]; [by left|]. right.
    apply list_elem_of_fmap in Hin as (rx & Hj & Hrx). symmetry in Hj.
    apply job_of_then in Hj as [-> <-].
    destruct (B_link _ HB _ _ _ _ _ Hq Hrx) as (es & w & Ho & Hw).
    destruct (Hall _ es w eq_refl Ho) as [?| ->]; [done|].
    intros k e He. destruct (Hw k e He) as [Hx|?]; [|done]. by apply elem_of_nil in Hx.
  - intros p c' v Hc Ho Hv Hs. left.
    assert (started p s) as Hs0.
    { destruct Hs as [id Hs]. exists id. by rewrite settle_trace in Hs. }
    rewrite settle_eq in Hc.
    destruct (promises s !! q) as [[[] rxs org]|] eqn:Hq; try by exists c'.
    simpl in Hc.
    apply list_lookup_insert_Some in Hc as [(-> & <- & _)|[_ Hc]]; [|by exists c'].
    simpl in Ho, Hv. subst org.
    destruct (Hex _ eq_refl eq_refl) as [-> |Hns]; [done|by destruct Hns].
Qed.

(** lines 123-124: the record gets its tree and the pipeline resolves *)
Lemma resolve_barrier s p v :
  Barrier s → cell_kind s p = Some KExecutor → parsed p s →
  (∀ k e, EAnnotate p k e ∈ trace s → EFulfilled e ∈ trace s) →
  Barrier (set_trace (λ t, t ++ [EResolve p]) (settle p (Some v) s).2).
Proof.
  intros HB Hk Hp Hall.
  apply (Barrier_step s _ [EResolve p] HB).
  - intros q κ Hq. change (cell_kind (settle p (Some v) s).2 q = Some κ).
    by apply (ext_kind _ _ (settle_extends s p (Some v))).
  - autorewrite with fields. by rewrite settle_trace.
  - intros p' k e Hin%list_elem_of_singleton. done.
  - intros p' Hin%list_elem_of_singleton. by injection Hin as ->.
  - intros a c' r t p' Hc Hin. left. autorewrite with fields in Hc. rewrite settle_eq in Hc.
    destruct (promises s !! p) as [[[] rxs org]|] eqn:Hq; try by exists c'.
    simpl in Hc.
    apply list_lookup_insert_Some in Hc as [(-> & <- & _)|[_ Hc]]; [|by exists c'].
    simpl in Hin. by apply elem_of_nil in Hin.
  - intros r t p' v' Hin. left. autorewrite with fields in Hin. rewrite settle_eq in Hin.
    destruct (promises s !! p) as [[[] rxs org]|] eqn:Hq; try done.
    simpl in Hin. apply elem_of_app in Hin as [?|Hin]; [done|].
    apply list_elem_of_fmap in Hin as (rx & Hj & Hrx). symmetry in Hj.
    apply job_of_then in Hj as [-> _].
    destruct (B_link _ HB _ _ _ _ _ Hq Hrx) as (es & w & Ho & _).
    rewrite (cell_kind_origin _ _ _ Hq) in Hk. simpl in Ho. by rewrite Ho in Hk.
  - intros q c' v' Hc Ho Hv [id Hs].
    destruct (decide (q = p)) as [->|Hne].
    { right. autorewrite with fields. apply elem_of_app. right. apply list_elem_of_here. }
    left. autorewrite with fields in Hs. rewrite settle_trace in Hs.
    apply elem_of_app in Hs as [Hs|Hs%list_elem_of_singleton]; [|done].
    autorewrite with fields in Hc. rewrite settle_eq in Hc.
    assert (promises s !! q = Some c') as Hc0.
    { destruct (promises s !! p) as [[[] rxs org]|] eqn:Hq; try done.
      simpl in Hc. by rewrite list_lookup_insert_ne in Hc. }
    exists c'. split; [done|]. split; [done|]. split; [done|]. by exists id.
Qed.

(** a [Promise.all] crosses off an element that is fulfilled *)
Lemma waiting_barrier s a st rxs es w e0 :
  Inv s → Barrier s →
  promises s !! a = Some (Promise st rxs (AllOf es w)) →
  fulfilled s e0 →
  Barrier (set_promises <[a := Promise st rxs (AllOf es (filter (λ x, x ≠ e0) w))]> s).
Proof.
  intros HI HB Ha Hf.
  set (c' := Promise st rxs (AllOf es (filter (λ x, x ≠ e0) w))).
  assert (extends s (set_promises <[a := c']> s)) as Hext by by eapply extends_update.
  apply (Barrier_step s _ [] HB).
  - apply (ext_kind _ _ Hext).
  - simpl. by rewrite app_nil_r.
  - intros p k e Hin. by apply elem_of_nil in Hin.
  - intros p Hin. by apply elem_of_nil in Hin.
  - intros a' c r t p Hc Hin. simpl in Hc.
    apply list_lookup_insert_Some in Hc as [(-> & <- & _)|[_ Hc]]; [|left; by exists c].
    right. exists es, (filter (λ x, x ≠ e0) w). split; [done|].
    destruct (B_link _ HB _ _ _ _ _ Ha Hin) as (es' & w' & Ho & Hw).
    simpl in Ho. injection Ho as <- <-.
    intros k e He. destruct (Hw k e He) as [Hin'|?]; [|by right].
    destruct (decide (e = e0)) as [->|Hne].
    + right. destruct Hf as (ce & ve & Hce & Hve).
      destruct (B_annot _ HB _ _ _ He) as [_ Hke].
      rewrite (cell_kind_origin _ _ _ Hce) in Hke. injection Hke as Hke.
      by eapply (I_ext _ HI).
    + left. by apply list_elem_of_filter.
  - intros r t p v Hin. by left.
  - intros p c v Hc Ho Hv Hs. left. simpl in Hc.
    apply list_lookup_insert_Some in Hc as [(-> & <- & _)|[_ Hc]]; [done|by exists c].
Qed.

(** ** The annotation calls *)

Lemma annotate_events_inv p' k e p k0 q pls :
  EAnnotate p' k e ∈ annotate_events p k0 q pls →
  p' = p ∧ q ≤ e ∧ ∃ pl a, pls !! (e - q) = Some pl ∧ annotate pl = Some a.
Proof.
  revert k0 q. induction pls as [|pl pls IH]; intros k0 q Hin; simpl in Hin.
  - by apply elem_of_nil in Hin.
  - apply elem_of_app in Hin as [Hin|Hin].
    + destruct (annotate pl) as [a|] eqn:Ha; [|by apply elem_of_nil in Hin].
      apply list_elem_of_singleton in Hin. injection Hin as -> -> ->.
      split; [done|]. split; [done|]. exists pl, a. by rewrite Nat.sub_diag.
    + destruct (IH _ _ Hin) as (-> & Hle & pl' & a & Hpl & Ha).
      split; [done|]. split; [lia|]. exists pl', a. split; [|done].
      replace (e - q) with (S (e - S q)) by lia. done.
Qed.

Lemma annotate_events_are ev p k0 q pls :
  ev ∈ annotate_events p k0 q pls → ∃ k e, ev = EAnnotate p k e.
Proof.
  revert k0 q. induction pls as [|pl pls IH]; intros k0 q Hin; simpl in Hin.
  - by apply elem_of_nil in Hin.
  - apply elem_of_app in Hin as [Hin|Hin]; [|by eapply IH].
    destruct (annotate pl); [|by apply elem_of_nil in Hin].
    apply list_elem_of_singleton in Hin. eauto.
Qed.

(** the state after the annotation calls of a pipeline that has parsed and
    has no callback of line 122 yet *)
Lemma annotated_barrier s s' p t k0 pls :
  Barrier s → parsed p s → EResolve p ∉ trace s →
  (∀ a c r t', promises s !! a = Some c → RThen (KFinish r t' p) ∉ p_reactions c) →
  (∀ r t' o, JThen (KFinish r t' p) o ∉ jobs s) →
  promises s' = promises s ++ (annotate_cell t <$> pls) →
  jobs s' = jobs s →
  trace s' = trace s ++ annotate_events p k0 (length (promises s)) pls →
  Barrier s'.
Proof.
  intros HB Hp Hnr Hnrx Hnj Hps Hjs Htr.
  assert (∀ ev, ev ∈ trace s → ev ∈ trace s') as Hmono.
  { intros ev Hin. rewrite Htr. apply elem_of_app. by left. }
  assert (∀ p' k e, EAnnotate p' k e ∈ trace s' →
            EAnnotate p' k e ∈ trace s ∨ p' = p) as Hold.
  { intros p' k e Hin. rewrite Htr in Hin. apply elem_of_app in Hin as [?|Hin]; [by left|].
    right. by destruct (annotate_events_inv _ _ _ _ _ _ _ Hin). }
  assert (∀ q c, promises s' !! q = Some c →
            promises s !! q = Some c ∨ ∃ pl, c = annotate_cell t pl) as Hcell.
  { intros q c Hc. rewrite Hps in Hc. apply lookup_app_Some in Hc as [?|[_ Hc]]; [by left|].
    right. apply list_lookup_fmap_Some in Hc as (pl & -> & _). by exists pl. }
  assert (∀ q κ, cell_kind s q = Some κ → cell_kind s' q = Some κ) as Hk.
  { intros q κ. unfold cell_kind. rewrite Hps.
    destruct (promises s !! q) as [c|] eqn:Hc; [|done].
    by rewrite (lookup_app_l_Some _ _ _ _ Hc). }
  assert (∀ q, started q s' → started q s) as Hst.
  { intros q [id Hs]. exists id. rewrite Htr in Hs.
    apply elem_of_app in Hs as [?|Hs]; [done|].
    by destruct (annotate_events_are _ _ _ _ _ Hs) as (? & ? & ?). }
  split.
  - intros a c r t' p' Hc Hin. destruct (Hcell _ _ Hc) as [Hc0|[pl ->]].
    + destruct (B_link _ HB _ _ _ _ _ Hc0 Hin) as (es & w & Ho & Hw).
      exists es, w. split; [done|]. intros k e He.
      destruct (Hold _ _ _ He) as [He0| ->].
      * destruct (Hw k e He0); auto.
      * by destruct (Hnrx _ _ _ _ Hc0 Hin).
    + unfold annotate_cell in Hin. destruct (annotate pl); by apply elem_of_nil in Hin.
  - intros r t' p' v Hin k e He. rewrite Hjs in Hin.
    destruct (Hold _ _ _ He) as [He0| ->].
    + apply Hmono. by eapply (B_ready _ HB).
    + by destruct (Hnj _ _ _ Hin).
  - intros t1 t2 p' Heq. rewrite Htr in Heq.
    apply app_eq_inv in Heq as [(k1 & H1 & H2)|(k1 & H1 & H2)].
    + destruct k1 as [|x k1]; simpl in H2.
      * assert (EResolve p' ∈ annotate_events p k0 (length (promises s)) pls) as Hx
          by (rewrite <- H2; apply list_elem_of_here).
        by destruct (annotate_events_are _ _ _ _ _ Hx) as (? & ? & ?).
      * injection H2 as <- ->.
        destruct (B_ordered _ HB t1 k1 p' H1) as [Hp' Hall].
        split; [done|]. intros k e He. destruct (Hold _ _ _ He) as [He0| ->].
        -- by apply (Hall k e).
        -- destruct Hnr. rewrite H1. apply elem_of_app. right. apply list_elem_of_here.
    + assert (EResolve p' ∈ annotate_events p k0 (length (promises s)) pls) as Hx
        by (rewrite H2; apply elem_of_app; right; apply list_elem_of_here).
      by destruct (annotate_events_are _ _ _ _ _ Hx) as (? & ? & ?).
  - intros p' k e He. rewrite Htr in He. apply elem_of_app in He as [He|He].
    + destruct (B_annot _ HB _ _ _ He) as [(src & t' & Hp') Hke].
      split; [exists src, t'; by apply Hmono|by apply Hk].
    + destruct (annotate_events_inv _ _ _ _ _ _ _ He) as (-> & Hle & pl & a & Hpl & Ha).
      split; [destruct Hp as (src & t' & Hp); exists src, t'; by apply Hmono|].
      unfold cell_kind. rewrite Hps, lookup_app_r by done.
      rewrite list_lookup_fmap, Hpl. simpl. unfold annotate_cell. by rewrite Ha.
  - intros q c v Hc Ho Hv Hs. apply Hmono. destruct (Hcell _ _ Hc) as [Hc0|[pl ->]].
    + eapply (B_done _ HB); eauto.
    + unfold annotate_cell in Ho. by destruct (annotate pl).
Qed.

(** ** The functions of the module *)

Lemma settle_kind_barrier s q o κ :
  Barrier s → cell_kind s q = Some κ → κ ≠ KAllOf →
  (κ = KExecutor → o = None ∨ ¬ started q s) →
  Barrier (settle q o s).2.
Proof.
  intros HB Hk Hna Hex. apply settle_barrier; [done|..].
  - intros c es w Hc Ho. rewrite (cell_kind_origin _ _ _ Hc), Ho in Hk.
    injection Hk as <-. done.
  - intros c Hc Ho. rewrite (cell_kind_origin _ _ _ Hc), Ho in Hk.
    injection Hk as <-. by apply Hex.
Qed.

Lemma mutate_events_are ev p k0 q pls :
  ev ∈ mutate_events p k0 q pls → ∃ k e, ev = EMutate p k e.
Proof.
  revert k0 q. induction pls as [|pl pls IH]; intros k0 q Hin; simpl in Hin.
  - by apply elem_of_nil in Hin.
  - apply elem_of_app in Hin as [Hin|Hin]; [|by eapply IH].
    destruct (mutateSource pl); [|by apply elem_of_nil in Hin].
    apply list_elem_of_singleton in Hin. eauto.
Qed.

Lemma call_mutate_loop_barrier s r p pls k0 :
  Barrier s → Barrier (mapM_from (call_mutate r p) k0 pls s).2.
Proof.
  intros HB. destruct (call_mutate_loop_eq r p pls k0 s) as [_ Heq]. rewrite Heq.
  apply (Barrier_grow s _ (mutate_cell r <$> pls)
           (mutate_events p k0 (length (promises s)) pls) HB).
  - by autorewrite with fields.
  - intros c Hc. apply list_elem_of_fmap in Hc as (pl & -> & _).
    unfold mutate_cell. destruct (mutateSource pl); simpl; split; auto.
  - intros j. by autorewrite with fields.
  - by autorewrite with fields.
  - intros ev Hev. by destruct (mutate_events_are _ _ _ _ _ Hev) as (? & ? & ->).
  - intros q id Hev. by destruct (mutate_events_are _ _ _ _ _ Hev) as (? & ? & ?).
Qed.

Lemma promise_all_barrier s es : Barrier s → Barrier (promise_all es s).2.
Proof.
  intros HB. unfold promise_all. msimpl.
  set (a := length (promises s)).
  set (s1 := set_promises (λ h, h ++ [Promise Pending [] (AllOf es es)]) s).
  assert (Barrier s1) as HB1 by (apply alloc_barrier; [done|done|by left]).
  destruct es as [|e es]; msimpl.
  - apply settle_barrier; [done|..].
    + intros c es w Hc Ho. right. unfold s1, a in Hc. simpl in Hc.
      rewrite lookup_new in Hc. injection Hc as <-. simpl in Ho. by injection Ho as _ <-.
    + intros c Hc Ho. unfold s1, a in Hc. simpl in Hc.
      rewrite lookup_new in Hc. by injection Hc as <-.
  - apply (forM__ind _ Barrier); [|done].
    intros x s' _ HB'. by apply subscribe_barrier.
Qed.

Lemma getAST_barrier i r s : Barrier s → Barrier (getAST i r s).2.
Proof.
  intros HB. unfold getAST. msimpl.
  destruct (astPromiseCache s !! node_id (the_node s r)) as [p|] eqn:Hhit; msimpl; [done|].
  set (id := node_id (the_node s r)). set (p := length (promises s)).
  set (s1 := set_promises (λ h, h ++ [Promise Pending [] Executor]) s).
  assert (Barrier s1) as HB1 by (apply alloc_barrier; [done|done|by left]).
  set (s2 := set_trace (λ t, t ++ [EStart p id]) s1).
  assert (Barrier s2) as HB2.
  { apply log_barrier; [done|done|]. intros p' id' [= <- <-] (c & v & Hc & Hv).
    unfold s1, p in Hc. simpl in Hc. rewrite lookup_new in Hc. by injection Hc as <-. }
  pose proof (call_mutate_loop_barrier s2 r p (the_plugins s i) 0 HB2) as HB3.
  set (ms := (mapM_from (call_mutate r p) 0 (the_plugins s i) s2).1) in *.
  set (s3 := (mapM_from (call_mutate r p) 0 (the_plugins s i) s2).2) in *.
  pose proof (promise_all_barrier s3 ms HB3) as HB4.
  set (a := (promise_all ms s3).1) in *. set (s4 := (promise_all ms s3).2) in *.
  assert (Barrier (subscribe a (RThen (KParse i r p)) s4).2) as HB5
    by by apply subscribe_barrier.
  by apply (same_barrier _ _ HB5).
Qed.

Lemma getHeadings_barrier i r s : Barrier s → Barrier (getHeadings i r s).2.
Proof.
  intros HB. unfold getHeadings. msimpl.
  set (q := length (promises s)).
  set (s1 := set_promises (λ h, h ++ [Promise Pending [] AsyncFn]) s).
  assert (Barrier s1) as HB1 by (apply alloc_barrier; [done|done|by left]).
  assert (cell_kind s1 q = Some KAsyncFn) as Hq1.
  { unfold cell_kind, s1, q. simpl. by rewrite lookup_new. }
  destruct (node_headings (the_node s r)); msimpl.
  - by apply (settle_kind_barrier s1 q _ KAsyncFn).
  - apply subscribe_barrier; [by apply getAST_barrier|done].
Qed.

Lemma getHTML_barrier i r s : Barrier s → Barrier (getHTML i r s).2.
Proof.
  intros HB. unfold getHTML. msimpl.
  destruct (the_html_cache s i !! node_id (the_node s r)) as [q0|] eqn:Hhit; msimpl;
    [done|].
  set (s1 := set_promises (λ h, h ++ [Promise Pending [] Executor]) s).
  assert (Barrier s1) as HB1 by (apply alloc_barrier; [done|done|by left]).
  pose proof (getAST_barrier i r s1 HB1) as HB2.
  set (p := (getAST i r s1).1) in *. set (s2 := (getAST i r s1).2) in *.
  assert (Barrier (subscribe p (RThen (KRender (length (promises s)))) s2).2) as HB3
    by by apply subscribe_barrier.
  by apply (same_barrier _ _ HB3).
Qed.

Lemma then_derive_barrier s p (mk : pid → kont) :
  Barrier s → (∀ d r t p', mk d ≠ KFinish r t p') →
  Barrier (then_derive p mk s).2.
Proof.
  intros HB Hmk. unfold then_derive. msimpl.
  set (s1 := set_promises (λ h, h ++ [Promise Pending [] Derived]) s).
  assert (Barrier s1) as HB1 by (apply alloc_barrier; [done|done|by left]).
  apply subscribe_barrier; [done|]. intros r t p' [= Heq]. by destruct (Hmk _ _ _ _ Heq).
Qed.

Lemma settle_external_barrier s e ok : Barrier s → Barrier (settle_external e ok s).2.
Proof.
  intros HB. unfold settle_external. msimpl.
  destruct (promises s !! e) as [[[] rxs [| | | |eff|]]|] eqn:He; try done.
  destruct ok; msimpl.
  - destruct (apply_effect_quiet eff s) as (_ & Hp & Hj & Ht).
    set (s1 := (apply_effect eff s).2) in *.
    assert (Barrier s1) as HB1 by by apply (same_barrier s).
    apply log_barrier; [|done|done].
    apply (settle_kind_barrier s1 e _ KExternal); [done| |done|done].
    unfold cell_kind. by rewrite Hp, He.
  - apply log_barrier; [|done|done].
    apply (settle_kind_barrier s e _ KExternal); [done| |done|done].
    unfold cell_kind. by rewrite He.
Qed.

Lemma resolved_parsed s p : Barrier s → EResolve p ∈ trace s → parsed p s.
Proof.
  intros HB Hin. apply list_elem_of_split in Hin as (t1 & t2 & Heq).
  destruct (B_ordered _ HB t1 t2 p Heq) as [(src & t & Hp) _].
  exists src, t. rewrite Heq. apply elem_of_app. by left.
Qed.

Lemma Barrier_init : Barrier init.
Proof.
  split.
  - intros a c r t p Hc. by compute in Hc.
  - intros r t p v Hin. by apply elem_of_nil in Hin.
  - intros t1 t2 p Heq. by destruct t1.
  - intros p k e Hin. by apply elem_of_nil in Hin.
  - intros p c v Hc. by compute in Hc.
Qed.

Section Barriers.
Context `{Libraries}.

Lemma parse_and_annotate_barrier i r p s :
  Inv s → Barrier s → cell_kind s p = Some KExecutor → fresh_pipeline p s →
  (∀ k e, EMutate p k e ∈ trace s → EFulfilled e ∈ trace s) →
  Barrier (parse_and_annotate i r p s).2.
Proof.
  intros HI HB Hp Hfr Hready.
  pose proof (fresh_pipeline_parsed p s Hfr) as Hnp.
  unfold parse_and_annotate. msimpl.
  set (src := node_src (the_node s r)). set (t := length (trees s)).
  set (pls := the_plugins s i).
  set (s1 := set_trees (λ h, h ++ [remark_parse src]) s).
  set (s2 := set_trace (λ tr, tr ++ [EParse p src t]) s1).
  assert (Inv s1) as HI1 by by apply (quiet_inv s).
  assert (Inv s2) as HI2 by by apply log_parse_inv.
  assert (Barrier s1) as HB1 by by apply (same_barrier s).
  assert (Barrier s2) as HB2 by by apply log_barrier.
  assert (parsed p s2) as Hp2.
  { exists src, t. simpl. apply elem_of_app. right. apply list_elem_of_here. }
  assert (∀ k e, EAnnotate p k e ∈ trace s2 → False) as Hna2.
  { intros k e Hin. simpl in Hin.
    apply elem_of_app in Hin as [Hin|Hin%list_elem_of_singleton]; [|done].
    by destruct (B_annot _ HB _ _ _ Hin). }
  destruct (call_annotate_loop s2 r t p pls 0 HI2) as (Hext3 & HI3 & Hlt3).
  destruct (call_annotate_loop_eq r t p pls 0 s2) as [Hes Hs3].
  set (es := (mapM_from (call_annotate r t p) 0 pls s2).1) in *.
  set (s3 := (mapM_from (call_annotate r t p) 0 pls s2).2) in *.
  assert (trace s3 = trace s2 ++ annotate_events p 0 (length (promises s2)) pls) as Htr3
    by (rewrite Hs3; by autorewrite with fields).
  assert (Barrier s3) as HB3.
  { apply (annotated_barrier s2 s3 p t 0 pls HB2 Hp2).
    - intros Hin. simpl in Hin.
      apply elem_of_app in Hin as [Hin|Hin%list_elem_of_singleton]; [|done].
      by apply Hnp, resolved_parsed.
    - intros a c r' t' Hc Hin. destruct (I_konts _ HI _ _ _ Hc Hin) as [_ Hx]. done.
    - intros r' t' o Hin. destruct (I_jobs _ HI _ _ Hin) as [_ Hx]. done.
    - rewrite Hs3. by autorewrite with fields.
    - rewrite Hs3. by autorewrite with fields.
    - done. }
  destruct (promise_all_spec s3 es HI3 Hlt3) as (Ha & HI4 & Hext4 & Ht4 & st & Hca & Hst).
  pose proof (promise_all_barrier s3 es HB3) as HB4.
  set (s4 := (promise_all es s3).2) in *. rewrite Ha.
  apply subscribe_barrier; [done|].
  intros r' t' p' [= <- <- <-].
  exists (Promise st [] (AllOf es es)), es. split; [done|]. split; [done|].
  split; [done|]. intros k e Hin. rewrite (tidy_trace _ _ Ht4), Htr3 in Hin.
  apply elem_of_app in Hin as [Hin|Hin]; [by destruct (Hna2 _ _ Hin)|].
  destruct (annotate_events_inv _ _ _ _ _ _ _ Hin) as (_ & Hle & pl & a & Hpl & _).
  apply lookup_lt_Some in Hpl. rewrite Hes. apply elem_of_seq. lia.
Qed.

Lemma finish_barrier r t p s :
  Barrier s → cell_kind s p = Some KExecutor → parsed p s →
  (∀ k e, EAnnotate p k e ∈ trace s → EFulfilled e ∈ trace s) →
  Barrier (finish r t p s).2.
Proof.
  intros HB Hp Hparsed Hall. unfold finish. msimpl.
  set (s1 := set_objects (alter (with_ast t) r) s).
  assert (Barrier s1) as HB1 by by apply (same_barrier s).
  by apply resolve_barrier.
Qed.

Lemma run_callback_barrier k v s :
  Inv s → Barrier s → kont_wf s k →
  (∀ i r p, k = KParse i r p → fresh_pipeline p s
     ∧ ∀ k' e, EMutate p k' e ∈ trace s → EFulfilled e ∈ trace s) →
  (∀ r t p, k = KFinish r t p →
     ∀ k' e, EAnnotate p k' e ∈ trace s → EFulfilled e ∈ trace s) →
  Barrier (run_callback k v s).2.
Proof.
  intros HI HB Hwf Hparse Hfin. unfold run_callback. msimpl.
  destruct k as [i r p|r t p|r q|q|d|n d|dp d|d]; simpl in Hwf.
  - destruct (Hparse i r p eq_refl) as [Hfr Hready]. by apply parse_and_annotate_barrier.
  - destruct Hwf. apply finish_barrier; [done|done|done|]. by apply (Hfin r t p).
  - assert (∀ o, Barrier (settle q o s).2) as Hs
      by (intros; by apply (settle_kind_barrier s q _ KAsyncFn)).
    destruct v; try apply Hs. destruct (the_tree s r0); [|apply Hs]. msimpl.
    apply (settle_kind_barrier _ q _ KAsyncFn); [by apply (same_barrier s)|done..].
  - destruct v; try done. destruct (the_tree s r); [|done]. msimpl.
    destruct Hwf as [Hk Hns].
    apply (settle_kind_barrier _ q _ KExecutor); [by apply (same_barrier s)|done|done|].
    intros _. by right.
  - destruct v; by apply (settle_kind_barrier s d _ KDerived).
  - destruct v; by apply (settle_kind_barrier s d _ KDerived).
  - destruct v; by apply (settle_kind_barrier s d _ KDerived).
  - destruct v; by apply (settle_kind_barrier s d _ KDerived).
Qed.

Lemma skip_callback_barrier k s : Barrier s → Barrier (skip_callback k s).2.
Proof.
  intros HB. destruct k; simpl; try done;
    (apply settle_barrier; [done|intros; by left..]).
Qed.

Lemma notify_all_barrier a e ok s :
  Inv s → Barrier s → (ok = true → fulfilled s e) → Barrier (notify_all a e ok s).2.
Proof.
  intros HI HB Hf. unfold notify_all. msimpl.
  destruct (promises s !! a) as [[st rxs [| | | | |es w]]|] eqn:Ha; try done.
  destruct ok; msimpl.
  - set (w' := filter (λ x, x ≠ e) w).
    set (s1 := set_promises <[a := Promise st rxs (AllOf es w')]> s).
    assert (Barrier s1) as HB1 by (apply (waiting_barrier s a st rxs es w e); auto).
    assert (promises s1 !! a = Some (Promise st rxs (AllOf es w'))) as Ha1.
    { simpl. apply list_lookup_insert_eq. by eapply lookup_lt_Some. }
    destruct (decide (w' = [])) as [Hw|]; [|done]. msimpl.
    apply settle_barrier; [done|..].
    + intros c es' w'' Hc Ho. right. rewrite Ha1 in Hc. injection Hc as <-.
      simpl in Ho. by injection Ho as _ <-.
    + intros c Hc Ho. rewrite Ha1 in Hc. by injection Hc as <-.
  - apply settle_barrier; [done|intros; by left..].
Qed.

Lemma run_next_barrier s : Inv s → Barrier s → Barrier (run_next s).2.
Proof.
  intros HI HB. unfold run_next. msimpl.
  destruct (jobs s) as [|j js] eqn:Hj; [done|]. msimpl.
  set (s0 := set_jobs (λ _, js) s).
  assert (Inv s0) as HI0 by by eapply pop_inv.
  assert (Barrier s0) as HB0 by by eapply pop_barrier.
  assert (j ∈ jobs s) as Hin by (rewrite Hj; apply list_elem_of_here).
  destruct j as [k [v|]|a e ok]; simpl.
  - apply run_callback_barrier; [done|done|exact (I_jobs _ HI _ _ Hin)|..].
    + intros i r p ->. split; [|exact (I_ready _ HI _ _ _ _ Hin)].
      pose proof (I_once _ HI p) as H1. unfold fresh_pipeline.
      change (count_reg p s0) with (count_reg p s).
      change (parse_count p s0) with (parse_count p s).
      assert (count_job p s = S (count_job p s0)) as Hc.
      { unfold count_job. simpl. rewrite Hj, filter_cons. simpl.
        by rewrite bool_decide_true. }
      lia.
    + intros r t p ->. exact (B_ready _ HB _ _ _ _ Hin).
  - by apply skip_callback_barrier.
  - apply notify_all_barrier; [done|done|]. intros ->. exact (I_jall _ HI _ _ Hin).
Qed.

Lemma guarded_barrier {A} s i r (m : M A) :
  Barrier s → Barrier (m s).2 → Barrier (guarded s i r m).
Proof. intros HB Hm. unfold guarded. by destruct (decide _). Qed.

Lemma exec_barrier a s : Inv s → Barrier s → Barrier (exec a s).
Proof.
  intros HI HB. destruct a; simpl.
  - by apply (same_barrier s).
  - unfold extendNodeType. destruct (decide _); [|done]. msimpl. by apply (same_barrier s).
  - unfold onNodeCreate. destruct (decide _); [|done]. by apply (same_barrier s).
  - apply guarded_barrier; [done|]. by apply getAST_barrier.
  - apply guarded_barrier; [done|]. by apply getHeadings_barrier.
  - apply guarded_barrier; [done|]. by apply getHTML_barrier.
  - apply guarded_barrier; [done|]. unfold html_resolve. msimpl.
    apply then_derive_barrier; [by apply getHTML_barrier|done].
  - apply guarded_barrier; [done|]. unfold excerpt_resolve. msimpl.
    apply then_derive_barrier; [by apply getAST_barrier|done].
  - apply guarded_barrier; [done|]. unfold headings_resolve. msimpl.
    apply then_derive_barrier; [by apply getHeadings_barrier|done].
  - apply guarded_barrier; [done|]. unfold timeToRead_resolve. msimpl.
    apply then_derive_barrier; [by apply getHTML_barrier|done].
  - by apply settle_external_barrier.
  - by apply settle_external_barrier.
  - by apply run_next_barrier.
Qed.

Lemma run_barrier acts s : Inv s → Barrier s → Barrier (run acts s).
Proof.
  revert s. induction acts as [|a acts IH]; intros s HI HB; simpl; [done|].
  apply IH; [by apply exec_inv|by apply exec_barrier].
Qed.

Lemma reachable_barrier s : reachable s → Barrier s.
Proof. intros [acts ->]. apply run_barrier; [apply Inv_init|apply Barrier_init]. Qed.

(** X19: the second barrier.  In every state the module can reach, a
    pipeline sets the record's [ast] and resolves its promise (lines
    123-124) only after it has parsed the source and after the promise of
    every annotation call it made has been fulfilled: on the trace, the
    parse of the pipeline and the fulfilment of each of its annotation
    promises come before its resolve. *)
Theorem ast_set_after_annotations (s : state) (t1 t2 : list event) (p : pid) :
  reachable s →
  trace s = t1 ++ EResolve p :: t2 →
  (∃ src t, EParse p src t ∈ t1)
  ∧ ∀ k e, EAnnotate p k e ∈ trace s → EFulfilled e ∈ t1.
Proof.
  intros Hr Heq. exact (B_ordered _ (reachable_barrier s Hr) t1 t2 p Heq).
Qed.

(** X20: a rejected annotation promise leaves the pipeline pending for
    good.  In a state the module can reach where an annotation call of a
    started pipeline returned a promise that is now rejected, whatever
    happens from then on the pipeline never resolves - lines 123-124 never
    run for it - and its promise, the one the cache hands out, stays
    pending: it is neither fulfilled nor rejected. *)
Theorem rejected_annotation_leaves_pending
    (s : state) (p : pid) (k : nat) (e : pid) (acts : list action) :
  reachable s → started p s → EAnnotate p k e ∈ trace s → rejected s e →
  pending (run acts s) p ∧ EResolve p ∉ trace (run acts s).
Proof.
  intros Hr [id Hs] Ha Hrej.
  pose proof (reachable_inv s Hr) as HI.
  pose proof (run_inv acts s HI) as HI'.
  pose proof (run_barrier acts s HI (reachable_barrier s Hr)) as HB'.
  pose proof (run_extends acts s HI) as Hext.
  set (s' := run acts s) in *.
  assert (EAnnotate p k e ∈ trace s') as Ha' by by apply (ext_trace _ _ Hext).
  assert (rejected s' e) as Hrej' by by apply (ext_rejected _ _ Hext).
  assert (EStart p id ∈ trace s') as Hs' by by apply (ext_trace _ _ Hext).
  assert (EResolve p ∉ trace s') as Hnr.
  { intros Hin. apply list_elem_of_split in Hin as (t1 & t2 & Heq).
    destruct (B_ordered _ HB' t1 t2 p Heq) as [_ Hall].
    assert (EFulfilled e ∈ trace s') as Hf.
    { rewrite Heq. apply elem_of_app. left. by eapply Hall. }
    apply (I_events _ HI') in Hf. simpl in Hf.
    by destruct (fulfilled_not_rejected s' e). }
  split; [|done].
  pose proof (I_events _ HI' _ Hs') as Hk. simpl in Hk.
  pose proof (executor_never_rejected s' p HI' Hk) as Hnrej.
  unfold cell_kind in Hk. destruct (promises s' !! p) as [c|] eqn:Hc; [|done].
  exists c. split; [done|].
  destruct (p_state c) as [|v|] eqn:Hst; [done| |].
  - destruct Hnr. apply (B_done _ HB' p c v); [done| |done|by exists id].
    simpl in Hk. by destruct (p_origin c).
  - destruct Hnrej. by exists c.
Qed.

End Barriers.

Lemma ast_set_after_annotations_witness :
  let s := @run sample_libraries annotation_fulfils init in
  @reachable sample_libraries s
  ∧ trace s
    = [EStart 0 "a.md"; EParse 0 "Hello, world" 0; EAnnotate 0 0 3; EFulfilled 3]
      ++ EResolve 0 :: []
  ∧ ((∃ src t, EParse 0 src t
               ∈ [EStart 0 "a.md"; EParse 0 "Hello, world" 0; EAnnotate 0 0 3;
                  EFulfilled 3])
     ∧ ∀ k e, EAnnotate 0 k e ∈ trace s →
         EFulfilled e
         ∈ [EStart 0 "a.md"; EParse 0 "Hello, world" 0; EAnnotate 0 0 3;
            EFulfilled 3]).
Proof.
  intros s.
  assert (@reachable sample_libraries s) as Hr by by exists annotation_fulfils.
  split; [exact Hr|]. split; [reflexivity|].
  apply (@ast_set_after_annotations sample_libraries s _ [] 0 Hr). reflexivity.
Defined.

Lemma rejected_annotation_leaves_pending_witness :
  let s := @run sample_libraries annotation_rejects init in
  @reachable sample_libraries s
  ∧ started 0 s ∧ EAnnotate 0 0 4 ∈ trace s ∧ rejected s 4
  ∧ pending (@run sample_libraries [GetAST 0 0; RunJob] s) 0
  ∧ EResolve 0 ∉ trace (@run sample_libraries [GetAST 0 0; RunJob] s).
Proof.
  intros s.
  assert (@reachable sample_libraries s) as Hr by by exists annotation_rejects.
  assert (started 0 s) as Hs by (exists "a.md"; vm_compute; apply list_elem_of_here).
  assert (EAnnotate 0 0 4 ∈ trace s) as Ha.
  { vm_compute. do 2 apply list_elem_of_further. apply list_elem_of_here. }
  assert (rejected s 4) as Hrej by (eexists; split; [vm_compute; reflexivity|reflexivity]).
  split; [exact Hr|]. split; [exact Hs|]. split; [exact Ha|]. split; [exact Hrej|].
  exact (@rejected_annotation_leaves_pending sample_libraries s 0 0 4
           [GetAST 0 0; RunJob] Hr Hs Ha Hrej).
Defined.

(** * The excerpt of a long text *)

(** X21: a text of more than [pruneLength + 2] characters is always cut.
    For a [pruneLength] from 0 up to 32 bits, when the joined text of the
    text nodes has more than [pruneLength + 2] characters the excerpt is
    never the text itself: it is the first [k] characters of the text for
    some [k] of at most [pruneLength], not cut between two letters, followed
    by ["..."]. *)
Theorem excerpt_cuts_long_text (ast : tree) (pruneLength : Z) :
  (0 ≤ pruneLength < 2 ^ 31)%Z →
  let text := join " " (visit ast "text" tree_value) in
  Z.to_nat pruneLength + 2 < String.length text →
  ∃ k, k ≤ Z.to_nat pruneLength
       ∧ excerpt ast pruneLength = substring 0 k text +:+ "..."
       ∧ ¬ cut_inside_word (list_ascii_of_string text) k.
Proof.
  intros Hn text Hlen. unfold excerpt. fold text.
  destruct (prune_spec text pruneLength Hn) as [[_ Hle]|(k & Hk & _ & Heq & Hcut)];
    [lia|].
  by exists k.
Qed.

Lemma excerpt_cuts_long_text_witness :
  (0 ≤ 5 < 2 ^ 31)%Z
  ∧ Z.to_nat 5 + 2
    < String.length (join " " (visit (sample_parse "Hello, world") "text" tree_value))
  ∧ ∃ k, k ≤ Z.to_nat 5
       ∧ excerpt (sample_parse "Hello, world") 5
         = substring 0 k (join " " (visit (sample_parse "Hello, world") "text" tree_value))
           +:+ "..."
       ∧ ¬ cut_inside_word
             (list_ascii_of_string
                (join " " (visit (sample_parse "Hello, world") "text" tree_value))) k.
Proof.
  assert (0 ≤ 5 < 2 ^ 31)%Z as Hn by lia.
  assert (Z.to_nat 5 + 2
          < String.length
              (join " " (visit (sample_parse "Hello, world") "text" tree_value))) as Hl
    by (vm_compute; lia).
  split; [exact Hn|]. split; [exact Hl|].
  exact (excerpt_cuts_long_text (sample_parse "Hello, world") 5 Hn Hl).
Defined.
